(** * MoveDetect: a shallow embedding of the movement-detection library

    The development follows [src-lib/MoveDetect.cpp] and
    [src-lib/MoveDetect.hpp]: the similarity metric [psnr], the
    [Handler] class with its public fields, [clear] and [detect].

    Conventions.
    - [int] and [size_t] values are integers of [Z]; the two [size_t]
      additions of [detect] wrap modulo [2^64] and are written with
      [wrap64].
    - [double] configuration values ([psnr_threshold], [thumbnail_ratio])
      are the rationals they denote, in [Q]; rounding is not modelled.
    - the PSNR score is kept symbolic ([score]) and compared exactly:
      [score_lt] is the order of the real numbers the scores stand for
      ([score_lt_spec]).
    - [cv::Mat] is a record of its header ([rows], [cols], [type]) and
      its samples, interleaved by channel, row after row.
    - OpenCV's image filters are not part of the repository: what they
      compute sample by sample is a parameter (class [OpenCV]); their
      shape and their argument checks are written out.
    - [Legacy] is the older generation of the library, [src/MoveDetect.cpp]
      and [src/MoveDetect.hpp]. *)

From Stdlib Require Import Reals Qreals Lra.
From Stdlib Require Import ZArith QArith List String Bool Lia Sorted.
Import ListNotations.
Local Open Scope string_scope.
Local Open Scope list_scope.
Local Open Scope Z_scope.

Set Implicit Arguments.

(** ** Exceptions *)

Inductive exn : Type :=
| invalid_argument (what : string)   (* std::invalid_argument *)
| cv_Exception (what : string).      (* cv::Exception, raised by a CV_Assert *)

(** A computation that either throws or returns. *)
Definition result (A : Type) : Type := (exn + A)%type.

Definition is_invalid_argument {A} (r : result A) : bool :=
  match r with inl (invalid_argument _) => true | _ => false end.

Definition succeeded {A} (r : result A) : bool :=
  match r with inr _ => true | inl _ => false end.

(** ** [cv::Size], [cv::Rect], [cv::Mat] *)

Record Size : Type := mkSize { width : Z; height : Z }.

(** [cv::Size::area]. *)
Definition area (s : Size) : Z := width s * height s.

(** [cv::Size::empty]. *)
Definition size_empty (s : Size) : bool := (width s <=? 0) || (height s <=? 0).

Record Rect : Type := mkRect { rx : Z; ry : Z; rwidth : Z; rheight : Z }.

(** Matrix type codes: [CV_MAKETYPE(depth, cn) = depth + ((cn - 1) << 3)]. *)
Definition CV_8U : Z := 0.
Definition CV_32F : Z := 5.
Definition CV_MAKETYPE (depth cn : Z) : Z := depth + Z.shiftl (cn - 1) 3.
Definition CV_8UC1 : Z := CV_MAKETYPE CV_8U 1.
Definition CV_8UC3 : Z := CV_MAKETYPE CV_8U 3.

Record Mat : Type := mkMat {
  rows : Z;
  cols : Z;
  type : Z;
  data : list Z
}.

(** The default-constructed [cv::Mat()]. *)
Definition Mat_default : Mat := mkMat 0 0 0 [].

Definition channels (m : Mat) : Z := Z.shiftr (type m) 3 + 1.
Definition depth (m : Mat) : Z := Z.land (type m) 7.
Definition total (m : Mat) : Z := rows m * cols m.

(** [cv::Mat::empty]: no element (the data pointer is null exactly then). *)
Definition empty (m : Mat) : bool := total m =? 0.

(** [cv::Mat::size]. *)
Definition size (m : Mat) : Size := mkSize (cols m) (rows m).

(** [cv::Mat(size, type, Scalar(0,0,0))]. *)
Definition Mat_zeros (s : Size) (t : Z) : Mat :=
  mkMat (height s) (width s) t
        (repeat 0 (Z.to_nat (height s * width s * (Z.shiftr t 3 + 1)))).

(** ** Element-wise operations used by [psnr] *)

Fixpoint zip_with (f : Z -> Z -> Z) (a b : list Z) : list Z :=
  match a, b with
  | x :: a', y :: b' => f x y :: zip_with f a' b'
  | _, _ => []
  end.

(** [cv::absdiff] on two matrices of one size and type. *)
Definition absdiff (a b : Mat) : Mat :=
  mkMat (rows a) (cols a) (type a)
        (zip_with (fun x y => Z.abs (x - y)) (data a) (data b)).

(** [m.convertTo(m, CV_32F)]: same samples, float depth. The samples stay
    the integers they are: a [float] holds every 8-bit difference and its
    square (at most [255 * 255]) exactly, so the model is the code on 8-bit
    images, the frames the engine is given. On a deeper image (16-bit and
    up) the code rounds the squares to [float], which the model does
    not. *)
Definition convertTo_32F (m : Mat) : Mat :=
  mkMat (rows m) (cols m) (CV_MAKETYPE CV_32F (channels m)) (data m).

(** [a.mul(b)]: the per-element product. *)
Definition mul (a b : Mat) : Mat :=
  mkMat (rows a) (cols a) (type a) (zip_with Z.mul (data a) (data b)).

(** Sum of the samples of channel [c] in a list interleaved over [cn]
    channels; [k] is the channel of the head sample. *)
Fixpoint channel_sum (cn c k : Z) (l : list Z) : Z :=
  match l with
  | [] => 0
  | x :: l' =>
      (if k =? c then x else 0)
      + channel_sum cn c (if k + 1 <? cn then k + 1 else 0) l'
  end.

(** [cv::sum]: a [cv::Scalar], one sum per channel, four slots. The sums
    are accumulated in [double], exact for the integers met here. OpenCV
    asserts at most four channels ([cn <= 4]); the model is the call on
    images of one to four channels and gives sums, not that assertion, on
    more. *)
Definition sum (m : Mat) : list Z :=
  map (fun c => channel_sum (channels m) c 0 (data m)) [0; 1; 2; 3].

Definition val (s : list Z) (i : nat) : Z := nth i s 0.

(** ** The score *)

(** A value returned by [psnr]: the literal [0.0], or
    [10.0 * log10((255 * 255) / (sse / n))] for integers [sse], [n]. *)
Inductive score : Type :=
| score_zero
| score_psnr (sse n : Z).

(** [s < t] for a score [s] and a rational [t = p / q]:
    [10 * log10 (65025 * n / sse) < p / q] is
    [(65025 * n / sse) ^ (10 * q) < 10 ^ p], cleared of its divisions. *)
Definition score_lt (s : score) (t : Q) : bool :=
  match s with
  | score_zero => 0 <? Qnum t
  | score_psnr sse n =>
      let e := 10 * Zpos (Qden t) in
      if 0 <=? Qnum t
      then (255 * 255 * n) ^ e <? 10 ^ Qnum t * sse ^ e
      else (255 * 255 * n) ^ e * 10 ^ (- Qnum t) <? sse ^ e
  end.

(** The real number a score stands for, [log10 x] being [ln x / ln 10]. *)
Definition score_value (s : score) : R :=
  match s with
  | score_zero => 0%R
  | score_psnr sse n =>
      (10 * (ln (IZR (255 * 255) / (IZR sse / IZR n)) / ln 10))%R
  end.

(** ** [MoveDetect::psnr] *)

Definition psnr (src dst : Mat) : result score :=
  if empty src || empty dst
  then inl (invalid_argument "cannot calculate psnr using empty image")
  else if negb (type src =? type dst)
          || negb (cols src =? cols dst)
          || negb (rows src =? rows dst)
  then inl (invalid_argument "src and dst images cannot be compared")
  else
    let s1 := absdiff src dst in
    let s1 := convertTo_32F s1 in
    let s1 := mul s1 s1 in
    let s := sum s1 in
    let sse := val s 0 + val s 1 + val s 2 in
    (* sse is an integer: [sse <= 1e-10] is [sse <= 0] *)
    if sse <=? 0
    then inr score_zero
    else inr (score_psnr sse (channels src * total src)).

(** ** OpenCV filters

    What each filter computes per sample is a parameter; sizes, types
    and the checks that make a call throw are written out below. *)

Inductive InterpolationFlags : Type := INTER_AREA | INTER_CUBIC.
Inductive LineTypes : Type := LINE_4 | LINE_8 | LINE_AA.

Definition Point : Type := (Z * Z)%type.
Definition Contour : Type := list Point.
Definition Scalar : Type := list Z.

(** [findContours] only reads the mask (OpenCV 3.2 and later). *)
Class OpenCV : Type := {
  resize_samples : Mat -> Size -> InterpolationFlags -> list Z;
  cvtColor_samples : Mat -> list Z;
  threshold_samples : Mat -> list Z;
  dilate_samples : Mat -> Z -> list Z;
  erode_samples : Mat -> Z -> list Z;
  findContours : Mat -> list Contour;
  polylines : Mat -> Contour -> bool -> Scalar -> Z -> LineTypes -> Mat;
  boundingRect : Mat -> Rect;
  rectangle : Mat -> Rect -> Scalar -> Z -> LineTypes -> Mat
}.

Section Filters.
Context {cv : OpenCV}.

(** [cv::resize(src, dst, dsize, 0, 0, interpolation)]: with both scale
    factors zero an empty [dsize] fails the assertion on the scale. *)
Definition resize (src : Mat) (dsize : Size) (i : InterpolationFlags)
  : result Mat :=
  if size_empty (size src) then inl (cv_Exception "!ssize.empty()")
  else if size_empty dsize then inl (cv_Exception "inv_scale_x > 0")
  else inr (mkMat (height dsize) (width dsize) (type src)
                  (resize_samples src dsize i)).

(** [cv::cvtColor(src, dst, cv::COLOR_BGR2GRAY)]: three or four channels in,
    one channel of the same depth out. *)
Definition cvtColor_BGR2GRAY (src : Mat) : result Mat :=
  if (channels src =? 3) || (channels src =? 4)
  then inr (mkMat (rows src) (cols src) (CV_MAKETYPE (depth src) 1)
                  (cvtColor_samples src))
  else inl (cv_Exception "scn == 3 || scn == 4").

(** [cv::threshold(src, dst, 0.0, 255.0, THRESH_BINARY | THRESH_OTSU)]:
    Otsu's method takes 8-bit single-channel images. *)
Definition threshold_otsu (src : Mat) : result Mat :=
  if type src =? CV_8UC1
  then inr (mkMat (rows src) (cols src) (type src) (threshold_samples src))
  else inl (cv_Exception "src.type() == CV_8UC1").

(** [cv::dilate(src, dst, cv::Mat(), cv::Point(-1, -1), iterations)]. *)
Definition dilate (src : Mat) (iterations : Z) : Mat :=
  mkMat (rows src) (cols src) (type src) (dilate_samples src iterations).

(** [cv::erode(src, dst, cv::Mat(), cv::Point(-1, -1), iterations)]. *)
Definition erode (src : Mat) (iterations : Z) : Mat :=
  mkMat (rows src) (cols src) (type src) (erode_samples src iterations).

End Filters.

(** ** [ControlMap]: a [std::map<size_t, cv::Mat>]

    The entries in increasing key order, as [begin()] to [end()] visits
    them. *)

Definition ControlMap : Type := list (Z * Mat).

(** [control[k] = v]: insert at the key's place, or overwrite. *)
Fixpoint assign (k : Z) (v : Mat) (m : ControlMap) : ControlMap :=
  match m with
  | [] => [(k, v)]
  | (k', v') :: m' =>
      if k <? k' then (k, v) :: m
      else if k =? k' then (k, v) :: m'
      else (k', v') :: assign k v m'
  end.

(** [control.size()]. *)
Definition map_size (m : ControlMap) : Z := Z.of_nat (List.length m).

(** The keys, in the order of the map. *)
Definition keys (m : ControlMap) : list Z := map fst m.

(** [while (control.size() > n) control.erase(control.begin());] *)
Fixpoint evict (n : Z) (m : ControlMap) : ControlMap :=
  match m with
  | [] => []
  | _ :: m' => if map_size m >? n then evict n m' else m
  end.

(** ** [MoveDetect::Handler] *)

(** A [high_resolution_clock::time_point], in ticks since the epoch. *)
Definition time_point : Type := Z.

Record Handler : Type := mkHandler {
  movement_detected : bool;
  transition_detected : bool;
  next_frame_index : Z;
  next_key_frame : Z;
  key_frame_frequency : Z;
  number_of_control_frames : Z;
  psnr_threshold : Q;
  most_recent_psnr_score : score;
  thumbnail_ratio : Q;
  thumbnail_size : Size;
  frame_index_with_movement : Z;
  movement_last_detected : time_point;
  control : ControlMap;
  mask_enabled : bool;
  mask : Mat;
  line_type : LineTypes;
  contours_enabled : bool;
  contours_size : Z;
  bbox_enabled : bool;
  bbox_size : Z;
  output : Mat
}.

(** Assignment to one field. *)
Definition set_movement_detected (v : bool) (h : Handler) : Handler :=
  mkHandler v (transition_detected h) (next_frame_index h)
    (next_key_frame h) (key_frame_frequency h) (number_of_control_frames h)
    (psnr_threshold h) (most_recent_psnr_score h) (thumbnail_ratio h)
    (thumbnail_size h) (frame_index_with_movement h)
    (movement_last_detected h) (control h) (mask_enabled h) (mask h)
    (line_type h) (contours_enabled h) (contours_size h) (bbox_enabled h)
    (bbox_size h) (output h).

Definition set_transition_detected (v : bool) (h : Handler) : Handler :=
  mkHandler (movement_detected h) v (next_frame_index h) (next_key_frame h)
    (key_frame_frequency h) (number_of_control_frames h) (psnr_threshold h)
    (most_recent_psnr_score h) (thumbnail_ratio h) (thumbnail_size h)
    (frame_index_with_movement h) (movement_last_detected h) (control h)
    (mask_enabled h) (mask h) (line_type h) (contours_enabled h)
    (contours_size h) (bbox_enabled h) (bbox_size h) (output h).

Definition set_next_frame_index (v : Z) (h : Handler) : Handler :=
  mkHandler (movement_detected h) (transition_detected h) v
    (next_key_frame h) (key_frame_frequency h) (number_of_control_frames h)
    (psnr_threshold h) (most_recent_psnr_score h) (thumbnail_ratio h)
    (thumbnail_size h) (frame_index_with_movement h)
    (movement_last_detected h) (control h) (mask_enabled h) (mask h)
    (line_type h) (contours_enabled h) (contours_size h) (bbox_enabled h)
    (bbox_size h) (output h).

Definition set_next_key_frame (v : Z) (h : Handler) : Handler :=
  mkHandler (movement_detected h) (transition_detected h)
    (next_frame_index h) v (key_frame_frequency h)
    (number_of_control_frames h) (psnr_threshold h)
    (most_recent_psnr_score h) (thumbnail_ratio h) (thumbnail_size h)
    (frame_index_with_movement h) (movement_last_detected h) (control h)
    (mask_enabled h) (mask h) (line_type h) (contours_enabled h)
    (contours_size h) (bbox_enabled h) (bbox_size h) (output h).

Definition set_key_frame_frequency (v : Z) (h : Handler) : Handler :=
  mkHandler (movement_detected h) (transition_detected h)
    (next_frame_index h) (next_key_frame h) v (number_of_control_frames h)
    (psnr_threshold h) (most_recent_psnr_score h) (thumbnail_ratio h)
    (thumbnail_size h) (frame_index_with_movement h)
    (movement_last_detected h) (control h) (mask_enabled h) (mask h)
    (line_type h) (contours_enabled h) (contours_size h) (bbox_enabled h)
    (bbox_size h) (output h).

Definition set_number_of_control_frames (v : Z) (h : Handler) : Handler :=
  mkHandler (movement_detected h) (transition_detected h)
    (next_frame_index h) (next_key_frame h) (key_frame_frequency h) v
    (psnr_threshold h) (most_recent_psnr_score h) (thumbnail_ratio h)
    (thumbnail_size h) (frame_index_with_movement h)
    (movement_last_detected h) (control h) (mask_enabled h) (mask h)
    (line_type h) (contours_enabled h) (contours_size h) (bbox_enabled h)
    (bbox_size h) (output h).

Definition set_psnr_threshold (v : Q) (h : Handler) : Handler :=
  mkHandler (movement_detected h) (transition_detected h)
    (next_frame_index h) (next_key_frame h) (key_frame_frequency h)
    (number_of_control_frames h) v (most_recent_psnr_score h)
    (thumbnail_ratio h) (thumbnail_size h) (frame_index_with_movement h)
    (movement_last_detected h) (control h) (mask_enabled h) (mask h)
    (line_type h) (contours_enabled h) (contours_size h) (bbox_enabled h)
    (bbox_size h) (output h).

Definition set_most_recent_psnr_score (v : score) (h : Handler) : Handler :=
  mkHandler (movement_detected h) (transition_detected h)
    (next_frame_index h) (next_key_frame h) (key_frame_frequency h)
    (number_of_control_frames h) (psnr_threshold h) v (thumbnail_ratio h)
    (thumbnail_size h) (frame_index_with_movement h)
    (movement_last_detected h) (control h) (mask_enabled h) (mask h)
    (line_type h) (contours_enabled h) (contours_size h) (bbox_enabled h)
    (bbox_size h) (output h).

Definition set_thumbnail_ratio (v : Q) (h : Handler) : Handler :=
  mkHandler (movement_detected h) (transition_detected h)
    (next_frame_index h) (next_key_frame h) (key_frame_frequency h)
    (number_of_control_frames h) (psnr_threshold h)
    (most_recent_psnr_score h) v (thumbnail_size h)
    (frame_index_with_movement h) (movement_last_detected h) (control h)
    (mask_enabled h) (mask h) (line_type h) (contours_enabled h)
    (contours_size h) (bbox_enabled h) (bbox_size h) (output h).

Definition set_thumbnail_size (v : Size) (h : Handler) : Handler :=
  mkHandler (movement_detected h) (transition_detected h)
    (next_frame_index h) (next_key_frame h) (key_frame_frequency h)
    (number_of_control_frames h) (psnr_threshold h)
    (most_recent_psnr_score h) (thumbnail_ratio h) v
    (frame_index_with_movement h) (movement_last_detected h) (control h)
    (mask_enabled h) (mask h) (line_type h) (contours_enabled h)
    (contours_size h) (bbox_enabled h) (bbox_size h) (output h).

Definition set_frame_index_with_movement (v : Z) (h : Handler) : Handler :=
  mkHandler (movement_detected h) (transition_detected h)
    (next_frame_index h) (next_key_frame h) (key_frame_frequency h)
    (number_of_control_frames h) (psnr_threshold h)
    (most_recent_psnr_score h) (thumbnail_ratio h) (thumbnail_size h) v
    (movement_last_detected h) (control h) (mask_enabled h) (mask h)
    (line_type h) (contours_enabled h) (contours_size h) (bbox_enabled h)
    (bbox_size h) (output h).

Definition set_movement_last_detected (v : time_point) (h : Handler) : Handler :=
  mkHandler (movement_detected h) (transition_detected h)
    (next_frame_index h) (next_key_frame h) (key_frame_frequency h)
    (number_of_control_frames h) (psnr_threshold h)
    (most_recent_psnr_score h) (thumbnail_ratio h) (thumbnail_size h)
    (frame_index_with_movement h) v (control h) (mask_enabled h) (mask h)
    (line_type h) (contours_enabled h) (contours_size h) (bbox_enabled h)
    (bbox_size h) (output h).

Definition set_control (v : ControlMap) (h : Handler) : Handler :=
  mkHandler (movement_detected h) (transition_detected h)
    (next_frame_index h) (next_key_frame h) (key_frame_frequency h)
    (number_of_control_frames h) (psnr_threshold h)
    (most_recent_psnr_score h) (thumbnail_ratio h) (thumbnail_size h)
    (frame_index_with_movement h) (movement_last_detected h) v
    (mask_enabled h) (mask h) (line_type h) (contours_enabled h)
    (contours_size h) (bbox_enabled h) (bbox_size h) (output h).

Definition set_mask_enabled (v : bool) (h : Handler) : Handler :=
  mkHandler (movement_detected h) (transition_detected h)
    (next_frame_index h) (next_key_frame h) (key_frame_frequency h)
    (number_of_control_frames h) (psnr_threshold h)
    (most_recent_psnr_score h) (thumbnail_ratio h) (thumbnail_size h)
    (frame_index_with_movement h) (movement_last_detected h) (control h) v
    (mask h) (line_type h) (contours_enabled h) (contours_size h)
    (bbox_enabled h) (bbox_size h) (output h).

Definition set_mask (v : Mat) (h : Handler) : Handler :=
  mkHandler (movement_detected h) (transition_detected h)
    (next_frame_index h) (next_key_frame h) (key_frame_frequency h)
    (number_of_control_frames h) (psnr_threshold h)
    (most_recent_psnr_score h) (thumbnail_ratio h) (thumbnail_size h)
    (frame_index_with_movement h) (movement_last_detected h) (control h)
    (mask_enabled h) v (line_type h) (contours_enabled h) (contours_size h)
    (bbox_enabled h) (bbox_size h) (output h).

Definition set_line_type (v : LineTypes) (h : Handler) : Handler :=
  mkHandler (movement_detected h) (transition_detected h)
    (next_frame_index h) (next_key_frame h) (key_frame_frequency h)
    (number_of_control_frames h) (psnr_threshold h)
    (most_recent_psnr_score h) (thumbnail_ratio h) (thumbnail_size h)
    (frame_index_with_movement h) (movement_last_detected h) (control h)
    (mask_enabled h) (mask h) v (contours_enabled h) (contours_size h)
    (bbox_enabled h) (bbox_size h) (output h).

Definition set_contours_enabled (v : bool) (h : Handler) : Handler :=
  mkHandler (movement_detected h) (transition_detected h)
    (next_frame_index h) (next_key_frame h) (key_frame_frequency h)
    (number_of_control_frames h) (psnr_threshold h)
    (most_recent_psnr_score h) (thumbnail_ratio h) (thumbnail_size h)
    (frame_index_with_movement h) (movement_last_detected h) (control h)
    (mask_enabled h) (mask h) (line_type h) v (contours_size h)
    (bbox_enabled h) (bbox_size h) (output h).

Definition set_contours_size (v : Z) (h : Handler) : Handler :=
  mkHandler (movement_detected h) (transition_detected h)
    (next_frame_index h) (next_key_frame h) (key_frame_frequency h)
    (number_of_control_frames h) (psnr_threshold h)
    (most_recent_psnr_score h) (thumbnail_ratio h) (thumbnail_size h)
    (frame_index_with_movement h) (movement_last_detected h) (control h)
    (mask_enabled h) (mask h) (line_type h) (contours_enabled h) v
    (bbox_enabled h) (bbox_size h) (output h).

Definition set_bbox_enabled (v : bool) (h : Handler) : Handler :=
  mkHandler (movement_detected h) (transition_detected h)
    (next_frame_index h) (next_key_frame h) (key_frame_frequency h)
    (number_of_control_frames h) (psnr_threshold h)
    (most_recent_psnr_score h) (thumbnail_ratio h) (thumbnail_size h)
    (frame_index_with_movement h) (movement_last_detected h) (control h)
    (mask_enabled h) (mask h) (line_type h) (contours_enabled h)
    (contours_size h) v (bbox_size h) (output h).

Definition set_bbox_size (v : Z) (h : Handler) : Handler :=
  mkHandler (movement_detected h) (transition_detected h)
    (next_frame_index h) (next_key_frame h) (key_frame_frequency h)
    (number_of_control_frames h) (psnr_threshold h)
    (most_recent_psnr_score h) (thumbnail_ratio h) (thumbnail_size h)
    (frame_index_with_movement h) (movement_last_detected h) (control h)
    (mask_enabled h) (mask h) (line_type h) (contours_enabled h)
    (contours_size h) (bbox_enabled h) v (output h).

Definition set_output (v : Mat) (h : Handler) : Handler :=
  mkHandler (movement_detected h) (transition_detected h)
    (next_frame_index h) (next_key_frame h) (key_frame_frequency h)
    (number_of_control_frames h) (psnr_threshold h)
    (most_recent_psnr_score h) (thumbnail_ratio h) (thumbnail_size h)
    (frame_index_with_movement h) (movement_last_detected h) (control h)
    (mask_enabled h) (mask h) (line_type h) (contours_enabled h)
    (contours_size h) (bbox_enabled h) (bbox_size h) v.

(** [Handler::clear]: every field back to its default; the object itself
    is returned. *)
Definition clear (h : Handler) : Handler :=
  {| control := [];
     movement_detected := false;
     transition_detected := false;
     next_frame_index := 0;
     next_key_frame := 0;
     key_frame_frequency := 10;
     number_of_control_frames := 4;
     psnr_threshold := 32;
     most_recent_psnr_score := score_zero;
     thumbnail_ratio := 5 # 100;
     thumbnail_size := mkSize 0 0;
     frame_index_with_movement := 0;
     movement_last_detected := 0;
     mask_enabled := false;
     mask := Mat_default;
     line_type := LINE_4;
     contours_enabled := false;
     contours_size := 1;
     bbox_enabled := false;
     bbox_size := 1;
     output := Mat_default |}.

(** [Handler::Handler]: the constructor only calls [clear]; the fields
    hold nothing meaningful before. *)
Definition Handler_new : Handler :=
  clear (mkHandler false false 0 0 0 0 0 score_zero 0 (mkSize 0 0) 0 0 []
                   false Mat_default LINE_4 false 0 false 0 Mat_default).

(** [Handler::empty]. *)
Definition Handler_empty (h : Handler) : bool :=
  match control h with [] => true | _ => false end.

(** [size_t] arithmetic wraps. *)
Definition wrap64 (x : Z) : Z := x mod 2 ^ 64.

(** [std::clamp(v, lo, hi)]. *)
Definition clamp (v lo hi : Q) : Q :=
  if Qlt_le_dec v lo then lo else if Qlt_le_dec hi v then hi else v.

(** [n * r] stored into an [int]: the product, truncated. The product is
    that of the rationals. The code multiplies [double]s, the ratio being
    the [double] nearest to the decimal the caller wrote, and rounds the
    product before it truncates: the same integer as here at the ratios
    0.05, 0.01 and 1.0 on the frame sizes used below, and possibly one off
    where the product is within a rounding error of an integer (the code
    has 28 for [100 * 0.29]). *)
Definition scale_to_int (n : Z) (r : Q) : Z :=
  Z.quot (n * Qnum r) (Zpos (Qden r)).

Section Detect.
Context {cv : OpenCV}.

(** Lines 140-152 of [detect]: the thumbnail size, computed while it is
    unset, and the mask forced on by contours or bounding box. *)
Definition prepare (image : Mat) (h : Handler) : Handler :=
  let h :=
    if area (thumbnail_size h) <=? 1 then
      let h := set_thumbnail_ratio
                 (clamp (thumbnail_ratio h) (1 # 100) 1) h in
      let h := set_thumbnail_size
                 (mkSize (scale_to_int (cols image) (thumbnail_ratio h))
                         (height (thumbnail_size h))) h in
      set_thumbnail_size
        (mkSize (width (thumbnail_size h))
                (scale_to_int (rows image) (thumbnail_ratio h))) h
    else h in
  if contours_enabled h || bbox_enabled h
  then set_mask_enabled true h
  else h.

(** Lines 178-200: the mask, from a control thumbnail and the new one. *)
Definition movement_mask (val thumbnail image : Mat) : result Mat :=
  let differences := absdiff val thumbnail in
  match resize differences (size image) INTER_CUBIC with
  | inl e => inl e
  | inr differences_resized =>
      match cvtColor_BGR2GRAY differences_resized with
      | inl e => inl e
      | inr greyscale =>
          match threshold_otsu greyscale with
          | inl e => inl e
          | inr threshold =>
              let dilated := dilate threshold 10 in
              let eroded := erode dilated 10 in
              inr eroded
          end
      end
  end.

(** Lines 164-205: the loop over the control thumbnails, from the most
    recent one; [it] is what [rbegin()] to [rend()] still has to visit.
    The loop ends at the first score under the threshold. *)
Fixpoint compare_control (now : time_point) (frame_index : Z)
    (image thumbnail : Mat) (it : list (Z * Mat)) (h : Handler)
  : Handler * result unit :=
  match it with
  | [] => (h, inr tt)
  | (_, val) :: it' =>
      match psnr val thumbnail with
      | inl e => (h, inl e)
      | inr sc =>
          let h := set_most_recent_psnr_score sc h in
          if score_lt (most_recent_psnr_score h) (psnr_threshold h) then
            let h := set_movement_detected true h in
            let h := set_movement_last_detected now h in
            let h := set_frame_index_with_movement frame_index h in
            if mask_enabled h then
              match movement_mask val thumbnail image with
              | inl e => (h, inl e)
              | inr eroded => (set_mask eroded h, inr tt)
              end
            else (h, inr tt)
          else compare_control now frame_index image thumbnail it' h
      end
  end.

(** Lines 209-242: the blank mask, and the contours and bounding box
    drawn on a copy of the image. *)
Definition update_mask_and_output (image : Mat) (h : Handler) : Handler :=
  if mask_enabled h then
    let h :=
      if empty (mask h)
         || (transition_detected h && Bool.eqb (movement_detected h) false)
      then set_mask (Mat_zeros (size image) CV_8UC1) h
      else h in
    if contours_enabled h || bbox_enabled h then
      let h := set_output image h in
      let h :=
        if contours_enabled h then
          let contours := findContours (mask h) in
          fold_left
            (fun h contour =>
               set_output (polylines (output h) contour true [0; 0; 255]
                                     (contours_size h) (line_type h)) h)
            contours h
        else h in
      if bbox_enabled h
      then set_output (rectangle (output h) (boundingRect (mask h))
                                 [0; 255; 255] (bbox_size h) (line_type h)) h
      else h
    else h
  else h.

(** Lines 244-254: whether the thumbnail is kept as a key frame. *)
Definition keep_key_frame (frame_index : Z) (thumbnail : Mat) (h : Handler)
  : Handler :=
  if (next_key_frame h <=? frame_index)
     || (map_size (control h) <? number_of_control_frames h)
  then
    let h := set_control (assign frame_index thumbnail (control h)) h in
    let h := set_control (evict (number_of_control_frames h) (control h)) h in
    set_next_key_frame (wrap64 (frame_index + key_frame_frequency h)) h
  else h.

(** [Handler::detect(const size_t frame_index, cv::Mat & image)].
    [now] is what the clock reads during the call. The handler comes back
    as the call left it, also when the call throws. *)
Definition detect (now : time_point) (frame_index : Z) (image : Mat)
    (h : Handler) : Handler * result bool :=
  if empty image
  then (h, inl (invalid_argument "cannot detect using an empty image"))
  else
    let h := prepare image h in
    let scb := image in
    match resize scb (thumbnail_size h) INTER_AREA with
    | inl e => (h, inl e)
    | inr thumbnail =>
        let previous_movement_detected := movement_detected h in
        let h := set_movement_detected false h in
        match compare_control now frame_index image thumbnail
                              (rev (control h)) h with
        | (h, inl e) => (h, inl e)
        | (h, inr _) =>
            let h := set_transition_detected
                       (negb (Bool.eqb previous_movement_detected
                                       (movement_detected h))) h in
            let h := update_mask_and_output image h in
            let h := keep_key_frame frame_index thumbnail h in
            let h := set_next_frame_index (wrap64 (frame_index + 1)) h in
            (h, inr (movement_detected h))
        end
    end.

(** [Handler::detect(cv::Mat & next_image)]. *)
Definition detect_next (now : time_point) (next_image : Mat) (h : Handler)
  : Handler * result bool :=
  detect now (next_frame_index h) next_image h.

(** A stream of calls, each with its clock reading, frame index and
    image: the handler and the outcome after each call. *)
Fixpoint detect_all (calls : list (time_point * Z * Mat)) (h : Handler)
  : list (Handler * result bool) :=
  match calls with
  | [] => []
  | (now, frame_index, image) :: calls' =>
      let r := detect now frame_index image h in
      r :: detect_all calls' (fst r)
  end.

(** ** The parts of a call, for the proofs *)

(** The ratio and the thumbnail size that [prepare] leaves. *)
Definition prepared_ratio (h : Handler) : Q :=
  if area (thumbnail_size h) <=? 1
  then clamp (thumbnail_ratio h) (1 # 100) 1
  else thumbnail_ratio h.

Definition prepared_size (image : Mat) (h : Handler) : Size :=
  if area (thumbnail_size h) <=? 1
  then mkSize (scale_to_int (cols image) (prepared_ratio h))
              (scale_to_int (rows image) (prepared_ratio h))
  else thumbnail_size h.

(** The handler once the whole body has run, from the handler [h2] the
    loop left and the value [previous] of [movement_detected] on entry. *)
Definition complete (frame_index : Z) (image thumbnail : Mat)
    (previous : bool) (h2 : Handler) : Handler :=
  set_next_frame_index (wrap64 (frame_index + 1))
    (keep_key_frame frame_index thumbnail
       (update_mask_and_output image
          (set_transition_detected
             (negb (Bool.eqb previous (movement_detected h2))) h2))).

(** The four ways a call ends: rejected for its empty frame, thrown out
    of the resize, thrown out of the loop, or run to its end. *)
Inductive detect_outcome (now : time_point) (frame_index : Z) (image : Mat)
    (h : Handler) : Handler -> result bool -> Prop :=
| rejected_empty :
    empty image = true ->
    detect_outcome now frame_index image h h
      (inl (invalid_argument "cannot detect using an empty image"))
| failed_resize e :
    empty image = false ->
    resize image (thumbnail_size (prepare image h)) INTER_AREA = inl e ->
    detect_outcome now frame_index image h (prepare image h) (inl e)
| failed_compare thumbnail h2 e :
    empty image = false ->
    resize image (thumbnail_size (prepare image h)) INTER_AREA
    = inr thumbnail ->
    compare_control now frame_index image thumbnail (rev (control h))
                    (set_movement_detected false (prepare image h))
    = (h2, inl e) ->
    detect_outcome now frame_index image h h2 (inl e)
| completed thumbnail h2 u :
    empty image = false ->
    resize image (thumbnail_size (prepare image h)) INTER_AREA
    = inr thumbnail ->
    compare_control now frame_index image thumbnail (rev (control h))
                    (set_movement_detected false (prepare image h))
    = (h2, inr u) ->
    detect_outcome now frame_index image h
      (complete frame_index image thumbnail (movement_detected h) h2)
      (inr (movement_detected h2)).

End Detect.

(** The frame index of a call of a stream. *)
Definition call_index (c : time_point * Z * Mat) : Z := snd (fst c).

(** The image of a call of a stream. *)
Definition call_image (c : time_point * Z * Mat) : Mat := snd c.

(** A matrix of size [s] and type [t]. *)
Definition fits (t : Z) (s : Size) (m : Mat) : Prop :=
  rows m = height s /\ cols m = width s /\ type m = t.

(** The thumbnail size that the default ratio gives for a frame. *)
Definition default_thumbnail_size (image : Mat) : Size :=
  mkSize (scale_to_int (cols image) (5 # 100))
         (scale_to_int (rows image) (5 # 100)).

(** The default settings, with the thumbnail size [S] in place. *)
Definition default_settings (S : Size) (h : Handler) : Prop :=
  mask_enabled h = false
  /\ contours_enabled h = false
  /\ bbox_enabled h = false
  /\ psnr_threshold h = 32%Q
  /\ thumbnail_ratio h = (5 # 100)%Q
  /\ number_of_control_frames h = 4
  /\ key_frame_frequency h = 10
  /\ thumbnail_size h = S.

(** Every control thumbnail has the handler's thumbnail size, and type
    [t]. *)
Definition thumbnails_fit (t : Z) (h : Handler) : Prop :=
  Forall (fun e => fits t (thumbnail_size h) (snd e)) (control h).

(** Along a stream of outcomes, every call returned and left
    [transition_detected] true exactly when its result differs from the
    result before it; [previous] is the result before the first one. *)
Fixpoint transitions_follow (previous : bool)
    (outcomes : list (Handler * result bool)) : Prop :=
  match outcomes with
  | [] => True
  | (h, r) :: outcomes' =>
      exists b, r = inr b
                /\ (transition_detected h = true <-> b <> previous)
                /\ transitions_follow b outcomes'
  end.

(** ** The older generation of the library ([src/MoveDetect.cpp])

    The same [psnr]; a handler without mask, contours or bounding box, a
    thumbnail of fixed width, and a control buffer fed on key frames
    only. *)

Module Legacy.

Record Handler : Type := mkHandler {
  next_frame_index : Z;
  next_key_frame : Z;
  key_frame_frequency : Z;
  psnr_threshold : Q;
  psnr_score : score;
  thumbnail_width : Z;
  frame_index_with_movement : Z;
  number_of_control_frames : Z;
  movement_last_detected : time_point;
  thumbnail_size : Size;
  control : ControlMap;
  calculate_mask : bool;
  mask : Mat
}.

Definition set_next_frame_index (v : Z) (h : Handler) : Handler :=
  mkHandler v (next_key_frame h) (key_frame_frequency h) (psnr_threshold h)
    (psnr_score h) (thumbnail_width h) (frame_index_with_movement h)
    (number_of_control_frames h) (movement_last_detected h)
    (thumbnail_size h) (control h) (calculate_mask h) (mask h).

Definition set_next_key_frame (v : Z) (h : Handler) : Handler :=
  mkHandler (next_frame_index h) v (key_frame_frequency h)
    (psnr_threshold h) (psnr_score h) (thumbnail_width h)
    (frame_index_with_movement h) (number_of_control_frames h)
    (movement_last_detected h) (thumbnail_size h) (control h)
    (calculate_mask h) (mask h).

Definition set_psnr_score (v : score) (h : Handler) : Handler :=
  mkHandler (next_frame_index h) (next_key_frame h) (key_frame_frequency h)
    (psnr_threshold h) v (thumbnail_width h) (frame_index_with_movement h)
    (number_of_control_frames h) (movement_last_detected h)
    (thumbnail_size h) (control h) (calculate_mask h) (mask h).

Definition set_frame_index_with_movement (v : Z) (h : Handler) : Handler :=
  mkHandler (next_frame_index h) (next_key_frame h) (key_frame_frequency h)
    (psnr_threshold h) (psnr_score h) (thumbnail_width h) v
    (number_of_control_frames h) (movement_last_detected h)
    (thumbnail_size h) (control h) (calculate_mask h) (mask h).

Definition set_movement_last_detected (v : time_point) (h : Handler) : Handler :=
  mkHandler (next_frame_index h) (next_key_frame h) (key_frame_frequency h)
    (psnr_threshold h) (psnr_score h) (thumbnail_width h)
    (frame_index_with_movement h) (number_of_control_frames h) v
    (thumbnail_size h) (control h) (calculate_mask h) (mask h).

Definition set_thumbnail_size (v : Size) (h : Handler) : Handler :=
  mkHandler (next_frame_index h) (next_key_frame h) (key_frame_frequency h)
    (psnr_threshold h) (psnr_score h) (thumbnail_width h)
    (frame_index_with_movement h) (number_of_control_frames h)
    (movement_last_detected h) v (control h) (calculate_mask h) (mask h).

Definition set_control (v : ControlMap) (h : Handler) : Handler :=
  mkHandler (next_frame_index h) (next_key_frame h) (key_frame_frequency h)
    (psnr_threshold h) (psnr_score h) (thumbnail_width h)
    (frame_index_with_movement h) (number_of_control_frames h)
    (movement_last_detected h) (thumbnail_size h) v (calculate_mask h)
    (mask h).

(** [Handler::clear]; [calculate_mask] and [mask] are not assigned. *)
Definition clear (h : Handler) : Handler :=
  {| control := [];
     next_frame_index := 0;
     next_key_frame := 0;
     key_frame_frequency := 15;
     frame_index_with_movement := 0;
     psnr_threshold := 32;
     psnr_score := score_zero;
     thumbnail_width := 24;
     thumbnail_size := mkSize 0 0;
     number_of_control_frames := 2;
     movement_last_detected := 0;
     calculate_mask := calculate_mask h;
     mask := mask h |}.

(** [std::round(a / b)] for [0 <= a] and [0 < b], on the exact quotient.
    The code rounds [factor * rows] with [factor] the [double] quotient
    [width / cols]: the same integer unless the exact quotient is within a
    rounding error of a tie. *)
Definition round_div (a b : Z) : Z := (2 * a + b) / (2 * b).

Section Detect.
Context {cv : OpenCV}.

(** Lines 146-159: the loop; it returns the local [movement_detected]. *)
Fixpoint compare_control (now : time_point) (frame_index : Z)
    (thumbnail : Mat) (it : list (Z * Mat)) (h : Handler)
  : Handler * result bool :=
  match it with
  | [] => (h, inr false)
  | (_, val) :: it' =>
      match psnr val thumbnail with
      | inl e => (h, inl e)
      | inr sc =>
          let h := set_psnr_score sc h in
          if score_lt (psnr_score h) (psnr_threshold h) then
            let h := set_movement_last_detected now h in
            let h := set_frame_index_with_movement frame_index h in
            (h, inr true)
          else compare_control now frame_index thumbnail it' h
      end
  end.

(** [Handler::detect(const size_t frame_index, cv::Mat & image)]. *)
Definition detect (now : time_point) (frame_index : Z) (image : Mat)
    (h : Handler) : Handler * result bool :=
  if empty image
  then (h, inl (invalid_argument "cannot detect using an empty image"))
  else
    let h :=
      if area (thumbnail_size h) <=? 1 then
        let h := set_thumbnail_size
                   (mkSize (thumbnail_width h)
                           (height (thumbnail_size h))) h in
        (* factor = width / cols; height = round(factor * rows) *)
        set_thumbnail_size
          (mkSize (width (thumbnail_size h))
                  (round_div (width (thumbnail_size h) * rows image)
                             (cols image))) h
      else h in
    let scb := image in
    match resize scb (thumbnail_size h) INTER_AREA with
    | inl e => (h, inl e)
    | inr thumbnail =>
        match compare_control now frame_index thumbnail
                              (rev (control h)) h with
        | (h, inl e) => (h, inl e)
        | (h, inr movement_detected) =>
            let h :=
              if next_key_frame h <=? frame_index then
                let h := set_control
                           (assign frame_index thumbnail (control h)) h in
                let h := set_control
                           (evict (number_of_control_frames h) (control h))
                           h in
                set_next_key_frame
                  (wrap64 (frame_index + key_frame_frequency h)) h
              else h in
            let h := set_next_frame_index (wrap64 (frame_index + 1)) h in
            (h, inr movement_detected)
        end
    end.

End Detect.

(** [Handler::Handler] calls [clear]. *)
Definition Handler_new : Handler :=
  clear (mkHandler 0 0 0 0 score_zero 0 0 0 0 (mkSize 0 0) [] false
                   Mat_default).

End Legacy.

(** ** A small instance of the filters

    Nearest-sample resizing, channel-mean greyscale, a fixed cut for the
    threshold, and no-op morphology and drawing: enough to run [detect]
    on concrete frames. The theorems below hold for every instance. *)

Module Sample.

Definition pixel_at (src : Mat) (y x c : Z) : Z :=
  nth (Z.to_nat ((y * cols src + x) * channels src + c)) (data src) 0.

Definition upto (n : Z) : list Z := map Z.of_nat (seq 0 (Z.to_nat n)).

Definition nearest (src : Mat) (dsize : Size) : list Z :=
  flat_map (fun y =>
    flat_map (fun x =>
      map (fun c => pixel_at src (y * rows src / height dsize)
                                 (x * cols src / width dsize) c)
          (upto (channels src)))
      (upto (width dsize)))
    (upto (height dsize)).

Definition grey (src : Mat) : list Z :=
  flat_map (fun y =>
    map (fun x => (pixel_at src y x 0 + pixel_at src y x 1
                   + pixel_at src y x 2) / 3)
        (upto (cols src)))
    (upto (rows src)).

#[export] Instance sample_cv : OpenCV := {
  resize_samples := fun src dsize _ => nearest src dsize;
  cvtColor_samples := grey;
  threshold_samples := fun src => map (fun x => if 0 <? x then 255 else 0) (data src);
  dilate_samples := fun src _ => data src;
  erode_samples := fun src _ => data src;
  findContours := fun _ => [];
  polylines := fun m _ _ _ _ _ => m;
  boundingRect := fun _ => mkRect 0 0 0 0;
  rectangle := fun m _ _ _ _ => m
}.

(** A [rows] x [cols] frame of type [CV_8UC3] with every pixel [(b, g, r)]. *)
Definition solid (rows cols b g r : Z) : Mat :=
  mkMat rows cols CV_8UC3
        (flat_map (fun _ => [b; g; r]) (upto (rows * cols))).

End Sample.

(** ** Measures used in the further properties *)

(** The sum of the squared differences of two sample lists. *)
Definition squared_error (a b : list Z) : Z :=
  fold_right Z.add 0 (zip_with (fun x y => (x - y) * (x - y)) a b).

(** An 8-bit sample. *)
Definition is_uchar (x : Z) : Prop := 0 <= x <= 255.

(** Whether the control thumbnail of entry [e] scores under [t] against
    [thumbnail]. *)
Definition under_threshold (thumbnail : Mat) (t : Q) (e : Z * Mat) : bool :=
  match psnr (snd e) thumbnail with
  | inr sc => score_lt sc t
  | inl _ => false
  end.

(** The fields the comparison loop decides: [movement_detected],
    [most_recent_psnr_score], [frame_index_with_movement] and
    [movement_last_detected]. *)
Definition scan_fields (h : Handler) : bool * score * Z * time_point :=
  (movement_detected h, most_recent_psnr_score h,
   frame_index_with_movement h, movement_last_detected h).

(** The comparison loop as a search: the fields after the entries [it]
    have been visited, from the fields [st] before. *)
Fixpoint scan (now : time_point) (frame_index : Z) (thumbnail : Mat)
    (t : Q) (it : list (Z * Mat)) (st : bool * score * Z * time_point)
  : bool * score * Z * time_point :=
  match it with
  | [] => st
  | (_, val) :: it' =>
      match psnr val thumbnail with
      | inl _ => st
      | inr sc =>
          if score_lt sc t then (true, sc, frame_index, now)
          else
            let '(moved, _, index, last) := st in
            scan now frame_index thumbnail t it' (moved, sc, index, last)
      end
  end.

(** What a call decides about movement and about the control buffer;
    the mask, the output and their settings are left out. *)
Definition detection_state (h : Handler) :=
  (control h, next_frame_index h, next_key_frame h, key_frame_frequency h,
   number_of_control_frames h, psnr_threshold h, thumbnail_ratio h,
   thumbnail_size h, transition_detected h, scan_fields h).

Section DetectNext.
Context {cv : OpenCV}.

(** A stream of calls to [detect(next_image)], each with its clock
    reading and image. *)
Fixpoint detect_next_all (calls : list (time_point * Mat)) (h : Handler)
  : list (Handler * result bool) :=
  match calls with
  | [] => []
  | (now, image) :: calls' =>
      let r := detect_next now image h in
      r :: detect_next_all calls' (fst r)
  end.

End DetectNext.

(** The number of calls that returned. *)
Definition successes (outcomes : list (Handler * result bool)) : Z :=
  Z.of_nat (List.length (filter (fun r => succeeded (snd r)) outcomes)).

(** The handler after the last call of a stream that started with [h]. *)
Definition final_handler (h : Handler)
    (outcomes : list (Handler * result bool)) : Handler :=
  fst (last outcomes (h, inr false)).

(** The stored key frames are at least [K] indices apart and at least [K]
    under [bound]. *)
Definition key_frames_spaced (K bound : Z) (m : ControlMap) : Prop :=
  (forall k, In k (keys m) -> k + K <= bound)
  /\ (forall k k', In k (keys m) -> In k' (keys m) -> k < k' -> k + K <= k').

Section LegacyStream.
Context {cv : OpenCV}.

(** A stream of calls to the older [detect]. *)
Fixpoint legacy_detect_all (calls : list (time_point * Z * Mat))
    (h : Legacy.Handler) : list (Legacy.Handler * result bool) :=
  match calls with
  | [] => []
  | (now, frame_index, image) :: calls' =>
      let r := Legacy.detect now frame_index image h in
      r :: legacy_detect_all calls' (fst r)
  end.

End LegacyStream.

(** ** [MoveDetect::simple_colour_balance]

    [float] and [double] values are the rationals they denote.
    [half_percent] is the [float] quotient [1.0f / 200.0f], the nearest
    [float] to 0.005, which is [10737418 / 2^31]; as a [double] it is
    the same number, [1.0 - half_percent] is exact, and the products with
    the pixel count are exact for counts under [2^22]. *)

From Stdlib Require Import Qround.

Definition half_percent : Q := 10737418 # 2147483648.

Definition cvFloor (x : Q) : Z := Qfloor x.
Definition cvCeil (x : Q) : Z := Qceiling x.

(** The two positions read in the sorted row of [n] samples. *)
Definition lo_index (n : Z) : Z :=
  cvFloor (inject_Z n * (0 + half_percent)).
Definition hi_index (n : Z) : Z :=
  cvCeil (inject_Z n * (1 - half_percent)).

(** [cv::split]: the samples of channel [c]; [k] is the channel of the
    head sample. *)
Fixpoint plane (cn c k : Z) (l : list Z) : list Z :=
  match l with
  | [] => []
  | x :: l' =>
      let rest := plane cn c (if k + 1 <? cn then k + 1 else 0) l' in
      if k =? c then x :: rest else rest
  end.

(** [cv::merge] of three planes. *)
Fixpoint merge3 (a b c : list Z) : list Z :=
  match a, b, c with
  | x :: a', y :: b', z :: c' => x :: y :: z :: merge3 a' b' c'
  | _, _, _ => []
  end.

(** [cv::sort] of one row, ascending. *)
Fixpoint insert_sorted (x : Z) (l : list Z) : list Z :=
  match l with
  | [] => [x]
  | y :: l' => if x <=? y then x :: l else y :: insert_sorted x l'
  end.

Definition sort_ascending (l : list Z) : list Z :=
  fold_right insert_sorted [] l.

Section ColourBalance.

(** [cv::normalize(m, m, 0, 255, cv::NORM_MINMAX)] on the samples of a
    plane, and the byte that [flat.at<uchar>(i)] reads when [i] is past
    the row of the plane of channel [idx]: both are OpenCV's and the
    memory's, not the repository's. Samples are 8-bit, as [at<uchar>]
    reads them, and [at] does not check its index (OpenCV checks it in
    debug builds only). *)
Variable normalize_minmax : list Z -> list Z.
Variable stray : Z -> Z.

(** The body of the loop for the plane [p] of channel [idx], of [n]
    samples. *)
Definition balance_plane (idx n : Z) (p : list Z) : list Z :=
  let flat := sort_ascending p in
  let lo := nth (Z.to_nat (lo_index n)) flat (stray idx) in
  let hi := nth (Z.to_nat (hi_index n)) flat (stray idx) in
  let p := map (fun x => if x <? lo then lo else x) p in
  let p := map (fun x => if x >? hi then hi else x) p in
  normalize_minmax p.

Definition simple_colour_balance (src : Mat) : result Mat :=
  if empty src || negb (channels src =? 3)
  then inl (invalid_argument "cannot colour balance the given image")
  else
    let tmpsplit idx := plane 3 idx 0 (data src) in
    (* flat.cols: one row of rows * cols samples *)
    let n := total src in
    inr (mkMat (rows src) (cols src) (type src)
               (merge3 (balance_plane 0 n (tmpsplit 0))
                       (balance_plane 1 n (tmpsplit 1))
                       (balance_plane 2 n (tmpsplit 2)))).

End ColourBalance.

(** * Properties *)

(** Reduce the fields of an updated handler. *)
Ltac fields :=
  cbn [
    movement_detected transition_detected next_frame_index next_key_frame
    key_frame_frequency number_of_control_frames psnr_threshold
    most_recent_psnr_score thumbnail_ratio thumbnail_size
    frame_index_with_movement movement_last_detected control mask_enabled
    mask line_type contours_enabled contours_size bbox_enabled bbox_size
    output
    set_movement_detected set_transition_detected set_next_frame_index
    set_next_key_frame set_key_frame_frequency set_number_of_control_frames
    set_psnr_threshold set_most_recent_psnr_score set_thumbnail_ratio
    set_thumbnail_size set_frame_index_with_movement
    set_movement_last_detected set_control set_mask_enabled set_mask
    set_line_type set_contours_enabled set_contours_size set_bbox_enabled
    set_bbox_size set_output
  ] in *.

(** ** The score as a real number *)

Section ScoreAsReal.
Local Open Scope R_scope.


Lemma ln_10_pos : 0 < ln 10.
Proof. rewrite <- ln_1. apply ln_increasing; lra. Qed.





End ScoreAsReal.

Ltac split_ifs :=
  repeat match goal with
         | |- context [if ?b then _ else _] => destruct b
         end.

(** ** Footprints: which fields each part of [detect] assigns *)

Section Footprints.
Context {cv : OpenCV}.

Lemma prepare_footprint (image : Mat) (h : Handler) :
  prepare image h
  = set_mask_enabled
      (mask_enabled h || contours_enabled h || bbox_enabled h)
      (set_thumbnail_size (prepared_size image h)
         (set_thumbnail_ratio (prepared_ratio h) h)).
Proof.
  unfold prepare, prepared_size, prepared_ratio.
  destruct (area (thumbnail_size h) <=? 1); fields.
  - destruct (contours_enabled h), (bbox_enabled h), (mask_enabled h) eqn:E;
      cbn [orb]; try reflexivity; destruct h; cbn in E; subst; reflexivity.
  - destruct (contours_enabled h), (bbox_enabled h), (mask_enabled h) eqn:E;
      cbn [orb]; destruct h; cbn in E; subst; reflexivity.
Qed.

Lemma compare_control_footprint now frame_index image thumbnail it :
  forall h,
  exists sc md t fi mk,
    fst (compare_control now frame_index image thumbnail it h)
    = set_mask mk
        (set_frame_index_with_movement fi
           (set_movement_last_detected t
              (set_movement_detected md
                 (set_most_recent_psnr_score sc h)))).
Proof.
  induction it as [|[k val] it IH]; intros h.
  - exists (most_recent_psnr_score h), (movement_detected h),
      (movement_last_detected h), (frame_index_with_movement h), (mask h).
    destruct h. reflexivity.
  - cbn [compare_control].
    destruct (psnr val thumbnail) as [e|sc].
    + exists (most_recent_psnr_score h), (movement_detected h),
        (movement_last_detected h), (frame_index_with_movement h), (mask h).
      destruct h. reflexivity.
    + destruct (score_lt _ _).
      * destruct (mask_enabled _).
        -- destruct (movement_mask val thumbnail image) as [e|eroded].
           ++ exists sc, true, now, frame_index, (mask h).
              destruct h. reflexivity.
           ++ exists sc, true, now, frame_index, eroded. reflexivity.
        -- exists sc, true, now, frame_index, (mask h).
           destruct h. reflexivity.
      * destruct (IH (set_most_recent_psnr_score sc h))
          as (sc' & md & t & fi & mk & E).
        rewrite E. exists sc', md, t, fi, mk. destruct h. reflexivity.
Qed.

Lemma compare_control_result now frame_index image thumbnail it h h2 r :
  compare_control now frame_index image thumbnail it h = (h2, r) ->
  exists sc md t fi mk,
    h2 = set_mask mk
           (set_frame_index_with_movement fi
              (set_movement_last_detected t
                 (set_movement_detected md
                    (set_most_recent_psnr_score sc h)))).
Proof.
  intros E.
  destruct (compare_control_footprint now frame_index image thumbnail it h)
    as (sc & md & t & fi & mk & F).
  rewrite E in F. cbn [fst] in F. now exists sc, md, t, fi, mk.
Qed.

Lemma draw_contours_footprint (contours : list Contour) :
  forall h,
  exists o,
    fold_left
      (fun h contour =>
         set_output (polylines (output h) contour true [0; 0; 255]
                               (contours_size h) (line_type h)) h)
      contours h
    = set_output o h.
Proof.
  induction contours as [|c contours IH]; intros h.
  - exists (output h). destruct h. reflexivity.
  - cbn [fold_left]. destruct (IH (set_output
        (polylines (output h) c true [0; 0; 255] (contours_size h)
                   (line_type h)) h)) as (o & E).
    rewrite E. exists o. destruct h. reflexivity.
Qed.

Lemma update_mask_and_output_footprint image h :
  exists o,
    update_mask_and_output image h
    = set_output o
        (set_mask
           (if mask_enabled h
               && (empty (mask h)
                   || (transition_detected h
                       && Bool.eqb (movement_detected h) false))
            then Mat_zeros (size image) CV_8UC1
            else mask h) h).
Proof.
  unfold update_mask_and_output.
  destruct (mask_enabled h); cbn [andb].
  2:{ exists (output h). destruct h. reflexivity. }
  set (reset := empty (mask h) || _).
  set (mk := if reset then Mat_zeros (size image) CV_8UC1 else mask h).
  assert (Hm : (if reset
                then set_mask (Mat_zeros (size image) CV_8UC1) h
                else h) = set_mask mk h).
  { subst mk. destruct reset; [reflexivity|destruct h; reflexivity]. }
  rewrite Hm.
  destruct (contours_enabled (set_mask mk h) || bbox_enabled (set_mask mk h)).
  2:{ exists (output h). destruct h. reflexivity. }
  set (h1 := set_output image (set_mask mk h)).
  assert (Hc : exists o, (if contours_enabled h1
                          then fold_left
                                 (fun h contour =>
                                    set_output
                                      (polylines (output h) contour true
                                                 [0; 0; 255] (contours_size h)
                                                 (line_type h)) h)
                                 (findContours (mask h1)) h1
                          else h1) = set_output o (set_mask mk h)).
  { destruct (contours_enabled h1).
    - destruct (draw_contours_footprint (findContours (mask h1)) h1) as (o & E).
      rewrite E. exists o. subst h1. destruct h. reflexivity.
    - exists image. reflexivity. }
  destruct Hc as (o & ->).
  destruct (bbox_enabled _).
  - eexists. destruct h. reflexivity.
  - exists o. reflexivity.
Qed.

Lemma keep_key_frame_footprint frame_index thumbnail h :
  exists c nk,
    keep_key_frame frame_index thumbnail h
    = set_next_key_frame nk (set_control c h)
    /\ (c = control h
        \/ c = evict (number_of_control_frames h)
                     (assign frame_index thumbnail (control h))).
Proof.
  unfold keep_key_frame.
  destruct ((next_key_frame h <=? frame_index) || _).
  - do 2 eexists. split; [reflexivity|]. right. reflexivity.
  - exists (control h), (next_key_frame h).
    split; [destruct h; reflexivity|now left].
Qed.

Lemma complete_footprint frame_index image thumbnail previous h2 :
  exists c nk o mk,
    complete frame_index image thumbnail previous h2
    = set_next_frame_index (wrap64 (frame_index + 1))
        (set_next_key_frame nk
           (set_control c
              (set_output o
                 (set_mask mk
                    (set_transition_detected
                       (negb (Bool.eqb previous (movement_detected h2)))
                       h2))))).
Proof.
  unfold complete.
  destruct (keep_key_frame_footprint frame_index thumbnail
              (update_mask_and_output image
                 (set_transition_detected
                    (negb (Bool.eqb previous (movement_detected h2))) h2)))
    as (c & nk & -> & _).
  destruct (update_mask_and_output_footprint image
              (set_transition_detected
                 (negb (Bool.eqb previous (movement_detected h2))) h2))
    as (o & ->).
  now do 4 eexists.
Qed.

End Footprints.

(** ** The four ways a call to [detect] ends *)

Section Outcomes.
Context {cv : OpenCV}.

Lemma prepare_control image h : control (prepare image h) = control h.
Proof. rewrite prepare_footprint. reflexivity. Qed.

Lemma prepare_movement_detected image h :
  movement_detected (prepare image h) = movement_detected h.
Proof. rewrite prepare_footprint. reflexivity. Qed.

Lemma complete_movement_detected frame_index image thumbnail previous h2 :
  movement_detected (complete frame_index image thumbnail previous h2)
  = movement_detected h2.
Proof.
  destruct (complete_footprint frame_index image thumbnail previous h2)
    as (c & nk & o & mk & ->).
  reflexivity.
Qed.

Lemma detect_cases now frame_index image h :
  detect_outcome now frame_index image h
    (fst (detect now frame_index image h))
    (snd (detect now frame_index image h)).
Proof.
  unfold detect.
  destruct (empty image) eqn:He; [now constructor|].
  destruct (resize image _ INTER_AREA) as [e|thumbnail] eqn:Hr;
    [now constructor|].
  change (control (set_movement_detected false (prepare image h)))
    with (control (prepare image h)).
  rewrite prepare_control, prepare_movement_detected.
  destruct (compare_control _ _ _ _ _ _) as [h2 [e|u]] eqn:Hc; cbn [fst snd].
  - eapply failed_compare; eassumption.
  - fold (complete frame_index image thumbnail (movement_detected h) h2).
    rewrite complete_movement_detected.
    eapply completed; eassumption.
Qed.

Lemma detect_inv now frame_index image h h' r :
  detect now frame_index image h = (h', r) ->
  detect_outcome now frame_index image h h' r.
Proof.
  intros E. pose proof (detect_cases now frame_index image h) as H.
  rewrite E in H. exact H.
Qed.

End Outcomes.

(** ** What the filters throw *)

Section FilterErrors.
Context {cv : OpenCV}.

Lemma resize_inv src dsize i m :
  resize src dsize i = inr m ->
  0 < width dsize /\ 0 < height dsize
  /\ rows m = height dsize /\ cols m = width dsize /\ type m = type src.
Proof.
  unfold resize. destruct (size_empty (size src)); [discriminate|].
  unfold size_empty.
  destruct (width dsize <=? 0) eqn:Hw; [discriminate|].
  destruct (height dsize <=? 0) eqn:Hh; [discriminate|].
  cbn [orb]. intros [= <-]. cbn [rows cols type].
  apply Z.leb_gt in Hw, Hh. repeat split; assumption.
Qed.

Lemma resize_source src dsize i m :
  resize src dsize i = inr m -> 0 < rows src /\ 0 < cols src.
Proof.
  unfold resize, size_empty, size. cbn [width height].
  destruct (cols src <=? 0) eqn:Hc; [discriminate|].
  destruct (rows src <=? 0) eqn:Hr; [discriminate|].
  intros _. apply Z.leb_gt in Hc, Hr. split; assumption.
Qed.

Lemma resize_error src dsize i e :
  resize src dsize i = inl e -> exists what, e = cv_Exception what.
Proof.
  unfold resize. split_ifs; intros [= <-]; eauto.
Qed.

Lemma movement_mask_error val thumbnail image e :
  movement_mask val thumbnail image = inl e ->
  exists what, e = cv_Exception what.
Proof.
  unfold movement_mask.
  destruct (resize _ _ _) as [e1|m1] eqn:E1.
  - intros [= <-]. eapply resize_error. exact E1.
  - unfold cvtColor_BGR2GRAY.
    destruct ((channels m1 =? 3) || (channels m1 =? 4));
      [|intros [= <-]; eauto].
    unfold threshold_otsu. cbn [type].
    destruct (CV_MAKETYPE (depth m1) 1 =? CV_8UC1);
      [discriminate|intros [= <-]; eauto].
Qed.

End FilterErrors.

(** ** The similarity metric on identical frames *)

Lemma absdiff_self (l : list Z) :
  Forall (fun x => x = 0) (zip_with (fun x y => Z.abs (x - y)) l l).
Proof.
  induction l as [|x l IH]; cbn [zip_with]; constructor.
  - now rewrite Z.sub_diag.
  - exact IH.
Qed.

Lemma mul_zeros (l : list Z) :
  Forall (fun x => x = 0) l ->
  Forall (fun x => x = 0) (zip_with Z.mul l l).
Proof.
  induction 1 as [|x l Hx _ IH]; cbn [zip_with]; constructor.
  - subst x. reflexivity.
  - exact IH.
Qed.

Lemma channel_sum_zeros (cn c : Z) (l : list Z) :
  Forall (fun x => x = 0) l -> forall k, channel_sum cn c k l = 0.
Proof.
  induction 1 as [|x l Hx _ IH]; intros k; cbn [channel_sum].
  - reflexivity.
  - rewrite IH. subst x. now destruct (k =? c).
Qed.

Lemma psnr_self (m : Mat) : empty m = false -> psnr m m = inr score_zero.
Proof.
  intros He. unfold psnr. rewrite He. cbn [orb].
  rewrite !Z.eqb_refl. cbn [negb orb].
  assert (Hz : forall c,
             channel_sum
               (channels (mul (convertTo_32F (absdiff m m))
                              (convertTo_32F (absdiff m m)))) c 0
               (data (mul (convertTo_32F (absdiff m m))
                          (convertTo_32F (absdiff m m)))) = 0).
  { intros c. apply channel_sum_zeros. cbn [data mul convertTo_32F absdiff].
    apply mul_zeros, absdiff_self. }
  unfold sum, val. cbn [map nth]. rewrite !Hz. reflexivity.
Qed.

(** C1 (code at the failing input). For every non-empty frame, [psnr] of
    the frame with itself is the literal [0.0]; [0.0] is below the default
    threshold [32.0], and below every positive threshold, so it is the
    value [detect] reads as movement, not the metric's ceiling. *)
Theorem psnr_identical_frames_score_zero (m : Mat) :
  empty m = false ->
  psnr m m = inr score_zero
  /\ score_lt score_zero (psnr_threshold Handler_new) = true
  /\ (forall t : Q, (0 < t)%Q -> score_lt score_zero t = true).
Proof.
  intros He. split; [now apply psnr_self|]. split; [reflexivity|].
  intros t Ht. unfold score_lt. apply Z.ltb_lt.
  unfold Qlt in Ht. cbn in Ht. lia.
Qed.

(** ** What a call leaves alone *)

Section Frames.
Context {cv : OpenCV}.

(** The settings a caller chooses and [detect] only reads. *)
Lemma detect_settings now frame_index image h :
  let h' := fst (detect now frame_index image h) in
  key_frame_frequency h' = key_frame_frequency h
  /\ number_of_control_frames h' = number_of_control_frames h
  /\ psnr_threshold h' = psnr_threshold h
  /\ contours_enabled h' = contours_enabled h
  /\ bbox_enabled h' = bbox_enabled h.
Proof.
  cbn zeta.
  destruct (detect_cases now frame_index image h)
    as [He|e He Hr|thumbnail h2 e He Hr Hc|thumbnail h2 u He Hr Hc].
  - repeat split.
  - rewrite prepare_footprint.
    repeat split.
  - apply compare_control_result in Hc.
    destruct Hc as (sc & md & t & fi & mk & ->).
    rewrite prepare_footprint.
    repeat split.
  - apply compare_control_result in Hc.
    destruct Hc as (sc & md & t & fi & mk & ->).
    destruct (complete_footprint frame_index image thumbnail
                (movement_detected h)
                (set_mask mk
                   (set_frame_index_with_movement fi
                      (set_movement_last_detected t
                         (set_movement_detected md
                            (set_most_recent_psnr_score sc
                               (set_movement_detected false
                                  (prepare image h))))))))
      as (c & nk & o & mk' & ->).
    rewrite prepare_footprint.
    repeat split.
Qed.

(** [mask_enabled] after a call, whatever its outcome. *)
Lemma detect_mask_enabled now frame_index image h :
  mask_enabled (fst (detect now frame_index image h))
  = if empty image then mask_enabled h
    else mask_enabled h || contours_enabled h || bbox_enabled h.
Proof.
  assert (Hp : mask_enabled (prepare image h)
               = mask_enabled h || contours_enabled h || bbox_enabled h)
    by (rewrite prepare_footprint; reflexivity).
  destruct (detect_cases now frame_index image h)
    as [He|e He Hr|thumbnail h2 e He Hr Hc|thumbnail h2 u He Hr Hc];
    rewrite He.
  - reflexivity.
  - exact Hp.
  - apply compare_control_result in Hc.
    destruct Hc as (sc & md & t & fi & mk & ->). exact Hp.
  - apply compare_control_result in Hc.
    destruct Hc as (sc & md & t & fi & mk & ->).
    destruct (complete_footprint frame_index image thumbnail
                (movement_detected h)
                (set_mask mk
                   (set_frame_index_with_movement fi
                      (set_movement_last_detected t
                         (set_movement_detected md
                            (set_most_recent_psnr_score sc
                               (set_movement_detected false
                                  (prepare image h))))))))
      as (c & nk & o & mk' & ->).
    exact Hp.
Qed.

(** What a call that throws leaves as it was. *)
Lemma detect_failure_keeps now frame_index image h h' e :
  detect now frame_index image h = (h', inl e) ->
  control h' = control h
  /\ next_frame_index h' = next_frame_index h
  /\ next_key_frame h' = next_key_frame h
  /\ transition_detected h' = transition_detected h
  /\ mask h' = mask h
  /\ output h' = output h.
Proof.
  intros E. apply detect_inv in E.
  inversion E as [He|e' He Hr|thumbnail h2 e' He Hr Hc|]; subst.
  - repeat split.
  - rewrite prepare_footprint.
    repeat split.
  - assert (Hk : forall it g g2,
               compare_control now frame_index image thumbnail it g
               = (g2, inl e) -> mask g2 = mask g).
    { induction it as [|[k val] it IH]; intros g g2; cbn [compare_control].
      - discriminate.
      - destruct (psnr val thumbnail) as [e1|sc].
        + now intros [= <- _].
        + destruct (score_lt _ _).
          * destruct (mask_enabled _).
            -- destruct (movement_mask val thumbnail image).
               ++ now intros [= <- _].
               ++ discriminate.
            -- discriminate.
          * intros Hg. now apply IH in Hg. }
    pose proof (Hk _ _ _ Hc) as Hmask.
    apply compare_control_result in Hc.
    destruct Hc as (sc & md & t & fi & mk & ->).
    rewrite prepare_footprint in *. repeat split. exact Hmask.
Qed.

End Frames.

(** ** Failed calls *)

Section Failures.
Context {cv : OpenCV}.

Lemma compare_control_invalid_keeps now frame_index image thumbnail it :
  forall g g2 what,
    compare_control now frame_index image thumbnail it g
    = (g2, inl (invalid_argument what)) ->
    frame_index_with_movement g2 = frame_index_with_movement g
    /\ movement_last_detected g2 = movement_last_detected g.
Proof.
  induction it as [|[k val] it IH]; intros g g2 what;
    cbn [compare_control].
  - discriminate.
  - destruct (psnr val thumbnail) as [e1|sc].
    + intros [= <- _]. split; reflexivity.
    + destruct (score_lt _ _).
      * destruct (mask_enabled _); [|discriminate].
        destruct (movement_mask val thumbnail image) as [e1|m] eqn:Em;
          [|discriminate].
        apply movement_mask_error in Em. destruct Em as (w & ->).
        discriminate.
      * intros Hg. apply IH in Hg. exact Hg.
Qed.

(** C3 (amended). A call rejected for its empty frame leaves the whole
    handler as it was. A call that throws later, in the resize or in a
    comparison, leaves the control buffer, [next_frame_index],
    [next_key_frame], [transition_detected], the mask, the output and the
    caller's settings as they were, and when what it throws is an
    invalid-argument error also [frame_index_with_movement] and
    [movement_last_detected]; nothing is said of [thumbnail_ratio],
    [thumbnail_size], [mask_enabled], [movement_detected] and the score. *)
Theorem failed_detect_keeps_buffer_and_counters now frame_index image h h' e :
  detect now frame_index image h = (h', inl e) ->
  (empty image = true -> h' = h)
  /\ control h' = control h
  /\ next_frame_index h' = next_frame_index h
  /\ next_key_frame h' = next_key_frame h
  /\ transition_detected h' = transition_detected h
  /\ mask h' = mask h
  /\ output h' = output h
  /\ key_frame_frequency h' = key_frame_frequency h
  /\ number_of_control_frames h' = number_of_control_frames h
  /\ psnr_threshold h' = psnr_threshold h
  /\ ((exists what, e = invalid_argument what) ->
      frame_index_with_movement h' = frame_index_with_movement h
      /\ movement_last_detected h' = movement_last_detected h).
Proof.
  intros E.
  pose proof (detect_failure_keeps _ _ _ _ E) as (Hc & Hf & Hk & Ht & Hm & Ho).
  pose proof (detect_settings now frame_index image h) as (Sk & Sn & Sp & _).
  rewrite E in Sk, Sn, Sp. cbn [fst] in Sk, Sn, Sp.
  split.
  { intros He. unfold detect in E. rewrite He in E. now inversion E. }
  do 9 (split; [assumption|]).
  intros (what & ->). apply detect_inv in E.
  inversion E as [He|e' He Hr|thumbnail h2 e' He Hr Hc2|]; subst.
  - split; reflexivity.
  - apply resize_error in Hr. destruct Hr as (w & Hr). discriminate.
  - apply compare_control_invalid_keeps in Hc2.
    rewrite prepare_footprint in Hc2. exact Hc2.
Qed.

End Failures.

(** C3 (counterexample). A black frame, a white frame, then a frame of
    another channel type: the third call throws from the comparison, and
    [movement_detected], true before the call, is false after it. *)
Lemma failed_detect_mutates_movement_detected :
  let detect := detect (cv := Sample.sample_cv) in
  let black := Sample.solid 40 40 0 0 0 in
  let white := Sample.solid 40 40 255 255 255 in
  let grey := mkMat 40 40 CV_8UC1 (repeat 0 1600) in
  let h2 := fst (detect 2 1 white (fst (detect 1 0 black Handler_new))) in
  snd (detect 3 2 grey h2)
  = inl (invalid_argument "src and dst images cannot be compared")
  /\ movement_detected h2 = true
  /\ movement_detected (fst (detect 3 2 grey h2)) = false.
Proof.
  vm_compute. repeat split.
Qed.

Lemma failed_detect_keeps_buffer_and_counters_witness :
  let detect := detect (cv := Sample.sample_cv) in
  let black := Sample.solid 40 40 0 0 0 in
  let white := Sample.solid 40 40 255 255 255 in
  let grey := mkMat 40 40 CV_8UC1 (repeat 0 1600) in
  let h2 := fst (detect 2 1 white (fst (detect 1 0 black Handler_new))) in
  let h3 := fst (detect 3 2 grey h2) in
  control h3 = control h2
  /\ next_frame_index h3 = next_frame_index h2
  /\ next_key_frame h3 = next_key_frame h2
  /\ transition_detected h3 = transition_detected h2.
Proof.
  intros detect' black white grey h2 h3.
  assert (E : detect' 3 2 grey h2
              = (h3, inl (invalid_argument
                            "src and dst images cannot be compared")))
    by (vm_compute; reflexivity).
  clearbody h3 h2 grey. unfold detect' in E. clear detect'.
  destruct (failed_detect_keeps_buffer_and_counters
              (cv := Sample.sample_cv) _ _ _ _ E)
    as (_ & Hc & Hf & Hk & Ht & _).
  exact (conj Hc (conj Hf (conj Hk Ht))).
Defined.

(** ** The movement flag and its transitions *)

Section Transitions.
Context {cv : OpenCV}.

Lemma detect_completed_flags now frame_index image h h' b :
  detect now frame_index image h = (h', inr b) ->
  movement_detected h' = b
  /\ transition_detected h' = negb (Bool.eqb (movement_detected h) b).
Proof.
  intros E. apply detect_inv in E.
  inversion E as [| | |thumbnail h2 u He Hr Hc]; subst.
  destruct (complete_footprint frame_index image thumbnail
              (movement_detected h) h2) as (c & nk & o & mk & ->).
  split; reflexivity.
Qed.

Lemma transitions_follow_movement_detected
    (calls : list (time_point * Z * Mat)) :
  forall h0,
    Forall (fun r => succeeded (snd r) = true) (detect_all calls h0) ->
    transitions_follow (movement_detected h0) (detect_all calls h0).
Proof.
  induction calls as [|[[now frame_index] image] calls IH];
    intros h0 Hall; cbn [detect_all transitions_follow].
  - exact I.
  - cbn [detect_all] in Hall. inversion Hall as [|r rs Hr Hrs]; subst.
    destruct (detect now frame_index image h0) as [h1 [e|b]] eqn:E;
      cbn [fst snd succeeded] in *; [discriminate|].
    destruct (detect_completed_flags _ _ _ _ E) as (Hm & Ht).
    exists b. split; [reflexivity|]. split.
    + rewrite Ht. destruct (movement_detected h0), b; cbn;
        split; congruence.
    + rewrite <- Hm. apply IH. exact Hrs.
Qed.

(** C6. From a handler in its initial no-movement state, along calls that
    all return, [transition_detected] is true after a call exactly when the
    call's result differs from the result of the call before; the first
    call is compared with "no movement", so a first call that returns
    false leaves [transition_detected] false. *)
Theorem transition_detected_iff_result_changed
    (calls : list (time_point * Z * Mat)) (h0 : Handler) :
  movement_detected h0 = false ->
  Forall (fun r => succeeded (snd r) = true) (detect_all calls h0) ->
  transitions_follow false (detect_all calls h0)
  /\ (forall now frame_index image h1,
         detect now frame_index image h0 = (h1, inr false) ->
         transition_detected h1 = false).
Proof.
  intros H0 Hall. split.
  - rewrite <- H0. now apply transitions_follow_movement_detected.
  - intros now frame_index image h1 E.
    destruct (detect_completed_flags _ _ _ _ E) as (_ & ->).
    now rewrite H0.
Qed.

(** C7. When a call returns "no movement" after a call that had returned
    "movement", with the mask enabled (directly, or through contours or
    bounding box), the mask it leaves is the blank single-channel image of
    the input frame's size: one sample for each of the [rows * cols]
    pixels of the frame, every one zero. *)
Theorem mask_blank_when_movement_ends now frame_index image h h' :
  detect now frame_index image h = (h', inr false) ->
  movement_detected h = true ->
  mask_enabled h || contours_enabled h || bbox_enabled h = true ->
  mask h' = Mat_zeros (size image) CV_8UC1
  /\ rows (mask h') = rows image
  /\ cols (mask h') = cols image
  /\ type (mask h') = CV_8UC1
  /\ channels (mask h') = 1
  /\ Forall (fun x => x = 0) (data (mask h'))
  /\ 0 < rows image /\ 0 < cols image
  /\ Z.of_nat (List.length (data (mask h'))) = rows image * cols image
  /\ data (mask h') = repeat 0 (Z.to_nat (rows image * cols image)).
Proof.
  intros E Hprev Hen.
  assert (Hpos : 0 < rows image /\ 0 < cols image).
  { pose proof E as E'. apply detect_inv in E'.
    inversion E' as [| | |thumbnail h2 u He Hr Hc Hh' Hb].
    apply resize_source in Hr. exact Hr. }
  assert (Hmask : mask h' = Mat_zeros (size image) CV_8UC1).
  { pose proof (detect_mask_enabled now frame_index image h) as Hme.
    rewrite E in Hme. cbn [fst] in Hme.
    apply detect_inv in E.
    inversion E as [| | |thumbnail h2 u He Hr Hc Hh' Hb]; subst.
    rewrite He, Hen in Hme.
    unfold complete in *.
    destruct (keep_key_frame_footprint frame_index thumbnail
                (update_mask_and_output image
                   (set_transition_detected
                      (negb (Bool.eqb (movement_detected h)
                                      (movement_detected h2))) h2)))
      as (c & nk & Hk & _).
    rewrite Hk in *.
    destruct (update_mask_and_output_footprint image
                (set_transition_detected
                   (negb (Bool.eqb (movement_detected h)
                                   (movement_detected h2))) h2))
      as (o & Hu).
    rewrite Hu in *. rewrite Hprev, Hb in *.
    fields. rewrite Hme. rewrite Hb.
    now rewrite Bool.orb_true_r. }
  assert (Hdata : data (Mat_zeros (size image) CV_8UC1)
                  = repeat 0 (Z.to_nat (rows image * cols image))).
  { cbn [data Mat_zeros size height width].
    change (Z.shiftr CV_8UC1 3 + 1) with 1. now rewrite Z.mul_1_r. }
  rewrite Hmask.
  split; [reflexivity|]. split; [reflexivity|]. split; [reflexivity|].
  split; [reflexivity|]. split; [reflexivity|].
  split.
  { rewrite Hdata. apply Forall_forall. intros x Hx.
    now apply repeat_spec in Hx. }
  split; [exact (proj1 Hpos)|]. split; [exact (proj2 Hpos)|].
  split; [|exact Hdata].
  rewrite Hdata, repeat_length, Z2Nat.id by nia. reflexivity.
Qed.

(** C9 (amended). A call on a non-empty frame with contours or bounding
    box enabled leaves [mask_enabled] true; from then on [mask_enabled]
    stays true through every later call, whatever its outcome, also once
    the caller has switched contours and bounding box off again; [clear]
    is what sets it back to false. *)
Theorem mask_enabled_forced_and_kept now frame_index image h
    (calls : list (time_point * Z * Mat)) :
  empty image = false ->
  contours_enabled h || bbox_enabled h = true ->
  let h1 := fst (detect now frame_index image h) in
  let h2 := set_contours_enabled false (set_bbox_enabled false h1) in
  mask_enabled h1 = true
  /\ mask_enabled h2 = true
  /\ Forall (fun r => mask_enabled (fst r) = true) (detect_all calls h2)
  /\ mask_enabled (clear h2) = false.
Proof.
  intros He Hen. cbn zeta.
  assert (H1 : mask_enabled (fst (detect now frame_index image h)) = true).
  { rewrite detect_mask_enabled, He.
    destruct (mask_enabled h); [reflexivity|exact Hen]. }
  repeat split; try exact H1.
  set (h2 := set_contours_enabled false _).
  assert (H2 : mask_enabled h2 = true) by exact H1.
  clearbody h2. clear H1 He Hen. revert h2 H2.
  induction calls as [|[[now' frame_index'] image'] calls IH]; intros h2 H2;
    cbn [detect_all].
  - constructor.
  - assert (H3 : mask_enabled (fst (detect now' frame_index' image' h2))
                 = true).
    { rewrite detect_mask_enabled, H2. now destruct (empty image'). }
    constructor; [exact H3|]. apply IH. exact H3.
Qed.

End Transitions.

(** C9 (counterexample). A call on an empty frame with the bounding box
    enabled: the call is rejected by the empty-frame check, before the line
    that forces the mask, and [mask_enabled] is still false after it. *)
Lemma mask_enabled_not_forced_by_rejected_call :
  let h := set_bbox_enabled true Handler_new in
  let r := detect (cv := Sample.sample_cv) 1 0 Mat_default h in
  contours_enabled h || bbox_enabled h = true
  /\ mask_enabled h = false
  /\ snd r = inl (invalid_argument "cannot detect using an empty image")
  /\ mask_enabled (fst r) = false.
Proof.
  vm_compute. repeat split.
Qed.

(** ** The control buffer *)

Lemma map_size_cons (e : Z * Mat) (m : ControlMap) :
  map_size (e :: m) = map_size m + 1.
Proof. unfold map_size. cbn [List.length]. lia. Qed.

Lemma map_size_nonneg (m : ControlMap) : 0 <= map_size m.
Proof. unfold map_size. lia. Qed.

Lemma map_size_app (a b : ControlMap) :
  map_size (a ++ b) = map_size a + map_size b.
Proof. unfold map_size. rewrite length_app. lia. Qed.

Lemma keys_assign k v m k' :
  In k' (keys (assign k v m)) <-> k' = k \/ In k' (keys m).
Proof.
  induction m as [|[k0 v0] m IH]; cbn [assign].
  - cbn. intuition congruence.
  - destruct (k <? k0) eqn:Hlt; [cbn; intuition congruence|].
    destruct (k =? k0) eqn:Heq.
    + apply Z.eqb_eq in Heq. subst k0. cbn. intuition congruence.
    + cbn [keys map In fst] in *. fold (keys (assign k v m)) (keys m) in *.
      rewrite IH. intuition congruence.
Qed.

(** [control[k] = v] keeps the keys in strictly increasing order. *)
Lemma assign_sorted k v m :
  StronglySorted Z.lt (keys m) -> StronglySorted Z.lt (keys (assign k v m)).
Proof.
  induction m as [|[k0 v0] m IH]; intros Hs; cbn [assign].
  - cbn. repeat constructor.
  - cbn [keys map fst] in Hs. fold (keys m) in Hs.
    apply StronglySorted_inv in Hs. destruct Hs as (Hs & Hall).
    destruct (k <? k0) eqn:Hlt.
    + apply Z.ltb_lt in Hlt. cbn [keys map fst]. fold (keys m).
      constructor.
      * constructor; assumption.
      * constructor; [assumption|].
        eapply Forall_impl; [|exact Hall]. cbn. intros; lia.
    + destruct (k =? k0) eqn:Heq.
      * apply Z.eqb_eq in Heq. subst k0. cbn [keys map fst]. fold (keys m).
        constructor; assumption.
      * apply Z.ltb_ge in Hlt. apply Z.eqb_neq in Heq.
        cbn [keys map fst]. fold (keys (assign k v m)).
        constructor; [now apply IH|].
        apply Forall_forall. intros k' Hk'. apply keys_assign in Hk'.
        destruct Hk' as [->|Hk']; [lia|].
        rewrite Forall_forall in Hall. now apply Hall.
Qed.

(** A key above all the others goes to the end, and the map grows. *)
Lemma assign_above k v m :
  (forall k', In k' (keys m) -> k' < k) -> assign k v m = m ++ [(k, v)].
Proof.
  induction m as [|[k0 v0] m IH]; intros Hk; cbn [assign app].
  - reflexivity.
  - assert (H0 : k0 < k) by (apply Hk; cbn; now left).
    destruct (k <? k0) eqn:Hlt; [apply Z.ltb_lt in Hlt; lia|].
    destruct (k =? k0) eqn:Heq; [apply Z.eqb_eq in Heq; lia|].
    rewrite IH; [reflexivity|].
    intros k' Hk'. apply Hk. cbn. now right.
Qed.

(** The eviction loop removes a prefix: the entries of smallest keys. *)
Lemma evict_prefix n m : exists evicted, m = evicted ++ evict n m.
Proof.
  induction m as [|e m IH]; cbn [evict].
  - now exists [].
  - destruct (map_size (e :: m) >? n).
    + destruct IH as (evicted & E). exists (e :: evicted).
      cbn [app]. now rewrite <- E.
    + now exists [].
Qed.

Lemma evict_size n m :
  0 <= n -> map_size (evict n m) = Z.min (map_size m) n.
Proof.
  intros Hn. induction m as [|e m IH]; cbn [evict].
  - unfold map_size. cbn. lia.
  - destruct (map_size (e :: m) >? n) eqn:Hgt.
    + rewrite IH. rewrite map_size_cons in *.
      apply Z.gtb_lt in Hgt. lia.
    + assert (Hle : map_size (e :: m) <= n).
      { rewrite Z.gtb_ltb in Hgt. apply Z.ltb_ge in Hgt. exact Hgt. }
      lia.
Qed.

Lemma evict_fits n m : map_size m <= n -> evict n m = m.
Proof.
  intros Hle. destruct m as [|e m]; cbn [evict]; [reflexivity|].
  destruct (map_size (e :: m) >? n) eqn:Hgt; [|reflexivity].
  apply Z.gtb_lt in Hgt. lia.
Qed.

Lemma sorted_keys_app (a b : ControlMap) :
  StronglySorted Z.lt (keys (a ++ b)) ->
  StronglySorted Z.lt (keys b)
  /\ (forall k k', In k (keys a) -> In k' (keys b) -> k < k').
Proof.
  induction a as [|[k0 v0] a IH]; cbn [app]; intros Hs.
  - split; [exact Hs|]. intros k k' [].
  - cbn [keys map fst] in Hs. fold (keys (a ++ b)) in Hs.
    apply StronglySorted_inv in Hs. destruct Hs as (Hs & Hall).
    destruct (IH Hs) as (Hb & Hlt). split; [exact Hb|].
    intros k k' [<-|Hk] Hk'.
    + rewrite Forall_forall in Hall. apply Hall.
      unfold keys. rewrite map_app. apply in_or_app. now right.
    + now apply Hlt.
Qed.

Section ControlBuffer.
Context {cv : OpenCV}.

(** What a call that returns has done to the buffer and the counters. *)
Lemma detect_completed_control now frame_index image h h' b :
  detect now frame_index image h = (h', inr b) ->
  exists thumbnail,
    resize image (thumbnail_size (prepare image h)) INTER_AREA
    = inr thumbnail
    /\ control h'
       = (if (next_key_frame h <=? frame_index)
             || (map_size (control h) <? number_of_control_frames h)
          then evict (number_of_control_frames h)
                     (assign frame_index thumbnail (control h))
          else control h)
    /\ next_key_frame h'
       = (if (next_key_frame h <=? frame_index)
             || (map_size (control h) <? number_of_control_frames h)
          then wrap64 (frame_index + key_frame_frequency h)
          else next_key_frame h)
    /\ next_frame_index h' = wrap64 (frame_index + 1).
Proof.
  intros E. apply detect_inv in E.
  inversion E as [| | |thumbnail h2 u He Hr Hc]; subst.
  exists thumbnail. split; [exact Hr|].
  apply compare_control_result in Hc.
  destruct Hc as (sc & md & t & fi & mk & ->).
  unfold complete, keep_key_frame.
  destruct (update_mask_and_output_footprint image
              (set_transition_detected
                 (negb (Bool.eqb (movement_detected h)
                    (movement_detected
                       (set_mask mk
                          (set_frame_index_with_movement fi
                             (set_movement_last_detected t
                                (set_movement_detected md
                                   (set_most_recent_psnr_score sc
                                      (set_movement_detected false
                                         (prepare image h))))))))))
                 (set_mask mk
                    (set_frame_index_with_movement fi
                       (set_movement_last_detected t
                          (set_movement_detected md
                             (set_most_recent_psnr_score sc
                                (set_movement_detected false
                                   (prepare image h)))))))))
    as (o & ->).
  rewrite prepare_footprint. fields.
  destruct ((next_key_frame h <=? frame_index)
            || (map_size (control h) <? number_of_control_frames h));
    fields; repeat split.
Qed.

(** C5. On every call that returns and admits its thumbnail (the key-frame
    index is reached, or the buffer is under capacity), the buffer ends no
    larger than the capacity: it is the map after insertion minus a prefix,
    the entries of smallest keys, every removed key below every kept one;
    nothing is removed when the insertion stays within capacity, and when it
    goes past capacity the size ends equal to the capacity. On any call, a
    buffer within capacity stays within capacity. *)
Theorem control_buffer_bounded_smallest_evicted
    now frame_index image h h' b :
  StronglySorted Z.lt (keys (control h)) ->
  0 <= number_of_control_frames h ->
  detect now frame_index image h = (h', inr b) ->
  ((next_key_frame h <=? frame_index)
   || (map_size (control h) <? number_of_control_frames h) = true ->
   exists thumbnail evicted,
     assign frame_index thumbnail (control h) = evicted ++ control h'
     /\ map_size (control h') <= number_of_control_frames h'
     /\ (map_size (assign frame_index thumbnail (control h))
         <= number_of_control_frames h' -> evicted = [])
     /\ (number_of_control_frames h'
         < map_size (assign frame_index thumbnail (control h)) ->
         map_size (control h') = number_of_control_frames h')
     /\ (forall k k',
            In k (keys evicted) -> In k' (keys (control h')) -> k < k')
     /\ StronglySorted Z.lt (keys (control h')))
  /\ (map_size (control h) <= number_of_control_frames h ->
      map_size (control h') <= number_of_control_frames h').
Proof.
  intros Hs Hn E.
  pose proof (detect_settings now frame_index image h) as (_ & Hcap & _).
  rewrite E in Hcap. cbn [fst] in Hcap.
  destruct (detect_completed_control _ _ _ _ E)
    as (thumbnail & _ & Hc & _).
  rewrite Hcap. split.
  - intros Hadm. rewrite Hadm in Hc.
    set (ins := assign frame_index thumbnail (control h)) in *.
    destruct (evict_prefix (number_of_control_frames h) ins)
      as (evicted & Hev).
    rewrite <- Hc in Hev.
    assert (Hsize : map_size (control h')
                    = Z.min (map_size ins) (number_of_control_frames h))
      by (rewrite Hc; now apply evict_size).
    assert (Hsi : StronglySorted Z.lt (keys ins))
      by (now apply assign_sorted).
    rewrite Hev in Hsi. apply sorted_keys_app in Hsi.
    destruct Hsi as (Hsk & Hlt).
    exists thumbnail, evicted.
    fold ins.
    split; [exact Hev|]. split; [lia|]. split; [|split; [lia|now split]].
    intros Hle. rewrite Hc, evict_fits in Hev by exact Hle.
    destruct evicted as [|e evicted]; [reflexivity|].
    apply (f_equal (@List.length _)) in Hev.
    cbn [List.length app] in Hev. rewrite length_app in Hev. lia.
  - intros Hle.
    destruct ((next_key_frame h <=? frame_index)
              || (map_size (control h) <? number_of_control_frames h)).
    + rewrite Hc, evict_size by exact Hn. lia.
    + now rewrite Hc.
Qed.

Lemma evict_keys n m k : In k (keys (evict n m)) -> In k (keys m).
Proof.
  destruct (evict_prefix n m) as (evicted & E). intros Hk.
  rewrite E. unfold keys. rewrite map_app. apply in_or_app. now right.
Qed.



End ControlBuffer.

(** The older generation has no bootstrap: a call under the key-frame
    index leaves the buffer as it is, full or not. *)
Lemma legacy_detect_key_frames_only {cv : OpenCV}
    now frame_index image (h : Legacy.Handler) :
  frame_index < Legacy.next_key_frame h ->
  Legacy.control (fst (Legacy.detect now frame_index image h))
  = Legacy.control h.
Proof.
  intros Hlt. unfold Legacy.detect.
  destruct (empty image); [reflexivity|].
  set (h1 := if area (Legacy.thumbnail_size h) <=? 1 then _ else h).
  assert (H1 : Legacy.control h1 = Legacy.control h
               /\ Legacy.next_key_frame h1 = Legacy.next_key_frame h).
  { subst h1. destruct (_ <=? 1); split; reflexivity. }
  destruct H1 as (Hc1 & Hk1). clearbody h1.
  destruct (resize image (Legacy.thumbnail_size h1) INTER_AREA)
    as [e|thumbnail]; [exact Hc1|].
  assert (Hloop : forall it g,
             Legacy.control
               (fst (Legacy.compare_control now frame_index thumbnail it g))
             = Legacy.control g
             /\ Legacy.next_key_frame
                  (fst (Legacy.compare_control now frame_index thumbnail
                                               it g))
                = Legacy.next_key_frame g).
  { induction it as [|[k val] it IH]; intros g; cbn [Legacy.compare_control].
    - split; reflexivity.
    - destruct (psnr val thumbnail) as [e|sc]; [split; reflexivity|].
      destruct (score_lt _ _); [split; reflexivity|].
      destruct (IH (Legacy.set_psnr_score sc g)) as (-> & ->).
      split; reflexivity. }
  destruct (Hloop (rev (Legacy.control h1)) h1) as (Hc2 & Hk2).
  destruct (Legacy.compare_control now frame_index thumbnail
              (rev (Legacy.control h1)) h1) as [h2 [e|b]];
    cbn [fst] in *; [congruence|].
  assert (Hno : (Legacy.next_key_frame h2 <=? frame_index) = false)
    by (apply Z.leb_gt; congruence).
  rewrite Hno. cbn. congruence.
Qed.

Lemma legacy_no_bootstrap :
  let frame := Sample.solid 48 48 10 20 30 in
  let h1 := fst (Legacy.detect (cv := Sample.sample_cv) 1 0 frame
                               Legacy.Handler_new) in
  let h2 := fst (Legacy.detect (cv := Sample.sample_cv) 2 1 frame h1) in
  Legacy.number_of_control_frames h2 = 2
  /\ map_size (Legacy.control h1) = 1
  /\ map_size (Legacy.control h2) = 1.
Proof. vm_compute. repeat split. Qed.

(** ** Comparisons never meet a mismatch once the size is cached *)

Section NoMismatch.
Context {cv : OpenCV}.

Lemma prepared_size_cached image h :
  1 < area (thumbnail_size h) -> prepared_size image h = thumbnail_size h.
Proof.
  intros Ha. unfold prepared_size.
  destruct (area (thumbnail_size h) <=? 1) eqn:E; [|reflexivity].
  apply Z.leb_le in E. lia.
Qed.

Lemma prepare_thumbnail_size image h :
  thumbnail_size (prepare image h) = prepared_size image h.
Proof. rewrite prepare_footprint. reflexivity. Qed.

Lemma prepare_thumbnail_ratio image h :
  thumbnail_ratio (prepare image h) = prepared_ratio h.
Proof. rewrite prepare_footprint. reflexivity. Qed.

(** The thumbnail size and ratio after a call on a non-empty frame,
    whatever the outcome. *)
Lemma detect_thumbnail_size now frame_index image h :
  empty image = false ->
  thumbnail_size (fst (detect now frame_index image h))
  = prepared_size image h
  /\ thumbnail_ratio (fst (detect now frame_index image h))
     = prepared_ratio h.
Proof.
  intros Hne.
  destruct (detect_cases now frame_index image h)
    as [He|e He Hr|thumbnail h2 e He Hr Hc|thumbnail h2 u He Hr Hc].
  - congruence.
  - now rewrite prepare_thumbnail_size, prepare_thumbnail_ratio.
  - apply compare_control_result in Hc.
    destruct Hc as (sc & md & t & fi & mk & ->). fields.
    now rewrite prepare_thumbnail_size, prepare_thumbnail_ratio.
  - apply compare_control_result in Hc.
    destruct Hc as (sc & md & t & fi & mk & ->).
    destruct (complete_footprint frame_index image thumbnail
                (movement_detected h)
                (set_mask mk
                   (set_frame_index_with_movement fi
                      (set_movement_last_detected t
                         (set_movement_detected md
                            (set_most_recent_psnr_score sc
                               (set_movement_detected false
                                  (prepare image h))))))))
      as (c & nk & o & mk' & ->).
    fields. now rewrite prepare_thumbnail_size, prepare_thumbnail_ratio.
Qed.

(** Two matrices of one positive size and one type can be compared. *)
Lemma psnr_returns t s val thumbnail :
  0 < width s -> 0 < height s ->
  fits t s val -> fits t s thumbnail ->
  exists sc, psnr val thumbnail = inr sc.
Proof.
  intros Hw Hh (Hr1 & Hc1 & Ht1) (Hr2 & Hc2 & Ht2).
  unfold psnr, empty, total.
  rewrite Hr1, Hc1, Hr2, Hc2, Ht1, Ht2, !Z.eqb_refl.
  assert (Hz : (height s * width s =? 0) = false) by (apply Z.eqb_neq; nia).
  rewrite Hz. cbn [orb negb].
  destruct (_ <=? 0); eauto.
Qed.

Lemma compare_control_error t s now frame_index image thumbnail it :
  0 < width s -> 0 < height s ->
  fits t s thumbnail ->
  Forall (fun e => fits t s (snd e)) it ->
  forall h h2 e,
    compare_control now frame_index image thumbnail it h = (h2, inl e) ->
    exists what, e = cv_Exception what.
Proof.
  intros Hw Hh Hth Hit. induction Hit as [|[k val] it Hval _ IH];
    intros h h2 e; cbn [compare_control].
  - discriminate.
  - cbn [snd] in Hval.
    destruct (psnr_returns Hw Hh Hval Hth) as (sc & ->).
    destruct (score_lt _ _); [|apply IH].
    destruct (mask_enabled _); [|discriminate].
    destruct (movement_mask val thumbnail image) as [e1|m] eqn:Em;
      [|discriminate].
    intros [= _ <-]. eapply movement_mask_error. exact Em.
Qed.

Lemma Forall_assign (P : Mat -> Prop) k v m :
  P v -> Forall (fun e => P (snd e)) m ->
  Forall (fun e => P (snd e)) (assign k v m).
Proof.
  intros Hv. induction 1 as [|[k0 v0] m H0 Hm IH]; cbn [assign].
  - now repeat constructor.
  - destruct (k <? k0); [now repeat constructor|].
    destruct (k =? k0); now constructor.
Qed.

Lemma Forall_evict (P : Z * Mat -> Prop) n m :
  Forall P m -> Forall P (evict n m).
Proof.
  destruct (evict_prefix n m) as (evicted & E). intros H.
  rewrite E in H. apply Forall_app in H. apply H.
Qed.

(** One call: no invalid-argument error, and the invariant is kept. *)
Lemma detect_step_fits t now frame_index image h :
  empty image = false ->
  type image = t ->
  thumbnails_fit t h ->
  control h = [] \/ 1 < area (thumbnail_size h) ->
  1 < area (prepared_size image h) ->
  is_invalid_argument (snd (detect now frame_index image h)) = false
  /\ thumbnail_size (fst (detect now frame_index image h))
     = prepared_size image h
  /\ thumbnails_fit t (fst (detect now frame_index image h)).
Proof.
  intros Hne Ht Hfit Hcached Harea.
  assert (Hfit' : Forall (fun e => fits t (prepared_size image h) (snd e))
                         (control h)).
  { destruct Hcached as [->|Hc]; [constructor|].
    now rewrite prepared_size_cached. }
  destruct (@detect_thumbnail_size now frame_index image h Hne) as (Hts & _).
  split; [|split; [exact Hts|]].
  - destruct (detect_cases now frame_index image h)
      as [He|e He Hr|thumbnail h2 e He Hr Hc|thumbnail h2 u He Hr Hc].
    + congruence.
    + apply resize_error in Hr. destruct Hr as (what & ->). reflexivity.
    + rewrite prepare_thumbnail_size in Hr.
      destruct (resize_inv _ _ _ Hr) as (Hw & Hh & Hr1 & Hc1 & Ht1).
      assert (Hthumb : fits t (prepared_size image h) thumbnail)
        by (repeat split; congruence).
      destruct (@compare_control_error t (prepared_size image h) now
                  frame_index image thumbnail (rev (control h)) Hw Hh
                  Hthumb (Forall_rev Hfit') _ _ _ Hc) as (what & ->).
      reflexivity.
    + reflexivity.
  - unfold thumbnails_fit. rewrite Hts.
    destruct (detect now frame_index image h) as [h' [e|b]] eqn:E;
      cbn [fst].
    + destruct (detect_failure_keeps _ _ _ _ E) as (-> & _). exact Hfit'.
    + destruct (detect_completed_control _ _ _ _ E)
        as (thumbnail & Hr & -> & _).
      rewrite prepare_thumbnail_size in Hr.
      destruct (resize_inv _ _ _ Hr) as (Hw & Hh & Hr1 & Hc1 & Ht1).
      destruct (_ || _); [|exact Hfit'].
      apply Forall_evict.
      apply (Forall_assign (fits t (prepared_size image h))); [|exact Hfit'].
      repeat split; congruence.
Qed.

Lemma detect_all_fits t S (calls : list (time_point * Z * Mat)) :
  1 < area S ->
  Forall (fun c => empty (call_image c) = false /\ type (call_image c) = t)
         calls ->
  forall h,
    thumbnails_fit t h ->
    thumbnail_size h = S ->
    Forall (fun r => is_invalid_argument (snd r) = false
                     /\ thumbnail_size (fst r) = S)
           (detect_all calls h).
Proof.
  intros HS. induction 1 as [|[[now frame_index] image] calls (Hne & Ht) _ IH];
    intros h Hfit Hsize; cbn [detect_all].
  - constructor.
  - cbn [call_image snd] in Hne, Ht.
    assert (Hp : prepared_size image h = S)
      by (rewrite prepared_size_cached; congruence).
    destruct (@detect_step_fits t now frame_index image h Hne Ht Hfit)
      as (Hok & Hts & Hfit1).
    + right. congruence.
    + congruence.
    + constructor.
      * split; congruence.
      * apply IH; congruence.
Qed.

(** C10 (amended). From an empty buffer, along calls on non-empty frames of
    one channel type, of any widths and heights: when the thumbnail size
    computed at the first call has an area above 1, no call throws an
    invalid-argument error, so the comparison never meets a width, height
    or type mismatch, and the thumbnail size stays the one of the first
    call. *)
Theorem detect_never_mismatch_once_size_cached
    (t : Z) now frame_index image
    (calls : list (time_point * Z * Mat)) (h0 : Handler) :
  control h0 = [] ->
  1 < area (prepared_size image h0) ->
  Forall (fun c => empty (call_image c) = false /\ type (call_image c) = t)
         ((now, frame_index, image) :: calls) ->
  Forall (fun r => is_invalid_argument (snd r) = false
                   /\ thumbnail_size (fst r) = prepared_size image h0)
         (detect_all ((now, frame_index, image) :: calls) h0).
Proof.
  intros Hempty Harea Hcalls.
  inversion Hcalls as [|c cs (Hne & Ht) Hrest]; subst c cs.
  cbn [call_image snd] in Hne, Ht. cbn [detect_all].
  assert (Hfit0 : thumbnails_fit t h0)
    by (unfold thumbnails_fit; rewrite Hempty; constructor).
  destruct (@detect_step_fits t now frame_index image h0 Hne Ht Hfit0
              (or_introl Hempty) Harea) as (Hok & Hts & Hfit1).
  constructor; [now split|].
  now apply (@detect_all_fits t (prepared_size image h0)).
Qed.

End NoMismatch.

(** ** Settings out of range *)

Lemma clamp_range (v : Q) :
  (1 # 100 <= clamp v (1 # 100) 1)%Q /\ (clamp v (1 # 100) 1 <= 1)%Q.
Proof.
  unfold clamp.
  destruct (Qlt_le_dec v (1 # 100)) as [Hlo|Hlo].
  - split; [apply Qle_refl|]. unfold Qle. cbn. lia.
  - destruct (Qlt_le_dec 1 v) as [Hhi|Hhi].
    + split; [|apply Qle_refl]. unfold Qle. cbn. lia.
    + split; assumption.
Qed.

Lemma evict_zero (m : ControlMap) : evict 0 m = [].
Proof.
  induction m as [|e m IH]; cbn [evict]; [reflexivity|].
  rewrite map_size_cons.
  pose proof (map_size_nonneg m) as Hm.
  destruct (map_size m + 1 >? 0) eqn:E; [exact IH|].
  rewrite Z.gtb_ltb in E. apply Z.ltb_ge in E. lia.
Qed.

Section Settings.
Context {cv : OpenCV}.

(** A call on a non-empty frame with nothing to compare with: it returns
    false, unless the thumbnail size has a zero side and the resize
    throws. *)
Lemma detect_from_empty_buffer now frame_index image h :
  0 < rows image ->
  0 < cols image ->
  control h = [] ->
  (size_empty (prepared_size image h) = false ->
   snd (detect now frame_index image h) = inr false)
  /\ (size_empty (prepared_size image h) = true ->
      snd (detect now frame_index image h)
      = inl (cv_Exception "inv_scale_x > 0")).
Proof.
  intros Hrows Hcols Hempty.
  assert (Hsrc : size_empty (size image) = false).
  { unfold size_empty, size. cbn [width height].
    apply Bool.orb_false_iff. split; apply Z.leb_gt; assumption. }
  destruct (detect_cases now frame_index image h)
    as [He|e He Hr|thumbnail h2 e He Hr Hc|thumbnail h2 u He Hr Hc].
  - unfold empty, total in He. apply Z.eqb_eq in He. nia.
  - rewrite prepare_thumbnail_size in Hr. unfold resize in Hr.
    rewrite Hsrc in Hr.
    destruct (size_empty (prepared_size image h)); [|discriminate].
    injection Hr as <-. split; [discriminate|reflexivity].
  - rewrite Hempty in Hc. cbn in Hc. discriminate.
  - rewrite Hempty in Hc. cbn [rev compare_control] in Hc.
    injection Hc as <- _.
    rewrite prepare_thumbnail_size in Hr. unfold resize in Hr.
    rewrite Hsrc in Hr.
    destruct (size_empty (prepared_size image h)); [discriminate|].
    split; [reflexivity|discriminate].
Qed.

(** C8 (amended). No value of the thumbnail ratio or of the capacity is
    rejected. On a non-empty frame, while the thumbnail size is unset, the
    ratio is first clamped into [0.01, 1.0] and the thumbnail size is then
    computed from the clamped ratio (once the size is set, the ratio is no
    longer read); the capacity is left as it is. From an empty buffer the
    call throws no invalid-argument error: it returns false when the
    thumbnail size has at least one pixel each way, the resize throws when
    its width or height is zero, and with a capacity of zero the buffer is
    empty after the call. *)
Theorem settings_out_of_range_not_rejected now frame_index image h :
  0 < rows image ->
  0 < cols image ->
  let r := clamp (thumbnail_ratio h) (1 # 100) 1 in
  let s := mkSize (scale_to_int (cols image) r)
                  (scale_to_int (rows image) r) in
  let h' := fst (detect now frame_index image h) in
  ((1 # 100 <= r)%Q /\ (r <= 1)%Q)
  /\ number_of_control_frames h' = number_of_control_frames h
  /\ (area (thumbnail_size h) <= 1 ->
      thumbnail_ratio h' = r /\ thumbnail_size h' = s)
  /\ (1 < area (thumbnail_size h) ->
      thumbnail_ratio h' = thumbnail_ratio h
      /\ thumbnail_size h' = thumbnail_size h)
  /\ (control h = [] ->
      (number_of_control_frames h = 0 -> control h' = [])
      /\ is_invalid_argument (snd (detect now frame_index image h)) = false
      /\ (size_empty (thumbnail_size h') = false ->
          snd (detect now frame_index image h) = inr false)
      /\ (size_empty (thumbnail_size h') = true ->
          snd (detect now frame_index image h)
          = inl (cv_Exception "inv_scale_x > 0"))).
Proof.
  intros Hrows Hcols r s h'.
  assert (Hne : empty image = false)
    by (unfold empty, total; apply Z.eqb_neq; nia).
  destruct (@detect_thumbnail_size _ now frame_index image h Hne)
    as (Hts & Htr).
  fold h' in Hts, Htr.
  pose proof (detect_settings now frame_index image h) as (_ & Hcap & _).
  split; [apply clamp_range|].
  split; [exact Hcap|].
  split; [|split].
  - intros Hunset. rewrite Hts, Htr. unfold prepared_size, prepared_ratio.
    destruct (area (thumbnail_size h) <=? 1) eqn:E;
      [split; reflexivity|].
    apply Z.leb_gt in E. lia.
  - intros Hset. rewrite Hts, Htr. unfold prepared_size, prepared_ratio.
    destruct (area (thumbnail_size h) <=? 1) eqn:E;
      [|split; reflexivity].
    apply Z.leb_le in E. lia.
  - intros Hempty.
    pose proof (@detect_from_empty_buffer now frame_index image h
                  Hrows Hcols Hempty) as Hout.
    rewrite <- Hts in Hout.
    split; [|split; [|exact Hout]].
    + intros Hzero. subst h'.
      destruct (detect now frame_index image h) as [h1 [e|b]] eqn:E;
        cbn [fst].
      * destruct (detect_failure_keeps _ _ _ _ E) as (-> & _). exact Hempty.
      * destruct (detect_completed_control _ _ _ _ E)
          as (thumbnail & _ & -> & _).
        rewrite Hzero, Hempty.
        destruct (_ || _); [apply evict_zero|reflexivity].
    + destruct Hout as (Hok & Hfail).
      destruct (size_empty (thumbnail_size h')).
      * now rewrite Hfail.
      * now rewrite Hok.
Qed.

End Settings.

(** C8 (counterexample). With a ratio of 0, outside the range, a 50x50
    frame gets a thumbnail size of 0x0 from the clamped ratio 0.01 and the
    call throws. With a capacity of 0 the call on a 40x40 frame returns,
    the capacity is still 0 after it and the buffer is empty: the capacity
    is not brought to any other value. *)
Lemma detect_fails_on_clamped_ratio_and_keeps_zero_capacity :
  let detect := detect (cv := Sample.sample_cv) in
  let small := Sample.solid 50 50 1 2 3 in
  let frame := Sample.solid 40 40 1 2 3 in
  let r := detect 1 0 frame (set_number_of_control_frames 0 Handler_new) in
  empty small = false
  /\ snd (detect 1 0 small (set_thumbnail_ratio 0 Handler_new))
     = inl (cv_Exception "inv_scale_x > 0")
  /\ snd r = inr false
  /\ number_of_control_frames (fst r) = 0
  /\ control (fst r) = [].
Proof.
  vm_compute. repeat split.
Qed.

Lemma settings_out_of_range_not_rejected_witness :
  let frame := Sample.solid 40 40 1 2 3 in
  let h := set_number_of_control_frames 0
             (set_thumbnail_ratio 7 Handler_new) in
  let h' := fst (detect (cv := Sample.sample_cv) 1 0 frame h) in
  thumbnail_ratio h' = 1%Q
  /\ thumbnail_size h' = mkSize 40 40
  /\ number_of_control_frames h' = 0
  /\ control h' = []
  /\ snd (detect (cv := Sample.sample_cv) 1 0 frame h) = inr false.
Proof.
  intros frame h h'.
  destruct (@settings_out_of_range_not_rejected Sample.sample_cv
              1 0 frame h)
    as (_ & Hc & Hunset & _ & Hfresh).
  - reflexivity.
  - reflexivity.
  - destruct Hunset as (Hr & Hs); [vm_compute; discriminate|].
    destruct (Hfresh eq_refl) as (Hz & _ & Hok & _).
    split; [exact Hr|]. split; [exact Hs|]. split; [exact Hc|].
    split; [apply Hz; reflexivity|apply Hok; reflexivity].
Defined.

(** ** Identical frames *)

Section IdenticalFrames.
Context {cv : OpenCV}.

Lemma prepared_size_default image S h :
  default_settings S h ->
  area S <= 1 \/ S = default_thumbnail_size image ->
  prepared_size image h = default_thumbnail_size image.
Proof.
  intros (_ & _ & _ & _ & Hr & _ & _ & Hs) HS.
  unfold prepared_size, prepared_ratio. rewrite Hr, Hs.
  destruct (area S <=? 1) eqn:E; [reflexivity|].
  apply Z.leb_gt in E. destruct HS as [HS|HS]; [lia|exact HS].
Qed.

Lemma default_settings_kept now frame_index image S h :
  empty image = false ->
  default_settings S h ->
  area S <= 1 \/ S = default_thumbnail_size image ->
  default_settings (default_thumbnail_size image)
                   (fst (detect now frame_index image h)).
Proof.
  intros Hne Hd HS.
  pose proof (@prepared_size_default image S h Hd HS) as Hp.
  destruct Hd as (Hm & Hc & Hb & Ht & Hr & Hn & Hk & Hs).
  pose proof (detect_settings now frame_index image h)
    as (Sk & Sn & Sp & Sc & Sb).
  destruct (@detect_thumbnail_size _ now frame_index image h Hne)
    as (Hts & Htr).
  pose proof (detect_mask_enabled now frame_index image h) as Hme.
  rewrite Hne, Hm, Hc, Hb in Hme.
  unfold default_settings.
  rewrite Hme, Sc, Sb, Sp, Htr, Sn, Sk, Hts.
  repeat split; try assumption.
  unfold prepared_ratio. rewrite Hr. now destruct (_ <=? 1).
Qed.

(** With the default settings, a frame whose thumbnail is the most recent
    control thumbnail is reported as movement. *)
Lemma detect_same_frame now frame_index image S h T k rest :
  empty image = false ->
  default_settings S h ->
  area S <= 1 \/ S = default_thumbnail_size image ->
  resize image (default_thumbnail_size image) INTER_AREA = inr T ->
  control h = rest ++ [(k, T)] ->
  snd (detect now frame_index image h) = inr true.
Proof.
  intros Hne Hd HS HT Hctl.
  pose proof (@prepared_size_default image S h Hd HS) as Hp.
  destruct Hd as (Hm & Hc & Hb & Ht & _).
  destruct (resize_inv _ _ _ HT) as (Hw & Hh & Hr1 & Hc1 & _).
  assert (HTne : empty T = false).
  { unfold empty, total. rewrite Hr1, Hc1. apply Z.eqb_neq. nia. }
  assert (Hloop : forall g,
             mask_enabled g = false -> psnr_threshold g = 32%Q ->
             exists g2,
               compare_control now frame_index image T
                               (rev (control h)) g = (g2, inr tt)
               /\ movement_detected g2 = true).
  { intros g Hg Hgt. rewrite Hctl, rev_app_distr. cbn [rev app].
    cbn [compare_control]. rewrite (psnr_self T HTne). fields.
    rewrite Hgt. cbn [score_lt Qnum]. cbn [Z.ltb Z.compare].
    rewrite Hg. eexists. split; reflexivity. }
  destruct (detect_cases now frame_index image h)
    as [He|e He Hr|thumbnail h2 e He Hr Hc2|thumbnail h2 u He Hr Hc2].
  - congruence.
  - rewrite prepare_thumbnail_size, Hp in Hr. congruence.
  - rewrite prepare_thumbnail_size, Hp, HT in Hr. injection Hr as <-.
    destruct (Hloop (set_movement_detected false (prepare image h)))
      as (g2 & Hg2 & _).
    + fields. rewrite prepare_footprint. fields. now rewrite Hm, Hc, Hb.
    + fields. rewrite prepare_footprint. exact Ht.
    + congruence.
  - rewrite prepare_thumbnail_size, Hp, HT in Hr. injection Hr as <-.
    destruct (Hloop (set_movement_detected false (prepare image h)))
      as (g2 & Hg2 & Hmv).
    + fields. rewrite prepare_footprint. fields. now rewrite Hm, Hc, Hb.
    + fields. rewrite prepare_footprint. exact Ht.
    + rewrite Hc2 in Hg2. injection Hg2 as -> _. now rewrite Hmv.
Qed.

(** One more call on the same frame: the result, the settings and the
    buffer after it. *)
Lemma same_frame_step now frame_index image S h T k rest :
  empty image = false ->
  default_settings S h ->
  area S <= 1 \/ S = default_thumbnail_size image ->
  resize image (default_thumbnail_size image) INTER_AREA = inr T ->
  control h = rest ++ [(k, T)] ->
  exists h',
    detect now frame_index image h = (h', inr true)
    /\ default_settings (default_thumbnail_size image) h'
    /\ control h'
       = (if (next_key_frame h <=? frame_index)
             || (map_size (control h) <? 4)
          then evict 4 (assign frame_index T (control h))
          else control h)
    /\ next_key_frame h'
       = (if (next_key_frame h <=? frame_index)
             || (map_size (control h) <? 4)
          then wrap64 (frame_index + 10)
          else next_key_frame h).
Proof.
  intros Hne Hd HS HT Hctl.
  pose proof (@detect_same_frame now frame_index image S h T k rest
                Hne Hd HS HT Hctl) as Hres.
  pose proof (@default_settings_kept now frame_index image S h Hne Hd HS)
    as Hkept.
  pose proof (@prepared_size_default image S h Hd HS) as Hp.
  destruct Hd as (_ & _ & _ & _ & _ & Hn & Hk & _).
  destruct (detect now frame_index image h) as [h' r] eqn:E.
  cbn [fst snd] in *. subst r. exists h'.
  destruct (detect_completed_control _ _ _ _ E)
    as (T' & HT' & Hc' & Hnk & _).
  rewrite prepare_thumbnail_size, Hp, HT in HT'. injection HT' as <-.
  rewrite Hn in Hc', Hnk. rewrite Hk in Hnk.
  split; [reflexivity|]. split; [exact Hkept|]. split; assumption.
Qed.

(** C2 (code at the failing input). With the default settings, five calls
    on one frame at indices 0 to 4 (any frame of at least 20 by 20 pixels,
    solid or not): the first call returns false and each of the four
    others returns true; the buffer holds 1, 2, 3, 4 and 4 entries. *)
Theorem five_identical_frames_report_movement
    (image : Mat) (n0 n1 n2 n3 n4 : time_point) :
  20 <= cols image ->
  20 <= rows image ->
  let outcomes :=
    detect_all [(n0, 0, image); (n1, 1, image); (n2, 2, image);
                (n3, 3, image); (n4, 4, image)] Handler_new in
  map snd outcomes = [inr false; inr true; inr true; inr true; inr true]
  /\ map (fun r => map_size (control (fst r))) outcomes = [1; 2; 3; 4; 4].
Proof.
  intros Hcols Hrows. cbn zeta.
  assert (Hne : empty image = false)
    by (unfold empty, total; apply Z.eqb_neq; nia).
  assert (HSw : 1 <= width (default_thumbnail_size image)).
  { cbn [default_thumbnail_size width]. unfold scale_to_int. cbn [Qnum Qden].
    rewrite Z.quot_div_nonneg by lia.
    apply Z.div_le_lower_bound; lia. }
  assert (HSh : 1 <= height (default_thumbnail_size image)).
  { cbn [default_thumbnail_size height]. unfold scale_to_int. cbn [Qnum Qden].
    rewrite Z.quot_div_nonneg by lia.
    apply Z.div_le_lower_bound; lia. }
  assert (HSne : size_empty (default_thumbnail_size image) = false).
  { unfold size_empty. apply Bool.orb_false_iff.
    split; apply Z.leb_gt; lia. }
  assert (Hd0 : default_settings (mkSize 0 0) Handler_new)
    by (repeat split).
  assert (HS0 : area (mkSize 0 0) <= 1
                \/ mkSize 0 0 = default_thumbnail_size image)
    by (left; cbn; lia).
  assert (HS : area (default_thumbnail_size image) <= 1
               \/ default_thumbnail_size image = default_thumbnail_size image)
    by now right.
  pose proof (@prepared_size_default image _ _ Hd0 HS0) as Hp0.
  (* call 0 *)
  pose proof (@detect_from_empty_buffer _ n0 0 image Handler_new
                ltac:(lia) ltac:(lia) eq_refl) as (Hr0 & _).
  rewrite Hp0 in Hr0. specialize (Hr0 HSne).
  pose proof (@default_settings_kept n0 0 image _ _ Hne Hd0 HS0) as Hd1.
  cbn [detect_all].
  destruct (detect n0 0 image Handler_new) as [h1 r1] eqn:E1.
  cbn [fst snd] in *. subst r1.
  destruct (detect_completed_control _ _ _ _ E1)
    as (T & HT & Hc1 & Hk1 & _).
  rewrite prepare_thumbnail_size, Hp0 in HT.
  change (next_key_frame h1 = 10) in Hk1.
  change (control h1 = [(0, T)]) in Hc1.
  (* call 1 *)
  destruct (@same_frame_step n1 1 image _ h1 T 0 [] Hne Hd1 HS HT Hc1)
    as (h2 & E2 & Hd2 & Hc2 & Hk2).
  rewrite E2. cbn [fst snd].
  rewrite Hk1, Hc1 in Hc2, Hk2.
  change (control h2 = [(0, T); (1, T)]) in Hc2.
  change (next_key_frame h2 = 11) in Hk2.
  (* call 2 *)
  destruct (@same_frame_step n2 2 image _ h2 T 1 [(0, T)] Hne Hd2 HS HT Hc2)
    as (h3 & E3 & Hd3 & Hc3 & Hk3).
  rewrite E3. cbn [fst snd].
  rewrite Hk2, Hc2 in Hc3, Hk3.
  change (control h3 = [(0, T); (1, T); (2, T)]) in Hc3.
  change (next_key_frame h3 = 12) in Hk3.
  (* call 3 *)
  destruct (@same_frame_step n3 3 image _ h3 T 2 [(0, T); (1, T)]
              Hne Hd3 HS HT Hc3)
    as (h4 & E4 & Hd4 & Hc4 & Hk4).
  rewrite E4. cbn [fst snd].
  rewrite Hk3, Hc3 in Hc4, Hk4.
  change (control h4 = [(0, T); (1, T); (2, T); (3, T)]) in Hc4.
  change (next_key_frame h4 = 13) in Hk4.
  (* call 4 *)
  destruct (@same_frame_step n4 4 image _ h4 T 3 [(0, T); (1, T); (2, T)]
              Hne Hd4 HS HT Hc4)
    as (h5 & E5 & Hd5 & Hc5 & Hk5).
  rewrite E5. cbn [fst snd].
  rewrite Hk4, Hc4 in Hc5.
  change (control h5 = [(0, T); (1, T); (2, T); (3, T)]) in Hc5.
  cbn [map fst snd]. rewrite Hc1, Hc2, Hc3, Hc4, Hc5.
  split; reflexivity.
Qed.

End IdenticalFrames.

(** C10 (counterexample). A 20x20 frame gives a 1x1 thumbnail, which is
    stored; at the next call the size, of area 1, is computed again, from a
    40x40 frame of the same type, and the comparison of the 2x2 thumbnail
    with the stored 1x1 one throws. *)
Lemma detect_mismatch_after_one_pixel_thumbnail :
  let detect := detect (cv := Sample.sample_cv) in
  let first := Sample.solid 20 20 1 2 3 in
  let second := Sample.solid 40 40 1 2 3 in
  let h1 := fst (detect 1 0 first Handler_new) in
  empty first = false /\ empty second = false
  /\ type first = type second
  /\ snd (detect 1 0 first Handler_new) = inr false
  /\ thumbnail_size h1 = mkSize 1 1
  /\ snd (detect 2 1 second h1)
     = inl (invalid_argument "src and dst images cannot be compared").
Proof.
  vm_compute. repeat split.
Qed.

Lemma detect_never_mismatch_once_size_cached_witness :
  let frame := Sample.solid 40 40 1 2 3 in
  let wide := Sample.solid 40 80 1 2 3 in
  Forall (fun r => is_invalid_argument (snd r) = false
                   /\ thumbnail_size (fst r) = mkSize 2 2)
         (detect_all (cv := Sample.sample_cv)
                     [(1, 0, frame); (2, 1, wide); (3, 2, frame)]
                     Handler_new).
Proof.
  intros frame wide.
  apply (@detect_never_mismatch_once_size_cached Sample.sample_cv
           CV_8UC3 1 0 frame [(2, 1, wide); (3, 2, frame)] Handler_new).
  - reflexivity.
  - vm_compute. reflexivity.
  - repeat constructor.
Defined.

(** ** Concrete runs *)

Lemma psnr_identical_frames_score_zero_witness :
  let frame := Sample.solid 2 2 10 20 30 in
  psnr frame frame = inr score_zero
  /\ score_lt score_zero (psnr_threshold Handler_new) = true.
Proof.
  intros frame.
  destruct (psnr_identical_frames_score_zero frame eq_refl)
    as (Hp & Ht & _).
  exact (conj Hp Ht).
Defined.

Lemma five_identical_frames_report_movement_witness :
  let frame := Sample.solid 40 40 10 20 30 in
  let outcomes :=
    detect_all (cv := Sample.sample_cv)
               [(1, 0, frame); (2, 1, frame); (3, 2, frame);
                (4, 3, frame); (5, 4, frame)] Handler_new in
  map snd outcomes = [inr false; inr true; inr true; inr true; inr true]
  /\ map (fun r => map_size (control (fst r))) outcomes = [1; 2; 3; 4; 4].
Proof.
  intros frame.
  apply (@five_identical_frames_report_movement Sample.sample_cv
           frame 1 2 3 4 5).
  - cbn. lia.
  - cbn. lia.
Defined.


Lemma control_buffer_bounded_smallest_evicted_witness :
  let frame := Sample.solid 40 40 10 20 30 in
  let h := fst (last (detect_all (cv := Sample.sample_cv)
                        [(1, 0, frame); (2, 1, frame); (3, 2, frame);
                         (4, 3, frame)] Handler_new)
                     (Handler_new, inr false)) in
  let h' := fst (detect (cv := Sample.sample_cv) 5 20 frame h) in
  keys (control h) = [0; 1; 2; 3]
  /\ keys (control h') = [1; 2; 3; 20]
  /\ map_size (control h') <= number_of_control_frames h'
  /\ StronglySorted Z.lt (keys (control h')).
Proof.
  intros frame h h'.
  split; [vm_compute; reflexivity|]. split; [vm_compute; reflexivity|].
  assert (E : detect (cv := Sample.sample_cv) 5 20 frame h = (h', inr true))
    by (vm_compute; reflexivity).
  assert (Hs : StronglySorted Z.lt (keys (control h)))
    by (vm_compute; repeat constructor).
  assert (Hn : 0 <= number_of_control_frames h)
    by (vm_compute; discriminate).
  assert (Hadm : (next_key_frame h <=? 20)
                 || (map_size (control h) <? number_of_control_frames h)
                 = true)
    by (vm_compute; reflexivity).
  clearbody h' h.
  destruct (@control_buffer_bounded_smallest_evicted Sample.sample_cv
              5 20 frame h h' true Hs Hn E) as (Hev & _).
  destruct (Hev Hadm) as (thumbnail & evicted & _ & Hle & _ & _ & _ & Hsk).
  exact (conj Hle Hsk).
Defined.

Lemma transition_detected_iff_result_changed_witness :
  let black := Sample.solid 40 40 0 0 0 in
  let white := Sample.solid 40 40 255 255 255 in
  transitions_follow false
    (detect_all (cv := Sample.sample_cv)
                [(1, 0, black); (2, 1, white); (3, 2, white)] Handler_new).
Proof.
  intros black white.
  apply (@transition_detected_iff_result_changed Sample.sample_cv
           [(1, 0, black); (2, 1, white); (3, 2, white)] Handler_new).
  - reflexivity.
  - vm_compute. repeat constructor.
Defined.

Lemma mask_blank_when_movement_ends_witness :
  let detect := detect (cv := Sample.sample_cv) in
  let black := Sample.solid 40 40 0 0 0 in
  let white := Sample.solid 40 40 255 255 255 in
  let near_white := Sample.solid 40 40 255 255 254 in
  let h0 := set_mask_enabled true
              (set_number_of_control_frames 1
                 (set_key_frame_frequency 1 Handler_new)) in
  let h2 := fst (detect 2 1 white (fst (detect 1 0 black h0))) in
  let h3 := fst (detect 3 2 near_white h2) in
  movement_detected h2 = true
  /\ movement_detected h3 = false
  /\ mask h3 = Mat_zeros (mkSize 40 40) CV_8UC1
  /\ List.length (data (mask h3)) = 1600%nat
  /\ data (mask h3) = repeat 0 1600.
Proof.
  intros detect' black white near_white h0 h2 h3.
  assert (E : detect' 3 2 near_white h2 = (h3, inr false))
    by (vm_compute; reflexivity).
  assert (Hprev : movement_detected h2 = true) by (vm_compute; reflexivity).
  assert (Hen : mask_enabled h2 || contours_enabled h2 || bbox_enabled h2
                = true) by (vm_compute; reflexivity).
  split; [exact Hprev|]. split; [vm_compute; reflexivity|].
  clearbody h3 h2. unfold detect' in E. clear detect'.
  destruct (@mask_blank_when_movement_ends Sample.sample_cv 3 2 near_white
              h2 h3 E Hprev Hen)
    as (Hmask & _ & _ & _ & _ & _ & _ & _ & Hlen & Hdata).
  split; [exact Hmask|]. split; [|exact Hdata].
  apply Nat2Z.inj. rewrite Hlen. reflexivity.
Defined.

Lemma mask_enabled_forced_and_kept_witness :
  let frame := Sample.solid 40 40 10 20 30 in
  let h := set_bbox_enabled true Handler_new in
  let h1 := fst (detect (cv := Sample.sample_cv) 1 0 frame h) in
  let h2 := set_contours_enabled false (set_bbox_enabled false h1) in
  mask_enabled h = false
  /\ mask_enabled h1 = true
  /\ Forall (fun r => mask_enabled (fst r) = true)
            (detect_all (cv := Sample.sample_cv)
                        [(2, 1, frame); (3, 2, Mat_default); (4, 3, frame)]
                        h2)
  /\ mask_enabled (clear h2) = false.
Proof.
  intros frame h h1 h2.
  split; [reflexivity|].
  destruct (@mask_enabled_forced_and_kept Sample.sample_cv 1 0 frame h
              [(2, 1, frame); (3, 2, Mat_default); (4, 3, frame)]
              eq_refl eq_refl) as (H1 & _ & Hall & Hclear).
  exact (conj H1 (conj Hall Hclear)).
Defined.

(** * Further properties of the code *)

(** ** [psnr]: errors, symmetry, the zero score *)

Lemma channel_sum_zip_with_plane (f : Z -> Z -> Z) (cn c : Z) :
  forall a b k,
    List.length a = List.length b ->
    channel_sum cn c k (zip_with f a b)
    = fold_right Z.add 0 (zip_with f (plane cn c k a) (plane cn c k b)).
Proof.
  induction a as [|x a IH]; intros [|y b] k Hlen; cbn [List.length] in Hlen;
    try discriminate; [reflexivity|].
  cbn [zip_with channel_sum plane]. rewrite IH by lia.
  destruct (k =? c); cbn [zip_with fold_right]; lia.
Qed.

Lemma zip_with_absdiff_comm (a b : list Z) :
  zip_with (fun x y => Z.abs (x - y)) a b
  = zip_with (fun x y => Z.abs (x - y)) b a.
Proof.
  revert b. induction a as [|x a IH]; intros [|y b]; cbn [zip_with];
    try reflexivity.
  rewrite IH. f_equal. rewrite <- Z.abs_opp. f_equal. lia.
Qed.

(** X2. [psnr] does not depend on the order of its two arguments: the same
    score, or the same error. *)
Theorem psnr_symmetric (src dst : Mat) : psnr src dst = psnr dst src.
Proof.
  unfold psnr. rewrite (Bool.orb_comm (empty dst)).
  destruct (empty src || empty dst); [reflexivity|].
  rewrite (Z.eqb_sym (type dst)), (Z.eqb_sym (cols dst)),
    (Z.eqb_sym (rows dst)).
  destruct (type src =? type dst) eqn:Et; [|reflexivity].
  destruct (cols src =? cols dst) eqn:Ec; [|reflexivity].
  destruct (rows src =? rows dst) eqn:Er; [|reflexivity].
  apply Z.eqb_eq in Et, Ec, Er. cbn [negb orb].
  assert (Hm : mul (convertTo_32F (absdiff src dst))
                   (convertTo_32F (absdiff src dst))
               = mul (convertTo_32F (absdiff dst src))
                     (convertTo_32F (absdiff dst src))).
  { unfold mul, convertTo_32F, absdiff, channels. cbn [rows cols type data].
    rewrite Et, Ec, Er, (zip_with_absdiff_comm (data src)). reflexivity. }
  rewrite Hm. unfold channels, total. rewrite Et, Ec, Er. reflexivity.
Qed.

Lemma channels_convertTo_32F (m : Mat) :
  channels (convertTo_32F m) = channels m.
Proof.
  unfold channels, convertTo_32F, CV_MAKETYPE, CV_32F. cbn [type].
  unfold channels.
  rewrite Z.shiftl_mul_pow2, !Z.shiftr_div_pow2 by lia.
  change (2 ^ 3) with 8.
  set (c := type m / 8).
  assert (H : (5 + (c + 1 - 1) * 8) / 8 = c)
    by (symmetry; apply Z.div_unique with 5; lia).
  rewrite H. reflexivity.
Qed.

(** With one to three channels, the three slots that [psnr] adds up hold
    the sum of all the samples. *)
Lemma channel_sums_total (cn : Z) (l : list Z) :
  1 <= cn <= 3 ->
  forall k, 0 <= k < cn ->
    channel_sum cn 0 k l + channel_sum cn 1 k l + channel_sum cn 2 k l
    = fold_right Z.add 0 l.
Proof.
  intros Hcn. induction l as [|x l IH]; intros k Hk;
    cbn [channel_sum fold_right]; [reflexivity|].
  assert (Hk' : 0 <= (if k + 1 <? cn then k + 1 else 0) < cn).
  { destruct (k + 1 <? cn) eqn:E; [apply Z.ltb_lt in E|]; lia. }
  specialize (IH _ Hk').
  assert (Hx : (if k =? 0 then x else 0) + (if k =? 1 then x else 0)
               + (if k =? 2 then x else 0) = x).
  { assert (k = 0 \/ k = 1 \/ k = 2) as [-> | [-> | ->]] by lia; cbn; lia. }
  lia.
Qed.

Lemma zip_with_square (a b : list Z) :
  zip_with Z.mul (zip_with (fun x y => Z.abs (x - y)) a b)
                 (zip_with (fun x y => Z.abs (x - y)) a b)
  = zip_with (fun x y => (x - y) * (x - y)) a b.
Proof.
  revert b. induction a as [|x a IH]; intros [|y b]; cbn [zip_with];
    try reflexivity.
  rewrite IH. f_equal. rewrite <- Z.abs_mul. apply Z.abs_eq. apply Z.square_nonneg.
Qed.

Lemma squared_error_nonneg (a b : list Z) : 0 <= squared_error a b.
Proof.
  unfold squared_error. revert b.
  induction a as [|x a IH]; intros [|y b]; cbn [zip_with fold_right];
    try lia.
  specialize (IH b). pose proof (Z.square_nonneg (x - y)). lia.
Qed.

Lemma squared_error_zero (a b : list Z) :
  List.length a = List.length b ->
  (squared_error a b = 0 <-> a = b).
Proof.
  revert b. induction a as [|x a IH]; intros [|y b] Hlen;
    cbn [List.length] in Hlen; try discriminate.
  - split; reflexivity.
  - injection Hlen as Hlen. specialize (IH b Hlen).
    unfold squared_error in *. cbn [zip_with fold_right].
    pose proof (squared_error_nonneg a b) as Hn. unfold squared_error in Hn.
    split.
    + intros H. pose proof (Z.square_nonneg (x - y)) as Hsq.
      assert (Hxy : (x - y) * (x - y) = 0) by lia.
      assert (x = y) by nia. subst y.
      f_equal. apply IH. lia.
    + intros [= -> <-]. rewrite (proj2 IH eq_refl). lia.
Qed.

(** With one to three channels, the sum that [psnr] tests and divides is
    the squared error. *)
Lemma psnr_sse (src dst : Mat) :
  1 <= channels src <= 3 ->
  let s := sum (mul (convertTo_32F (absdiff src dst))
                    (convertTo_32F (absdiff src dst))) in
  val s 0 + val s 1 + val s 2 = squared_error (data src) (data dst).
Proof.
  intros Hcn. cbn zeta. unfold sum, val. cbn [map nth].
  assert (Hc : channels (mul (convertTo_32F (absdiff src dst))
                             (convertTo_32F (absdiff src dst)))
               = channels src).
  { transitivity (channels (convertTo_32F (absdiff src dst)));
      [reflexivity|]. rewrite channels_convertTo_32F. reflexivity. }
  rewrite Hc, channel_sums_total by lia.
  cbn [data mul convertTo_32F absdiff]. now rewrite zip_with_square.
Qed.


(** ** The score against the squared error *)

Section ScoreOrder.
Local Open Scope R_scope.

Lemma score_psnr_value (sse n : Z) :
  (0 < sse)%Z -> (0 < n)%Z ->
  score_value (score_psnr sse n)
  = 10 * (ln (IZR (255 * 255 * n) / IZR sse) / ln 10).
Proof.
  intros Hs Hn. cbn [score_value].
  assert (0 < IZR sse) by (now apply IZR_lt).
  assert (0 < IZR n) by (now apply IZR_lt).
  do 3 f_equal. rewrite (mult_IZR (255 * 255) n). field. split; lra.
Qed.


End ScoreOrder.

Lemma squared_error_uchar_bound (a b : list Z) :
  Forall is_uchar a -> Forall is_uchar b ->
  squared_error a b <= 255 * 255 * Z.of_nat (List.length a).
Proof.
  intros Ha. revert b. unfold squared_error.
  induction Ha as [|x a Hx _ IH]; intros b Hb.
  - cbn. lia.
  - destruct Hb as [|y b Hy Hb]; cbn [zip_with fold_right List.length].
    + lia.
    + specialize (IH b Hb). unfold is_uchar in Hx, Hy.
      assert ((x - y) * (x - y) <= 255 * 255) by nia.
      lia.
Qed.

(** X5. On 8-bit images of one to three channels the score is never
    negative. Its floor [0] is the value of two images that differ by 255
    in every sample, and it is also what [psnr] returns for two identical
    images. *)
Theorem psnr_uchar_score_nonnegative (src dst : Mat) (sc : score) :
  1 <= channels src <= 3 ->
  Forall is_uchar (data src) -> Forall is_uchar (data dst) ->
  Z.of_nat (List.length (data src)) = channels src * total src ->
  psnr src dst = inr sc ->
  (0 <= score_value sc)%R
  /\ (forall n, 0 < n ->
        score_value (score_psnr (255 * 255 * n) n) = score_value score_zero).
Proof.
  intros Hcn Hs Hd Hlen Hp. split.
  - pose proof (psnr_sse src dst Hcn) as Hsse. cbn zeta in Hsse.
    pose proof (squared_error_uchar_bound Hs Hd) as Hb.
    unfold psnr in Hp.
    destruct (empty src || empty dst); [discriminate|].
    destruct (negb _ || negb _ || negb _); [discriminate|].
    rewrite Hsse in Hp.
    destruct (squared_error (data src) (data dst) <=? 0) eqn:E;
      injection Hp as <-.
    + cbn. apply Rle_refl.
    + apply Z.leb_gt in E. rewrite Hlen in Hb.
      set (sse := squared_error (data src) (data dst)) in *.
      set (n := channels src * total src) in *.
      assert (Hn : 0 < n) by nia.
      rewrite score_psnr_value by lia.
      assert (Hs1 : (0 < IZR sse)%R) by (now apply IZR_lt).
      assert (Hle : (IZR sse <= IZR (255 * 255 * n))%R)
        by (now apply IZR_le).
      pose proof ln_10_pos as H10.
      apply Rmult_le_pos; [lra|].
      apply Rmult_le_pos; [|left; now apply Rinv_0_lt_compat].
      rewrite <- ln_1.
      destruct (Req_dec (IZR (255 * 255 * n) / IZR sse) 1) as [->|Hne];
        [apply Rle_refl|].
      left. apply ln_increasing; [lra|].
      assert (1 <= IZR (255 * 255 * n) / IZR sse)%R.
      { apply (Rmult_le_reg_r (IZR sse)); [exact Hs1|].
        unfold Rdiv. rewrite Rmult_assoc, Rinv_l by lra. lra. }
      lra.
  - intros n Hn. rewrite score_psnr_value by lia.
    assert (0 < IZR (255 * 255 * n))%R by (apply IZR_lt; lia).
    unfold Rdiv at 2. rewrite Rinv_r by lra. rewrite ln_1. cbn. lra.
Qed.

(** ** [psnr]: four channels, and the two ways to the value zero *)

Lemma squared_error_same (a : list Z) : squared_error a a = 0.
Proof.
  unfold squared_error. induction a as [|x a IH]; cbn [zip_with fold_right];
    [reflexivity|]. rewrite IH. lia.
Qed.

(** X1. On images of four channels [psnr] adds up the squared error of the
    first three channels only, and divides it by the samples of all four:
    two images that differ in the fourth channel only get [0.0], as two
    identical images do. *)
Theorem psnr_ignores_fourth_channel (src dst : Mat) :
  empty src = false -> empty dst = false ->
  type src = type dst -> cols src = cols dst -> rows src = rows dst ->
  channels src = 4 ->
  Forall is_uchar (data src) -> Forall is_uchar (data dst) ->
  List.length (data src) = List.length (data dst) ->
  let sse :=
    squared_error (plane 4 0 0 (data src)) (plane 4 0 0 (data dst))
    + squared_error (plane 4 1 0 (data src)) (plane 4 1 0 (data dst))
    + squared_error (plane 4 2 0 (data src)) (plane 4 2 0 (data dst)) in
  psnr src dst
  = inr (if sse <=? 0 then score_zero else score_psnr sse (4 * total src))
  /\ (plane 4 0 0 (data src) = plane 4 0 0 (data dst) ->
      plane 4 1 0 (data src) = plane 4 1 0 (data dst) ->
      plane 4 2 0 (data src) = plane 4 2 0 (data dst) ->
      psnr src dst = inr score_zero).
Proof.
  intros Es Ed Et Ec Er Hcn _ _ Hlen. cbn zeta.
  assert (Hp : psnr src dst
               = inr (if squared_error (plane 4 0 0 (data src))
                                       (plane 4 0 0 (data dst))
                         + squared_error (plane 4 1 0 (data src))
                                         (plane 4 1 0 (data dst))
                         + squared_error (plane 4 2 0 (data src))
                                         (plane 4 2 0 (data dst)) <=? 0
                      then score_zero
                      else score_psnr
                             (squared_error (plane 4 0 0 (data src))
                                            (plane 4 0 0 (data dst))
                              + squared_error (plane 4 1 0 (data src))
                                              (plane 4 1 0 (data dst))
                              + squared_error (plane 4 2 0 (data src))
                                              (plane 4 2 0 (data dst)))
                             (4 * total src))).
  { unfold psnr. rewrite Es, Ed, Et, Ec, Er, !Z.eqb_refl. cbn [orb negb].
    assert (Hc : channels (mul (convertTo_32F (absdiff src dst))
                               (convertTo_32F (absdiff src dst))) = 4).
    { transitivity (channels (convertTo_32F (absdiff src dst)));
        [reflexivity|]. rewrite channels_convertTo_32F. exact Hcn. }
    unfold sum, val. cbn [map nth]. rewrite Hc.
    cbn [data mul convertTo_32F absdiff]. rewrite zip_with_square.
    rewrite !channel_sum_zip_with_plane by exact Hlen.
    fold (squared_error (plane 4 0 0 (data src)) (plane 4 0 0 (data dst))).
    fold (squared_error (plane 4 1 0 (data src)) (plane 4 1 0 (data dst))).
    fold (squared_error (plane 4 2 0 (data src)) (plane 4 2 0 (data dst))).
    rewrite Hcn. now destruct (_ <=? 0). }
  split; [exact Hp|].
  intros H0 H1 H2. rewrite Hp, H0, H1, H2, !squared_error_same.
  reflexivity.
Qed.

Section ScoreZero.
Local Open Scope R_scope.

Lemma score_psnr_value_zero (sse n : Z) :
  (0 < sse)%Z -> (0 < n)%Z ->
  (score_value (score_psnr sse n) = 0 <-> sse = (255 * 255 * n)%Z).
Proof.
  intros Hs Hn. rewrite score_psnr_value by assumption.
  assert (HS : 0 < IZR sse) by (now apply IZR_lt).
  assert (HA : 0 < IZR (255 * 255 * n)) by (apply IZR_lt; lia).
  pose proof ln_10_pos as H10.
  pose proof (Rinv_0_lt_compat _ H10) as Hinv.
  split.
  - intros H.
    apply Rmult_integral in H. destruct H as [H|H]; [lra|].
    unfold Rdiv in H at 1.
    apply Rmult_integral in H. destruct H as [H|H]; [|lra].
    rewrite <- ln_1 in H. apply ln_inv in H;
      [|apply Rdiv_lt_0_compat; assumption|lra].
    assert (HX : IZR (255 * 255 * n)
                 = IZR (255 * 255 * n) / IZR sse * IZR sse)
      by (field; lra).
    rewrite H, Rmult_1_l in HX. apply eq_IZR in HX. lia.
  - intros ->. unfold Rdiv at 2. rewrite Rinv_r by lra. rewrite ln_1.
    unfold Rdiv. lra.
Qed.

End ScoreZero.

Lemma squared_error_max (a b : list Z) :
  Forall is_uchar a -> Forall is_uchar b ->
  List.length a = List.length b ->
  (squared_error a b = 255 * 255 * Z.of_nat (List.length a)
   <-> Forall2 (fun x y => Z.abs (x - y) = 255) a b).
Proof.
  intros Ha. revert b.
  induction Ha as [|x a Hx Ha IH]; intros b Hb Hlen.
  - destruct b; [|discriminate]. split; [constructor|reflexivity].
  - destruct Hb as [|y b Hy Hb]; [discriminate|].
    cbn [List.length] in Hlen. injection Hlen as Hlen.
    specialize (IH b Hb Hlen).
    pose proof (squared_error_uchar_bound Ha Hb) as Hbound.
    unfold squared_error in *. cbn [zip_with fold_right List.length].
    unfold is_uchar in Hx, Hy.
    assert (Hsq : (x - y) * (x - y) <= 255 * 255) by nia.
    rewrite Nat2Z.inj_succ. split.
    + intros H.
      assert (Hxy : (x - y) * (x - y) = 255 * 255) by lia.
      constructor; [|apply IH; lia].
      assert (x - y = 255 \/ x - y = -255) as [-> | ->] by nia;
        reflexivity.
    + intros H. inversion H as [|? ? ? ? Hxy Hrest]; subst.
      apply IH in Hrest.
      assert (Hq : (x - y) * (x - y) = 255 * 255).
      { destruct (Z.abs_spec (x - y)) as [(_ & Habs)|(_ & Habs)];
          rewrite Habs in Hxy; nia. }
      lia.
Qed.

(** X3. On 8-bit images of one to three channels the value of the score
    is zero in exactly two cases: the two images are identical, which
    [psnr] answers with the literal [0.0], or they differ by 255 in every
    sample (black against white), where the formula comes to [0.0] too.
    On every other pair the score is that of the squared error of all
    the samples, which is positive. *)
Theorem psnr_value_zero_iff_same_or_opposite
    (src dst : Mat) (sc : score) :
  1 <= channels src <= 3 ->
  Forall is_uchar (data src) -> Forall is_uchar (data dst) ->
  Z.of_nat (List.length (data src)) = channels src * total src ->
  List.length (data src) = List.length (data dst) ->
  psnr src dst = inr sc ->
  (score_value sc = 0%R
   <-> data src = data dst
       \/ Forall2 (fun x y => Z.abs (x - y) = 255) (data src) (data dst))
  /\ (data src = data dst -> sc = score_zero)
  /\ (data src <> data dst ->
      sc = score_psnr (squared_error (data src) (data dst))
                      (channels src * total src)
      /\ 0 < squared_error (data src) (data dst)).
Proof.
  intros Hcn Hs Hd Hlen Hlen2 Hp.
  pose proof (psnr_sse src dst Hcn) as Hsse. cbn zeta in Hsse.
  pose proof (squared_error_nonneg (data src) (data dst)) as Hnn.
  pose proof (squared_error_zero (data src) (data dst) Hlen2) as Hz.
  pose proof (squared_error_uchar_bound Hs Hd) as Hb.
  pose proof (squared_error_max Hs Hd Hlen2) as Hmax.
  unfold psnr in Hp.
  destruct (empty src || empty dst); [discriminate|].
  destruct (negb _ || negb _ || negb _); [discriminate|].
  rewrite Hsse in Hp.
  destruct (squared_error (data src) (data dst) <=? 0) eqn:E;
    injection Hp as <-.
  - apply Z.leb_le in E.
    assert (Heq : data src = data dst) by (apply Hz; lia).
    split; [split; [intros _; left; exact Heq|reflexivity]|].
    split; [reflexivity|]. intros Hne. contradiction.
  - apply Z.leb_gt in E.
    assert (Hne : data src <> data dst).
    { intros Heq. apply Hz in Heq. lia. }
    rewrite Hlen in Hb, Hmax.
    assert (Hn : 0 < channels src * total src) by lia.
    split.
    { rewrite (score_psnr_value_zero E Hn). split.
      - intros H. right. apply Hmax. exact H.
      - intros [Heq|H]; [contradiction|]. apply Hmax. exact H. }
    split; [intros Heq; contradiction|].
    intros _. split; [reflexivity|exact E].
Qed.

(** ** The comparison loop as a search *)

Section Search.
Context {cv : OpenCV}.

Lemma compare_control_scan now frame_index image thumbnail it :
  forall g g2 u,
    compare_control now frame_index image thumbnail it g = (g2, inr u) ->
    scan_fields g2
    = scan now frame_index thumbnail (psnr_threshold g) it (scan_fields g)
    /\ (mask_enabled g = false -> mask g2 = mask g).
Proof.
  induction it as [|[k val] it IH]; intros g g2 u;
    cbn [compare_control scan].
  - intros [= <- _]. split; reflexivity.
  - destruct (psnr val thumbnail) as [e|sc]; [discriminate|].
    change (most_recent_psnr_score (set_most_recent_psnr_score sc g))
      with sc.
    change (psnr_threshold (set_most_recent_psnr_score sc g))
      with (psnr_threshold g).
    destruct (score_lt sc (psnr_threshold g)).
    + change (mask_enabled
                (set_frame_index_with_movement frame_index
                   (set_movement_last_detected now
                      (set_movement_detected true
                         (set_most_recent_psnr_score sc g)))))
        with (mask_enabled g).
      destruct (mask_enabled g).
      * destruct (movement_mask val thumbnail image); [discriminate|].
        intros [= <- _]. split; [reflexivity|discriminate].
      * intros [= <- _]. split; reflexivity.
    + intros Hg. apply IH in Hg. destruct Hg as (Hs & Hm).
      split; [exact Hs|exact Hm].
Qed.

(** A call that returns, in terms of the search. *)
Lemma detect_completed_scan now frame_index image h h' b :
  detect now frame_index image h = (h', inr b) ->
  exists thumbnail,
    resize image (thumbnail_size h') INTER_AREA = inr thumbnail
    /\ scan_fields h'
       = scan now frame_index thumbnail (psnr_threshold h)
              (rev (control h))
              (false, most_recent_psnr_score h,
               frame_index_with_movement h, movement_last_detected h)
    /\ movement_detected h' = b.
Proof.
  intros E.
  assert (Hne : empty image = false).
  { unfold detect in E. destruct (empty image); [discriminate|reflexivity]. }
  pose proof (@detect_thumbnail_size _ now frame_index image h Hne)
    as (Hts & _).
  rewrite E in Hts. cbn [fst] in Hts.
  apply detect_inv in E.
  inversion E as [| | |thumbnail h2 u He Hr Hc]; subst.
  exists thumbnail.
  rewrite prepare_thumbnail_size in Hr. rewrite Hts.
  split; [exact Hr|]. split; [|apply complete_movement_detected].
  apply compare_control_scan in Hc. destruct Hc as (Hs & _).
  destruct (complete_footprint frame_index image thumbnail
              (movement_detected h) h2) as (c & nk & o & mk & ->).
  change (scan_fields h2 = scan now frame_index thumbnail (psnr_threshold h)
                                (rev (control h))
                                (false, most_recent_psnr_score h,
                                 frame_index_with_movement h,
                                 movement_last_detected h)).
  rewrite Hs, prepare_footprint. reflexivity.
Qed.

End Search.

(** ** What a returning call reports *)

Section Reports.
Context {cv : OpenCV}.

Lemma existsb_rev_same (A : Type) (f : A -> bool) (l : list A) :
  existsb f (rev l) = existsb f l.
Proof.
  induction l as [|x l IH]; [reflexivity|].
  cbn [rev existsb]. rewrite existsb_app, IH. cbn [existsb].
  rewrite Bool.orb_false_r. apply Bool.orb_comm.
Qed.

Lemma compare_control_exists now frame_index image thumbnail it :
  forall g g2 u,
    compare_control now frame_index image thumbnail it g = (g2, inr u) ->
    movement_detected g2
    = existsb (under_threshold thumbnail (psnr_threshold g)) it
      || movement_detected g.
Proof.
  induction it as [|[k val] it IH]; intros g g2 u;
    cbn [compare_control existsb].
  - intros [= <- _]. reflexivity.
  - unfold under_threshold at 1. cbn [snd].
    destruct (psnr val thumbnail) as [e|sc]; [discriminate|].
    change (most_recent_psnr_score (set_most_recent_psnr_score sc g))
      with sc.
    change (psnr_threshold (set_most_recent_psnr_score sc g))
      with (psnr_threshold g).
    destruct (score_lt sc (psnr_threshold g)).
    + change (mask_enabled
                (set_frame_index_with_movement frame_index
                   (set_movement_last_detected now
                      (set_movement_detected true
                         (set_most_recent_psnr_score sc g)))))
        with (mask_enabled g).
      destruct (mask_enabled g).
      * destruct (movement_mask val thumbnail image); [discriminate|].
        intros [= <- _]. reflexivity.
      * intros [= <- _]. reflexivity.
    + intros Hg. apply IH in Hg. exact Hg.
Qed.

(** X6. A call that returns gives true exactly when some control
    thumbnail scores under the threshold against the thumbnail of the
    frame; the thumbnail is the frame resized to the thumbnail size the
    call leaves. *)
Theorem detect_true_iff_some_thumbnail_under_threshold
    now frame_index image h h' b :
  detect now frame_index image h = (h', inr b) ->
  exists thumbnail,
    resize image (thumbnail_size h') INTER_AREA = inr thumbnail
    /\ b = existsb (under_threshold thumbnail (psnr_threshold h))
                   (control h).
Proof.
  intros E.
  destruct (detect_completed_scan _ _ _ _ E) as (thumbnail & Hr & _ & _).
  exists thumbnail. split; [exact Hr|].
  assert (Hne : empty image = false).
  { unfold detect in E. destruct (empty image); [discriminate|reflexivity]. }
  pose proof (@detect_thumbnail_size _ now frame_index image h Hne)
    as (Hts & _).
  rewrite E in Hts. cbn [fst] in Hts.
  apply detect_inv in E.
  inversion E as [| | |thumbnail' h2 u He Hr' Hc]; subst.
  rewrite prepare_thumbnail_size, <- Hts, Hr in Hr'. injection Hr' as <-.
  apply compare_control_exists in Hc.
  rewrite Hc. cbn [movement_detected set_movement_detected].
  rewrite Bool.orb_false_r.
  change (psnr_threshold (set_movement_detected false (prepare image h)))
    with (psnr_threshold (prepare image h)).
  rewrite prepare_footprint.
  cbn [psnr_threshold set_mask_enabled set_thumbnail_size
       set_thumbnail_ratio].
  rewrite existsb_rev_same. reflexivity.
Qed.

Lemma scan_outcome now frame_index thumbnail t it :
  forall m0 s0 i0 l0,
    (exists s,
        scan now frame_index thumbnail t it (m0, s0, i0, l0)
        = (true, s, frame_index, now)
        /\ score_lt s t = true)
    \/ (exists s,
           scan now frame_index thumbnail t it (m0, s0, i0, l0)
           = (m0, s, i0, l0)).
Proof.
  induction it as [|[k val] it IH]; intros m0 s0 i0 l0; cbn [scan].
  - right. now exists s0.
  - destruct (psnr val thumbnail) as [e|sc]; [right; now exists s0|].
    destruct (score_lt sc t) eqn:E.
    + left. exists sc. now split.
    + apply IH.
Qed.

(** X7. A call that returns true records its frame index and clock
    reading in [frame_index_with_movement] and [movement_last_detected],
    and the score it leaves is under the threshold; a call that returns
    false leaves both fields as they were. *)
Theorem movement_index_and_time_follow_true_results
    now frame_index image h h' b :
  detect now frame_index image h = (h', inr b) ->
  (b = true ->
   frame_index_with_movement h' = frame_index
   /\ movement_last_detected h' = now
   /\ score_lt (most_recent_psnr_score h') (psnr_threshold h) = true)
  /\ (b = false ->
      frame_index_with_movement h' = frame_index_with_movement h
      /\ movement_last_detected h' = movement_last_detected h).
Proof.
  intros E.
  destruct (detect_completed_scan _ _ _ _ E) as (thumbnail & _ & Hs & Hb).
  unfold scan_fields in Hs.
  destruct (scan_outcome now frame_index thumbnail (psnr_threshold h)
              (rev (control h)) false (most_recent_psnr_score h)
              (frame_index_with_movement h) (movement_last_detected h))
    as [(s & Hscan & Hlt)|(s & Hscan)];
    rewrite Hscan in Hs; injection Hs as Hm Hsc Hi Hl.
  - split; [|intros ->; congruence].
    intros _. rewrite Hi, Hl, Hsc. now repeat split.
  - split; [intros ->; congruence|].
    intros _. now split.
Qed.

Lemma update_mask_and_output_keeps_output image h :
  contours_enabled h = false -> bbox_enabled h = false ->
  output (update_mask_and_output image h) = output h.
Proof.
  intros Hc Hb. unfold update_mask_and_output.
  destruct (mask_enabled h); [|reflexivity].
  destruct (empty (mask h) || _).
  - change (contours_enabled (set_mask (Mat_zeros (size image) CV_8UC1) h))
      with (contours_enabled h).
    change (bbox_enabled (set_mask (Mat_zeros (size image) CV_8UC1) h))
      with (bbox_enabled h).
    rewrite Hc, Hb. reflexivity.
  - rewrite Hc, Hb. reflexivity.
Qed.

Lemma update_mask_and_output_disabled image h :
  mask_enabled h = false -> update_mask_and_output image h = h.
Proof. intros Hm. unfold update_mask_and_output. now rewrite Hm. Qed.

(** X8. With contours and bounding box disabled no call assigns the
    output image, and with the mask disabled too no call assigns the mask:
    both keep what they held, whatever the outcome of the call. *)
Theorem mask_and_output_kept_when_disabled now frame_index image h :
  contours_enabled h = false ->
  bbox_enabled h = false ->
  output (fst (detect now frame_index image h)) = output h
  /\ (mask_enabled h = false ->
      mask (fst (detect now frame_index image h)) = mask h).
Proof.
  intros Hc Hb.
  destruct (detect now frame_index image h) as [h' [e|b]] eqn:E; cbn [fst].
  - destruct (detect_failure_keeps _ _ _ _ E) as (_ & _ & _ & _ & Hm & Ho).
    split; [exact Ho|intros _; exact Hm].
  - pose proof (detect_mask_enabled now frame_index image h) as Hme.
    rewrite E in Hme. cbn [fst] in Hme.
    apply detect_inv in E.
    inversion E as [| | |thumbnail h2 u He Hr Hcc]; subst.
    rewrite He, Hc, Hb, !Bool.orb_false_r in Hme.
    pose proof (compare_control_scan _ _ _ _ _ _ Hcc) as (_ & Hmask).
    apply compare_control_result in Hcc.
    destruct Hcc as (sc & md & t & fi & mk & Hh2).
    set (Y := set_transition_detected
                (negb (Bool.eqb (movement_detected h)
                                (movement_detected h2))) h2) in *.
    assert (HYc : contours_enabled Y = false).
    { subst Y. rewrite Hh2, prepare_footprint. exact Hc. }
    assert (HYb : bbox_enabled Y = false).
    { subst Y. rewrite Hh2, prepare_footprint. exact Hb. }
    assert (HYo : output Y = output h).
    { subst Y. rewrite Hh2, prepare_footprint. reflexivity. }
    unfold complete. fold Y.
    destruct (keep_key_frame_footprint frame_index thumbnail
                (update_mask_and_output image Y)) as (c & nk & -> & _).
    split.
    + change (output (update_mask_and_output image Y) = output h).
      now rewrite update_mask_and_output_keeps_output.
    + intros Hm. change (mask (update_mask_and_output image Y) = mask h).
      assert (HYm : mask_enabled Y = false).
      { unfold complete in Hme. fold Y in Hme.
        rewrite Hm in Hme. subst Y. rewrite Hh2, prepare_footprint.
        cbn. now rewrite Hm, Hc, Hb. }
      rewrite update_mask_and_output_disabled by exact HYm.
      change (mask h2 = mask h). rewrite Hmask.
      * rewrite prepare_footprint. reflexivity.
      * rewrite prepare_footprint. cbn. now rewrite Hm, Hc, Hb.
Qed.

End Reports.

(** ** More on the control buffer *)

Lemma assign_size (k : Z) (v : Mat) (m : ControlMap) :
  1 <= map_size (assign k v m)
  /\ map_size m <= map_size (assign k v m) <= map_size m + 1.
Proof.
  induction m as [|[k0 v0] m IH]; cbn [assign].
  - unfold map_size. cbn. lia.
  - destruct (k <? k0); [rewrite !map_size_cons;
                         pose proof (map_size_nonneg m); lia|].
    destruct (k =? k0); rewrite !map_size_cons;
      pose proof (map_size_nonneg m); lia.
Qed.

Lemma evict_keeps_last (n : Z) (m : ControlMap) (x : Z * Mat) :
  1 <= n -> evict n (m ++ [x]) = evict (n - 1) m ++ [x].
Proof.
  intros Hn. induction m as [|e m IH]; cbn [app evict].
  - unfold map_size. cbn [List.length].
    destruct (Z.of_nat 1 >? n) eqn:E; [|reflexivity].
    apply Z.gtb_lt in E. lia.
  - rewrite !map_size_cons, map_size_app.
    change (map_size [x]) with 1.
    destruct (map_size m + 1 + 1 >? n) eqn:E1;
      destruct (map_size m + 1 >? n - 1) eqn:E2;
      try (rewrite Z.gtb_ltb in E1, E2;
           first [apply Z.ltb_lt in E1|apply Z.ltb_ge in E1];
           first [apply Z.ltb_lt in E2|apply Z.ltb_ge in E2]; lia).
    + exact IH.
    + reflexivity.
Qed.

Lemma keys_assign_present (k : Z) (v : Mat) (m : ControlMap) :
  StronglySorted Z.lt (keys m) -> In k (keys m) ->
  keys (assign k v m) = keys m /\ In (k, v) (assign k v m).
Proof.
  induction m as [|[k0 v0] m IH]; intros Hs Hin; cbn [assign].
  - destruct Hin.
  - cbn [keys map fst] in Hs, Hin. fold (keys m) in Hs, Hin.
    apply StronglySorted_inv in Hs. destruct Hs as (Hs & Hall).
    rewrite Forall_forall in Hall.
    destruct (k <? k0) eqn:Hlt.
    + apply Z.ltb_lt in Hlt. destruct Hin as [->|Hin]; [lia|].
      specialize (Hall _ Hin). lia.
    + destruct (k =? k0) eqn:Heq.
      * apply Z.eqb_eq in Heq. subst k0. split; [reflexivity|now left].
      * apply Z.eqb_neq in Heq. destruct Hin as [->|Hin]; [congruence|].
        destruct (IH Hs Hin) as (Hk & Hi).
        cbn [keys map fst]. fold (keys (assign k v m)) (keys m).
        split; [now rewrite Hk|now right].
Qed.

Lemma evict_one_over (n : Z) (x : Z * Mat) (m : ControlMap) :
  map_size m = n -> evict n (x :: m) = m.
Proof.
  intros Hn.
  change (evict n (x :: m))
    with (if map_size (x :: m) >? n then evict n m else x :: m).
  rewrite map_size_cons.
  assert (Hgt : (map_size m + 1 >? n) = true)
    by (rewrite Z.gtb_ltb; apply Z.ltb_lt; lia).
  rewrite Hgt. apply evict_fits. lia.
Qed.

Section BufferEdges.
Context {cv : OpenCV}.

(** X9. With a capacity of at least one, every call that returns leaves a
    buffer that is not empty: [empty()] is false after it. *)
Theorem buffer_not_empty_after_returning_call
    now frame_index image h h' b :
  1 <= number_of_control_frames h ->
  detect now frame_index image h = (h', inr b) ->
  Handler_empty h' = false /\ 1 <= map_size (control h').
Proof.
  intros Hcap E.
  destruct (detect_completed_control _ _ _ _ E) as (thumbnail & _ & Hc & _).
  assert (Hsize : 1 <= map_size (control h')).
  { rewrite Hc.
    destruct (next_key_frame h <=? frame_index) eqn:Ek; cbn [orb].
    - rewrite evict_size by lia.
      pose proof (assign_size frame_index thumbnail (control h)). lia.
    - destruct (map_size (control h) <? number_of_control_frames h) eqn:El.
      + rewrite evict_size by lia.
        pose proof (assign_size frame_index thumbnail (control h)). lia.
      + apply Z.ltb_ge in El. lia. }
  split; [|exact Hsize].
  unfold Handler_empty. destruct (control h'); [|reflexivity].
  unfold map_size in Hsize. cbn in Hsize. lia.
Qed.

(** X10. When the frame index is above every key of the buffer and the
    call admits the thumbnail, with a capacity of at least one, the new
    thumbnail is the last entry of the buffer: the one the next call
    compares first. *)
Theorem newest_thumbnail_is_last_entry now frame_index image h h' b :
  1 <= number_of_control_frames h ->
  (forall k, In k (keys (control h)) -> k < frame_index) ->
  (next_key_frame h <=? frame_index)
  || (map_size (control h) <? number_of_control_frames h) = true ->
  detect now frame_index image h = (h', inr b) ->
  exists thumbnail,
    resize image (thumbnail_size h') INTER_AREA = inr thumbnail
    /\ control h'
       = evict (number_of_control_frames h - 1) (control h)
         ++ [(frame_index, thumbnail)]
    /\ hd_error (rev (control h')) = Some (frame_index, thumbnail).
Proof.
  intros Hcap Habove Hadm E.
  destruct (detect_completed_scan _ _ _ _ E) as (thumbnail & Hr & _ & _).
  assert (Hne : empty image = false).
  { unfold detect in E. destruct (empty image); [discriminate|reflexivity]. }
  pose proof (@detect_thumbnail_size _ now frame_index image h Hne)
    as (Hts & _).
  rewrite E in Hts. cbn [fst] in Hts.
  destruct (detect_completed_control _ _ _ _ E)
    as (thumbnail' & Hr' & Hc & _).
  rewrite prepare_thumbnail_size, <- Hts, Hr in Hr'. injection Hr' as <-.
  exists thumbnail. split; [exact Hr|].
  rewrite Hadm, (@assign_above frame_index thumbnail _ Habove) in Hc.
  rewrite evict_keeps_last in Hc by exact Hcap.
  split; [exact Hc|].
  rewrite Hc, rev_app_distr. reflexivity.
Qed.

(** X11. An out-of-order frame index, below the smallest key of the
    buffer, on a call that admits its thumbnail: under capacity the
    thumbnail becomes the first entry, the one compared last; on a full
    buffer it is the first one evicted, so the buffer is left as it was.
    Either way [next_key_frame] moves to that index plus the interval. *)
Theorem out_of_order_index_goes_first_or_is_evicted
    now frame_index image h h' b k0 v0 rest :
  control h = (k0, v0) :: rest ->
  frame_index < k0 ->
  (next_key_frame h <=? frame_index)
  || (map_size (control h) <? number_of_control_frames h) = true ->
  detect now frame_index image h = (h', inr b) ->
  next_key_frame h' = wrap64 (frame_index + key_frame_frequency h)
  /\ (map_size (control h) < number_of_control_frames h ->
      exists thumbnail,
        resize image (thumbnail_size h') INTER_AREA = inr thumbnail
        /\ control h' = (frame_index, thumbnail) :: control h)
  /\ (map_size (control h) = number_of_control_frames h ->
      control h' = control h).
Proof.
  intros Hctl Hlt Hadm E.
  destruct (detect_completed_scan _ _ _ _ E) as (thumbnail & Hr & _ & _).
  assert (Hne : empty image = false).
  { unfold detect in E. destruct (empty image); [discriminate|reflexivity]. }
  pose proof (@detect_thumbnail_size _ now frame_index image h Hne)
    as (Hts & _).
  rewrite E in Hts. cbn [fst] in Hts.
  destruct (detect_completed_control _ _ _ _ E)
    as (thumbnail' & Hr' & Hc & Hk & _).
  rewrite prepare_thumbnail_size, <- Hts, Hr in Hr'. injection Hr' as <-.
  rewrite Hadm in Hc, Hk.
  assert (Hins : assign frame_index thumbnail (control h)
                 = (frame_index, thumbnail) :: control h).
  { rewrite Hctl. cbn [assign].
    assert (Hlt' : (frame_index <? k0) = true) by (now apply Z.ltb_lt).
    now rewrite Hlt'. }
  rewrite Hins in Hc.
  split; [exact Hk|]. split.
  - intros Hunder. exists thumbnail. split; [exact Hr|].
    rewrite Hc. apply evict_fits. rewrite map_size_cons. lia.
  - intros Hfull. rewrite Hc. now apply evict_one_over.
Qed.

(** X12. A frame index already in the buffer: an admitting call replaces
    the thumbnail stored under it, and the buffer, when within capacity,
    keeps the same keys. *)
Theorem repeated_index_replaces_thumbnail now frame_index image h h' b :
  StronglySorted Z.lt (keys (control h)) ->
  In frame_index (keys (control h)) ->
  map_size (control h) <= number_of_control_frames h ->
  (next_key_frame h <=? frame_index)
  || (map_size (control h) <? number_of_control_frames h) = true ->
  detect now frame_index image h = (h', inr b) ->
  exists thumbnail,
    resize image (thumbnail_size h') INTER_AREA = inr thumbnail
    /\ keys (control h') = keys (control h)
    /\ In (frame_index, thumbnail) (control h').
Proof.
  intros Hs Hin Hle Hadm E.
  destruct (detect_completed_scan _ _ _ _ E) as (thumbnail & Hr & _ & _).
  assert (Hne : empty image = false).
  { unfold detect in E. destruct (empty image); [discriminate|reflexivity]. }
  pose proof (@detect_thumbnail_size _ now frame_index image h Hne)
    as (Hts & _).
  rewrite E in Hts. cbn [fst] in Hts.
  destruct (detect_completed_control _ _ _ _ E)
    as (thumbnail' & Hr' & Hc & _).
  rewrite prepare_thumbnail_size, <- Hts, Hr in Hr'. injection Hr' as <-.
  exists thumbnail. split; [exact Hr|].
  destruct (@keys_assign_present frame_index thumbnail (control h) Hs Hin)
    as (Hk & Hi).
  assert (Hsz : map_size (assign frame_index thumbnail (control h))
                = map_size (control h)).
  { unfold map_size. f_equal.
    rewrite <- (length_map fst), <- (length_map fst (control h)).
    fold (keys (assign frame_index thumbnail (control h)))
         (keys (control h)).
    now rewrite Hk. }
  rewrite Hadm, evict_fits in Hc by lia.
  rewrite Hc. split; assumption.
Qed.

End BufferEdges.

(** ** Streams of [detect(next_image)] *)

Lemma final_handler_cons (h : Handler) (r : Handler * result bool)
    (outcomes : list (Handler * result bool)) :
  final_handler h (r :: outcomes) = final_handler (fst r) outcomes.
Proof.
  unfold final_handler. revert r.
  induction outcomes as [|r' outcomes IH]; intros r; [reflexivity|].
  change (last (r :: r' :: outcomes) (h, inr false))
    with (last (r' :: outcomes) (h, inr false)).
  destruct outcomes as [|r'' outcomes]; [reflexivity|].
  change (last (r' :: r'' :: outcomes) (h, inr false))
    with (last (r'' :: outcomes) (h, inr false)).
  change (last (r' :: r'' :: outcomes) (fst r, inr false))
    with (last (r'' :: outcomes) (fst r, inr false)).
  clear IH. revert r''. induction outcomes as [|x outcomes IH]; intros r'';
    [reflexivity|].
  change (last (r'' :: x :: outcomes) (h, inr false))
    with (last (x :: outcomes) (h, inr false)).
  change (last (r'' :: x :: outcomes) (fst r, inr false))
    with (last (x :: outcomes) (fst r, inr false)).
  apply IH.
Qed.

Lemma successes_cons (r : Handler * result bool)
    (outcomes : list (Handler * result bool)) :
  successes (r :: outcomes)
  = (if succeeded (snd r) then 1 else 0) + successes outcomes.
Proof.
  unfold successes. cbn [filter]. destruct (succeeded (snd r));
    cbn [List.length]; lia.
Qed.

Section NextImage.
Context {cv : OpenCV}.

(** X13. Along a stream of [detect(next_image)] calls the frame counter
    counts the calls that returned: a call that throws does not use up an
    index. The indices so given are above every key of the buffer, as they
    were at the start. (No wrap: the counter stays under [2^64].) *)
Theorem implicit_index_counts_returning_calls
    (calls : list (time_point * Mat)) (h0 : Handler) :
  0 <= next_frame_index h0 ->
  next_frame_index h0 + Z.of_nat (List.length calls) < 2 ^ 64 ->
  (forall k, In k (keys (control h0)) -> k < next_frame_index h0) ->
  let outcomes := detect_next_all calls h0 in
  let h := final_handler h0 outcomes in
  next_frame_index h = next_frame_index h0 + successes outcomes
  /\ (forall k, In k (keys (control h)) -> k < next_frame_index h).
Proof.
  cbn zeta. revert h0.
  induction calls as [|[now image] calls IH]; intros h0 H0 Hmax Hkeys.
  - cbn [detect_next_all]. unfold final_handler, successes. cbn.
    split; [lia|exact Hkeys].
  - cbn [detect_next_all]. rewrite final_handler_cons, successes_cons.
    cbn [List.length] in Hmax.
    unfold detect_next.
    destruct (detect now (next_frame_index h0) image h0) as [h1 [e|b]] eqn:E;
      cbn [fst snd succeeded].
    + destruct (detect_failure_keeps _ _ _ _ E) as (Hc & Hf & _).
      destruct (IH h1) as (Hn & Hk).
      * lia.
      * lia.
      * rewrite Hc, Hf. exact Hkeys.
      * split; [lia|exact Hk].
    + destruct (detect_completed_control _ _ _ _ E)
        as (thumbnail & _ & Hc & _ & Hf).
      assert (Hf1 : next_frame_index h1 = next_frame_index h0 + 1).
      { rewrite Hf. unfold wrap64. apply Z.mod_small. lia. }
      destruct (IH h1) as (Hn & Hk).
      * lia.
      * lia.
      * intros k Hin. rewrite Hc in Hin.
        assert (Hin' : In k (keys (assign (next_frame_index h0) thumbnail
                                          (control h0)))
                       \/ In k (keys (control h0))).
        { destruct (_ || _); [left; eapply evict_keys; exact Hin|now right]. }
        rewrite keys_assign in Hin'.
        destruct Hin' as [[->|Hin']|Hin']; [lia| |];
          specialize (Hkeys _ Hin'); lia.
      * split; [lia|exact Hk].
Qed.

End NextImage.

(** ** The mask settings and the detection *)

Section MaskIndependence.
Context {cv : OpenCV}.

(** X14. The mask, contour, bounding-box and line settings, and the mask
    and output images, have no part in the detection: two handlers that
    agree on the control buffer, the counters, the threshold, the
    thumbnail size and ratio and the movement fields give, when both calls
    return, the same result and agree on all of these again. *)
Theorem detection_independent_of_mask_settings
    now frame_index image h1 h2 h1' h2' b1 b2 :
  detection_state h1 = detection_state h2 ->
  detect now frame_index image h1 = (h1', inr b1) ->
  detect now frame_index image h2 = (h2', inr b2) ->
  b1 = b2 /\ detection_state h1' = detection_state h2'.
Proof.
  intros Hst E1 E2. unfold detection_state, scan_fields in Hst.
  injection Hst as Hc Hf Hk Hq Hn Ht Hr Hs Htr Hm Hsc Hi Hl.
  assert (Hne : empty image = false).
  { unfold detect in E1.
    destruct (empty image); [discriminate|reflexivity]. }
  pose proof (@detect_thumbnail_size _ now frame_index image h1 Hne)
    as (Hts1 & Htr1).
  pose proof (@detect_thumbnail_size _ now frame_index image h2 Hne)
    as (Hts2 & Htr2).
  rewrite E1 in Hts1, Htr1. rewrite E2 in Hts2, Htr2.
  cbn [fst] in Hts1, Htr1, Hts2, Htr2.
  assert (Hps : prepared_size image h1 = prepared_size image h2)
    by (unfold prepared_size, prepared_ratio; now rewrite Hs, Hr).
  assert (Hpr : prepared_ratio h1 = prepared_ratio h2)
    by (unfold prepared_ratio; now rewrite Hs, Hr).
  pose proof (detect_settings now frame_index image h1)
    as (Sk1 & Sn1 & Sp1 & _).
  pose proof (detect_settings now frame_index image h2)
    as (Sk2 & Sn2 & Sp2 & _).
  rewrite E1 in Sk1, Sn1, Sp1. rewrite E2 in Sk2, Sn2, Sp2.
  cbn [fst] in Sk1, Sn1, Sp1, Sk2, Sn2, Sp2.
  destruct (detect_completed_flags _ _ _ _ E1) as (Hb1 & Ht1).
  destruct (detect_completed_flags _ _ _ _ E2) as (Hb2 & Ht2).
  destruct (detect_completed_scan _ _ _ _ E1) as (th1 & Hr1 & Hscan1 & _).
  destruct (detect_completed_scan _ _ _ _ E2) as (th2 & Hr2 & Hscan2 & _).
  assert (Hth : th1 = th2).
  { rewrite Hts1, Hps, <- Hts2, Hr2 in Hr1. now injection Hr1. }
  subst th2.
  assert (Hscan : scan_fields h1' = scan_fields h2').
  { rewrite Hscan1, Hscan2, Ht, Hc, Hsc, Hi, Hl. reflexivity. }
  assert (Hb : b1 = b2).
  { rewrite <- Hb1, <- Hb2. unfold scan_fields in Hscan.
    now injection Hscan. }
  split; [exact Hb|].
  destruct (detect_completed_control _ _ _ _ E1)
    as (t1 & Hrt1 & Hc1 & Hk1 & Hf1).
  destruct (detect_completed_control _ _ _ _ E2)
    as (t2 & Hrt2 & Hc2 & Hk2 & Hf2).
  rewrite prepare_thumbnail_size in Hrt1, Hrt2.
  rewrite Hps, Hrt2 in Hrt1. injection Hrt1 as <-.
  unfold detection_state.
  rewrite Hscan, Hc1, Hc2, Hk1, Hk2, Hf1, Hf2, Sk1, Sk2, Sn1, Sn2, Sp1, Sp2,
    Hts1, Hts2, Htr1, Htr2, Ht1, Ht2, Hc, Hk, Hq, Hn, Ht, Hps, Hpr, Hm, Hb.
  reflexivity.
Qed.

End MaskIndependence.

(** ** The older generation: key frames only *)

Section LegacyBuffer.
Context {cv : OpenCV}.

Lemma legacy_compare_control_keeps now frame_index thumbnail it :
  forall g,
    let g2 := fst (Legacy.compare_control now frame_index thumbnail it g) in
    Legacy.control g2 = Legacy.control g
    /\ Legacy.next_key_frame g2 = Legacy.next_key_frame g
    /\ Legacy.key_frame_frequency g2 = Legacy.key_frame_frequency g
    /\ Legacy.number_of_control_frames g2
       = Legacy.number_of_control_frames g.
Proof.
  induction it as [|[k val] it IH]; intros g; cbn zeta;
    cbn [Legacy.compare_control].
  - repeat split.
  - destruct (psnr val thumbnail) as [e|sc]; [repeat split|].
    destruct (score_lt _ _); [repeat split|].
    specialize (IH (Legacy.set_psnr_score sc g)). cbn zeta in IH.
    destruct IH as (-> & -> & -> & ->). repeat split.
Qed.

(** What a call of the older [detect] does to the buffer. *)
Lemma legacy_detect_control now frame_index image (h : Legacy.Handler) :
  let r := Legacy.detect now frame_index image h in
  Legacy.key_frame_frequency (fst r) = Legacy.key_frame_frequency h
  /\ Legacy.number_of_control_frames (fst r)
     = Legacy.number_of_control_frames h
  /\ ((Legacy.control (fst r) = Legacy.control h
       /\ Legacy.next_key_frame (fst r) = Legacy.next_key_frame h
       /\ (succeeded (snd r) = true ->
           frame_index < Legacy.next_key_frame h))
      \/ (exists thumbnail,
             succeeded (snd r) = true
             /\ Legacy.next_key_frame h <= frame_index
             /\ Legacy.control (fst r)
                = evict (Legacy.number_of_control_frames h)
                        (assign frame_index thumbnail (Legacy.control h))
             /\ Legacy.next_key_frame (fst r)
                = wrap64 (frame_index + Legacy.key_frame_frequency h))).
Proof.
  cbn zeta. unfold Legacy.detect.
  destruct (empty image).
  { split; [reflexivity|]. split; [reflexivity|]. left.
    repeat split. discriminate. }
  set (h1 := if area (Legacy.thumbnail_size h) <=? 1 then _ else h).
  assert (H1 : Legacy.control h1 = Legacy.control h
               /\ Legacy.next_key_frame h1 = Legacy.next_key_frame h
               /\ Legacy.key_frame_frequency h1
                  = Legacy.key_frame_frequency h
               /\ Legacy.number_of_control_frames h1
                  = Legacy.number_of_control_frames h).
  { subst h1. destruct (_ <=? 1); repeat split. }
  destruct H1 as (Hc1 & Hk1 & Hq1 & Hn1). clearbody h1.
  destruct (resize image (Legacy.thumbnail_size h1) INTER_AREA)
    as [e|thumbnail].
  { cbn [fst snd succeeded]. split; [exact Hq1|]. split; [exact Hn1|].
    left. split; [exact Hc1|]. split; [exact Hk1|discriminate]. }
  pose proof (legacy_compare_control_keeps now frame_index thumbnail
                (rev (Legacy.control h1)) h1) as Hloop.
  cbn zeta in Hloop.
  destruct (Legacy.compare_control now frame_index thumbnail
              (rev (Legacy.control h1)) h1) as [h2 [e|b]];
    cbn [fst] in Hloop; destruct Hloop as (Hc2 & Hk2 & Hq2 & Hn2).
  { cbn [fst snd succeeded]. split; [congruence|]. split; [congruence|].
    left. split; [congruence|]. split; [congruence|discriminate]. }
  destruct (Legacy.next_key_frame h2 <=? frame_index) eqn:Ek;
    cbn [fst snd succeeded].
  - apply Z.leb_le in Ek.
    split; [cbn; congruence|]. split; [cbn; congruence|].
    right. exists thumbnail. split; [reflexivity|].
    split; [congruence|]. cbn.
    rewrite Hc2, Hc1, Hn2, Hn1, Hq2, Hq1. split; reflexivity.
  - apply Z.leb_gt in Ek.
    split; [cbn; congruence|]. split; [cbn; congruence|].
    left. cbn. split; [congruence|]. split; [congruence|].
    intros _. congruence.
Qed.

Lemma key_frames_spaced_evict K bound n m :
  key_frames_spaced K bound m -> key_frames_spaced K bound (evict n m).
Proof.
  intros (Hb & Hg). split.
  - intros k Hk. apply Hb. eapply evict_keys. exact Hk.
  - intros k k' Hk Hk'. apply Hg; eapply evict_keys; eassumption.
Qed.

Lemma key_frames_spaced_assign K bound k v m :
  0 <= K ->
  key_frames_spaced K bound m -> bound <= k ->
  key_frames_spaced K (k + K) (assign k v m).
Proof.
  intros HK (Hb & Hg) Hk. split.
  - intros k1 H1. apply keys_assign in H1. destruct H1 as [->|H1]; [lia|].
    specialize (Hb _ H1). lia.
  - intros k1 k2 H1 H2 Hlt.
    apply keys_assign in H1. apply keys_assign in H2.
    destruct H1 as [->|H1], H2 as [->|H2].
    + lia.
    + specialize (Hb _ H2). lia.
    + specialize (Hb _ H1). lia.
    + now apply Hg.
Qed.

(** X15. In the older generation the buffer never exceeds the capacity
    once within it, and the frames it keeps are key frames only: along any
    stream of calls from an empty buffer, whatever the frame indices, the
    stored indices are at least [key_frame_frequency] apart. (No wrap:
    every index plus the interval stays under [2^64].) *)
Theorem legacy_key_frames_spaced
    (calls : list (time_point * Z * Mat)) (h0 : Legacy.Handler) :
  Legacy.control h0 = [] ->
  0 <= Legacy.key_frame_frequency h0 ->
  0 <= Legacy.number_of_control_frames h0 ->
  Forall (fun c => 0 <= call_index c
                   /\ call_index c + Legacy.key_frame_frequency h0 < 2 ^ 64)
         calls ->
  Forall (fun r =>
            map_size (Legacy.control (fst r))
            <= Legacy.number_of_control_frames h0
            /\ key_frames_spaced (Legacy.key_frame_frequency h0)
                                 (Legacy.next_key_frame (fst r))
                                 (Legacy.control (fst r)))
         (legacy_detect_all calls h0).
Proof.
  intros Hempty HK Hcap Hcalls.
  set (K := Legacy.key_frame_frequency h0) in *.
  set (C := Legacy.number_of_control_frames h0) in *.
  assert (Hinv : map_size (Legacy.control h0) <= C
                 /\ key_frames_spaced K (Legacy.next_key_frame h0)
                                      (Legacy.control h0)).
  { rewrite Hempty. split; [exact Hcap|].
    split; [intros k []|intros k k' []]. }
  assert (HK0 : Legacy.key_frame_frequency h0 = K) by reflexivity.
  assert (HC0 : Legacy.number_of_control_frames h0 = C) by reflexivity.
  clearbody K C. clear Hempty. revert h0 Hinv HK0 HC0.
  induction Hcalls as [|[[now frame_index] image] calls (Hi & Hw) _ IH];
    intros h0 (Hsz & Hsp) HK0 HC0; cbn [legacy_detect_all].
  - constructor.
  - cbn [call_index fst snd] in Hi, Hw.
    pose proof (legacy_detect_control now frame_index image h0) as Hd.
    cbn zeta in Hd. destruct Hd as (Hq & Hn & Hd).
    assert (Hinv1 : map_size (Legacy.control
                               (fst (Legacy.detect now frame_index image h0)))
                    <= C
                    /\ key_frames_spaced K
                         (Legacy.next_key_frame
                            (fst (Legacy.detect now frame_index image h0)))
                         (Legacy.control
                            (fst (Legacy.detect now frame_index image h0)))).
    { destruct Hd as [(Hc & Hk & _)|(thumbnail & _ & Hle & Hc & Hk)].
      - rewrite Hc, Hk. split; assumption.
      - rewrite Hc, Hk, HC0, HK0. split.
        + rewrite evict_size by exact Hcap. lia.
        + apply key_frames_spaced_evict.
          unfold wrap64. rewrite Z.mod_small by lia.
          apply (@key_frames_spaced_assign K (Legacy.next_key_frame h0));
            assumption. }
    constructor; [exact Hinv1|].
    apply IH; [exact Hinv1|congruence|congruence].
Qed.

(** X21. The older generation admits a thumbnail exactly on a returning
    call whose frame index has reached the key-frame index; every other
    call, failing or not, leaves the buffer and the key-frame index as
    they were, also while the buffer is under its capacity. *)
Theorem legacy_admits_exactly_at_key_frames
    now frame_index image (h : Legacy.Handler) :
  let r := Legacy.detect now frame_index image h in
  (succeeded (snd r) = false \/ frame_index < Legacy.next_key_frame h ->
   Legacy.control (fst r) = Legacy.control h
   /\ Legacy.next_key_frame (fst r) = Legacy.next_key_frame h)
  /\ (succeeded (snd r) = true ->
      Legacy.next_key_frame h <= frame_index ->
      exists thumbnail,
        Legacy.control (fst r)
        = evict (Legacy.number_of_control_frames h)
                (assign frame_index thumbnail (Legacy.control h))
        /\ Legacy.next_key_frame (fst r)
           = wrap64 (frame_index + Legacy.key_frame_frequency h)).
Proof.
  pose proof (legacy_detect_control now frame_index image h) as Hd.
  cbn zeta in *. destruct Hd as (_ & _ & Hd).
  destruct Hd as [(Hc & Hk & Hs)|(thumbnail & Hs & Hle & Hc & Hk)].
  - split.
    + intros _. split; assumption.
    + intros Hok Hle. specialize (Hs Hok). lia.
  - split.
    + intros [Hf|Hlt]; [congruence|lia].
    + intros _ _. exists thumbnail. split; assumption.
Qed.

End LegacyBuffer.

(** ** [simple_colour_balance]: the two percentile positions *)

Lemma percentile_positions (n : Z) :
  1 <= n ->
  0 <= lo_index n < n
  /\ 0 <= hi_index n <= n
  /\ (hi_index n < n <-> 201 <= n)
  /\ (n <= 200 -> hi_index n = n).
Proof.
  intros Hn. unfold lo_index, hi_index, cvFloor, cvCeil.
  pose proof (Qle_ceiling (inject_Z n * (1 - half_percent))) as H1.
  pose proof (Qceiling_lt (inject_Z n * (1 - half_percent))) as H2.
  pose proof (Qfloor_le (inject_Z n * (0 + half_percent))) as H3.
  pose proof (Qlt_floor (inject_Z n * (0 + half_percent))) as H4.
  set (h := Qceiling (inject_Z n * (1 - half_percent))) in *.
  set (l := Qfloor (inject_Z n * (0 + half_percent))) in *.
  clearbody h l.
  unfold Qle, Qlt, Qmult, Qminus, Qplus, Qopp, inject_Z, half_percent in *.
  cbn [Qnum Qden] in *.
  change (Z.pos (1 * (1 * 2147483648))) with 2147483648 in *.
  split; [lia|]. split; [lia|]. split; [split; lia|lia].
Qed.

(** X16. In a sorted row of [n] samples the low position is always inside
    the row. The high position is inside the row exactly when the row has
    more than 200 samples; on a row of up to 200 samples it is [n], one
    past the last sample. (Rows of under [2^22] samples, where the
    floating-point products are exact.) *)
Theorem colour_balance_high_index_past_small_rows (n : Z) :
  1 <= n < 2 ^ 22 ->
  0 <= lo_index n < n
  /\ 0 <= hi_index n <= n
  /\ (hi_index n < n <-> 201 <= n)
  /\ (n <= 200 -> hi_index n = n).
Proof.
  intros Hn. exact (percentile_positions (proj1 Hn)).
Qed.

Lemma insert_sorted_length (x : Z) (l : list Z) :
  List.length (insert_sorted x l) = S (List.length l).
Proof.
  induction l as [|y l IH]; cbn [insert_sorted]; [reflexivity|].
  destruct (x <=? y); cbn [List.length]; [reflexivity|now rewrite IH].
Qed.

Lemma sort_ascending_length (l : list Z) :
  List.length (sort_ascending l) = List.length l.
Proof.
  induction l as [|x l IH]; [reflexivity|].
  cbn [sort_ascending fold_right]. fold (sort_ascending l).
  now rewrite insert_sorted_length, IH.
Qed.

Lemma balance_plane_inside
    (normalize_minmax : list Z -> list Z) (stray stray' : Z -> Z)
    (idx n : Z) (p : list Z) :
  Z.of_nat (List.length p) = n ->
  201 <= n ->
  balance_plane normalize_minmax stray idx n p
  = balance_plane normalize_minmax stray' idx n p.
Proof.
  intros Hlen Hbig.
  destruct (@percentile_positions n ltac:(lia)) as (Hlo & Hhi & Hin & _).
  assert (Hlo' : (Z.to_nat (lo_index n)
                  < List.length (sort_ascending p))%nat)
    by (rewrite sort_ascending_length; lia).
  assert (Hhi' : (Z.to_nat (hi_index n)
                  < List.length (sort_ascending p))%nat)
    by (rewrite sort_ascending_length; lia).
  unfold balance_plane.
  rewrite (nth_indep _ (stray idx) (stray' idx) Hlo').
  rewrite (nth_indep _ (stray idx) (stray' idx) Hhi').
  reflexivity.
Qed.

(** X17. In the loop of [simple_colour_balance] on a plane of [n]
    samples: with more than 200 samples both percentiles are read inside
    the sorted row, so the plane that comes out does not depend on the
    memory after the row; with up to 200 samples the high percentile is
    the byte read past the end of the row. *)
Theorem colour_balance_plane_reads
    (normalize_minmax : list Z -> list Z) (stray stray' : Z -> Z)
    (idx n : Z) (p : list Z) :
  Z.of_nat (List.length p) = n ->
  1 <= n < 2 ^ 22 ->
  (201 <= n ->
   balance_plane normalize_minmax stray idx n p
   = balance_plane normalize_minmax stray' idx n p)
  /\ (n <= 200 ->
      nth (Z.to_nat (hi_index n)) (sort_ascending p) (stray idx)
      = stray idx
      /\ balance_plane normalize_minmax stray idx n p
         = normalize_minmax
             (map (fun x => if x >? stray idx then stray idx else x)
                  (map (fun x =>
                          let lo := nth (Z.to_nat (lo_index n))
                                        (sort_ascending p) 0 in
                          if x <? lo then lo else x) p))).
Proof.
  intros Hlen Hn.
  destruct (percentile_positions (proj1 Hn)) as (Hlo & Hhi & Hin & Hout).
  assert (Hlo' : (Z.to_nat (lo_index n)
                  < List.length (sort_ascending p))%nat)
    by (rewrite sort_ascending_length; lia).
  split.
  - intros Hbig. apply balance_plane_inside; assumption.
  - intros Hsmall.
    assert (Hpast : nth (Z.to_nat (hi_index n)) (sort_ascending p)
                        (stray idx) = stray idx).
    { apply nth_overflow. rewrite sort_ascending_length. lia. }
    split; [exact Hpast|].
    unfold balance_plane. rewrite Hpast.
    rewrite (nth_indep _ (stray idx) 0 Hlo'). reflexivity.
Qed.

Lemma plane3_length (c : Z) (m : nat) :
  c = 0 \/ c = 1 \/ c = 2 ->
  forall l, List.length l = (3 * m)%nat ->
            List.length (plane 3 c 0 l) = m.
Proof.
  intros Hc. induction m as [|m IH]; intros l Hl.
  - destruct l; [reflexivity|discriminate].
  - destruct l as [|x [|y [|z l]]]; cbn [List.length] in Hl; try lia.
    assert (Hl' : List.length l = (3 * m)%nat) by lia.
    specialize (IH l Hl').
    destruct Hc as [-> | [-> | ->]]; cbn; now rewrite IH.
Qed.

(** X18. [simple_colour_balance] throws exactly for an empty image or one
    that does not have three channels; otherwise it returns an image of
    the size and type of its input, and on an image of more than 200
    pixels (and under [2^22]) the result does not depend on the memory
    past the rows. *)
Theorem simple_colour_balance_guard_and_reads
    (normalize_minmax : list Z -> list Z) (stray stray' : Z -> Z)
    (src : Mat) :
  (empty src = true \/ channels src <> 3 ->
   simple_colour_balance normalize_minmax stray src
   = inl (invalid_argument "cannot colour balance the given image"))
  /\ (empty src = false -> channels src = 3 ->
      exists samples,
        simple_colour_balance normalize_minmax stray src
        = inr (mkMat (rows src) (cols src) (type src) samples))
  /\ (channels src = 3 -> 201 <= total src < 2 ^ 22 ->
      Z.of_nat (List.length (data src)) = 3 * total src ->
      simple_colour_balance normalize_minmax stray src
      = simple_colour_balance normalize_minmax stray' src).
Proof.
  unfold simple_colour_balance. split; [|split].
  - intros [He|Hc].
    + now rewrite He.
    + apply Z.eqb_neq in Hc. rewrite Hc. cbn [negb].
      now rewrite Bool.orb_true_r.
  - intros He Hc. rewrite He, Hc. change (3 =? 3) with true.
    cbn [negb orb]. eexists. reflexivity.
  - intros Hc Hbig Hlen.
    assert (Hplane : forall c, c = 0 \/ c = 1 \/ c = 2 ->
               Z.of_nat (List.length (plane 3 c 0 (data src)))
               = total src).
    { intros c Hc3.
      rewrite (@plane3_length c (Z.to_nat (total src))); [lia|exact Hc3|].
      lia. }
    destruct (empty src || negb (channels src =? 3)); [reflexivity|].
    rewrite (@balance_plane_inside normalize_minmax stray stray'
               0 (total src) (plane 3 0 0 (data src))
               (Hplane 0 (or_introl eq_refl)) (proj1 Hbig)).
    rewrite (@balance_plane_inside normalize_minmax stray stray'
               1 (total src) (plane 3 1 0 (data src))
               (Hplane 1 (or_intror (or_introl eq_refl))) (proj1 Hbig)).
    rewrite (@balance_plane_inside normalize_minmax stray stray'
               2 (total src) (plane 3 2 0 (data src))
               (Hplane 2 (or_intror (or_intror eq_refl))) (proj1 Hbig)).
    reflexivity.
Qed.

(** ** The score and the mask a returning call leaves *)

Section ScoreAndMask.
Context {cv : OpenCV}.

Lemma compare_control_none_last now frame_index image thumbnail k v :
  forall pre g g2 u,
    compare_control now frame_index image thumbnail (pre ++ [(k, v)]) g
    = (g2, inr u) ->
    movement_detected g = false ->
    movement_detected g2 = false ->
    psnr v thumbnail = inr (most_recent_psnr_score g2).
Proof.
  induction pre as [|[k1 v1] pre IH]; intros g g2 u; cbn [app compare_control].
  - destruct (psnr v thumbnail) as [e|sc]; [discriminate|].
    change (most_recent_psnr_score (set_most_recent_psnr_score sc g))
      with sc.
    destruct (score_lt sc _).
    + destruct (mask_enabled _).
      * destruct (movement_mask v thumbnail image); [discriminate|].
        intros [= <- _] _ Hm. discriminate.
      * intros [= <- _] _ Hm. discriminate.
    + intros [= <- _] _ _. reflexivity.
  - destruct (psnr v1 thumbnail) as [e|sc]; [discriminate|].
    destruct (score_lt _ _).
    + destruct (mask_enabled _).
      * destruct (movement_mask v1 thumbnail image); [discriminate|].
        intros [= <- _] _ Hm. discriminate.
      * intros [= <- _] _ Hm. discriminate.
    + intros Hc Hg Hg2. eapply IH; [exact Hc|exact Hg|exact Hg2].
Qed.

(** X19. The score left by a call that returns false is the one of the
    last comparison made, against the oldest control thumbnail, the entry
    of smallest index; with an empty buffer nothing is compared and the
    score is left as it was. *)
Theorem score_after_no_movement_is_against_oldest
    now frame_index image h h' :
  detect now frame_index image h = (h', inr false) ->
  (control h = [] ->
   most_recent_psnr_score h' = most_recent_psnr_score h)
  /\ (forall k0 v0 rest,
        control h = (k0, v0) :: rest ->
        exists thumbnail,
          resize image (thumbnail_size h') INTER_AREA = inr thumbnail
          /\ psnr v0 thumbnail = inr (most_recent_psnr_score h')).
Proof.
  intros E. split.
  - intros Hempty.
    destruct (detect_completed_scan _ _ _ _ E) as (thumbnail & _ & Hs & _).
    rewrite Hempty in Hs. cbn [rev scan] in Hs.
    unfold scan_fields in Hs. now injection Hs.
  - intros k0 v0 rest Hctl.
    destruct (detect_completed_scan _ _ _ _ E) as (thumbnail & Hr & _ & _).
    exists thumbnail. split; [exact Hr|].
    assert (Hne : empty image = false).
    { unfold detect in E.
      destruct (empty image); [discriminate|reflexivity]. }
    pose proof (@detect_thumbnail_size _ now frame_index image h Hne)
      as (Hts & _).
    rewrite E in Hts. cbn [fst] in Hts.
    apply detect_inv in E.
    inversion E as [| | |thumbnail' h2 u He Hr' Hc Hh' Hb]; subst h'.
    rewrite prepare_thumbnail_size, <- Hts, Hr in Hr'. injection Hr' as <-.
    rewrite Hctl in Hc. cbn [rev] in Hc. rewrite Hb in Hc.
    apply compare_control_none_last in Hc; [|reflexivity|exact Hb].
    destruct (complete_footprint frame_index image thumbnail
                (movement_detected h) h2) as (c & nk & o & mk & ->).
    exact Hc.
Qed.

Lemma movement_mask_shape val thumbnail image m :
  movement_mask val thumbnail image = inr m ->
  rows m = rows image /\ cols m = cols image /\ type m = CV_8UC1
  /\ 0 < rows image /\ 0 < cols image.
Proof.
  unfold movement_mask.
  destruct (resize _ _ _) as [e|m1] eqn:E1; [discriminate|].
  apply resize_inv in E1. cbn [size width height] in E1.
  destruct E1 as (Hw & Hh & Hr & Hc & _).
  unfold cvtColor_BGR2GRAY.
  destruct ((channels m1 =? 3) || (channels m1 =? 4)); [|discriminate].
  unfold threshold_otsu. cbn [type rows cols].
  destruct (CV_MAKETYPE (depth m1) 1 =? CV_8UC1) eqn:Et; [|discriminate].
  apply Z.eqb_eq in Et.
  intros [= <-]. cbn [erode dilate rows cols type].
  repeat split; congruence || assumption.
Qed.

Lemma compare_control_mask_shape now frame_index image thumbnail it :
  forall g g2 u,
    compare_control now frame_index image thumbnail it g = (g2, inr u) ->
    mask_enabled g = true ->
    movement_detected g = false ->
    movement_detected g2 = true ->
    rows (mask g2) = rows image /\ cols (mask g2) = cols image
    /\ type (mask g2) = CV_8UC1 /\ 0 < rows image /\ 0 < cols image.
Proof.
  induction it as [|[k val] it IH]; intros g g2 u; cbn [compare_control].
  - intros [= <- _] _ Hg Hg2. congruence.
  - destruct (psnr val thumbnail) as [e|sc]; [discriminate|].
    destruct (score_lt _ _).
    + change (mask_enabled
                (set_frame_index_with_movement frame_index
                   (set_movement_last_detected now
                      (set_movement_detected true
                         (set_most_recent_psnr_score sc g)))))
        with (mask_enabled g).
      intros Hc Hm. rewrite Hm in Hc.
      destruct (movement_mask val thumbnail image) as [e|m] eqn:Em;
        [discriminate|].
      injection Hc as <- _. intros _ _.
      apply movement_mask_shape in Em. exact Em.
    + intros Hc Hm Hg Hg2. eapply IH; eassumption.
Qed.

(** X20. With the mask enabled (directly, or through contours or bounding
    box), a call that returns true leaves a mask of the size of the frame,
    of type [CV_8UC1], and not empty. *)
Theorem mask_has_frame_size_after_movement now frame_index image h h' :
  detect now frame_index image h = (h', inr true) ->
  mask_enabled h || contours_enabled h || bbox_enabled h = true ->
  rows (mask h') = rows image
  /\ cols (mask h') = cols image
  /\ type (mask h') = CV_8UC1
  /\ empty (mask h') = false.
Proof.
  intros E Hen.
  apply detect_inv in E.
  inversion E as [| | |thumbnail h2 u He Hr Hc Hh' Hb]; subst h'.
  assert (Hshape : rows (mask h2) = rows image /\ cols (mask h2) = cols image
                   /\ type (mask h2) = CV_8UC1
                   /\ 0 < rows image /\ 0 < cols image).
  { eapply compare_control_mask_shape; [exact Hc| |reflexivity|exact Hb].
    change (mask_enabled (prepare image h) = true).
    rewrite prepare_footprint. exact Hen. }
  destruct Hshape as (Hrows & Hcols & Htype & Hr0 & Hc0).
  assert (Hne : empty (mask h2) = false).
  { unfold empty, total. rewrite Hrows, Hcols. apply Z.eqb_neq. nia. }
  assert (Hm : mask (complete frame_index image thumbnail
                       (movement_detected h) h2) = mask h2).
  { unfold complete.
    set (Y := set_transition_detected
                (negb (Bool.eqb (movement_detected h)
                                (movement_detected h2))) h2).
    destruct (keep_key_frame_footprint frame_index thumbnail
                (update_mask_and_output image Y)) as (c & nk & -> & _).
    destruct (update_mask_and_output_footprint image Y) as (o & ->).
    change (mask (set_next_frame_index _ (set_next_key_frame nk
              (set_control c (set_output o (set_mask ?m Y))))))
      with m.
    change (mask Y) with (mask h2).
    change (movement_detected Y) with (movement_detected h2).
    rewrite Hb, Hne. cbn [Bool.eqb orb andb].
    rewrite !Bool.andb_false_r. reflexivity. }
  rewrite Hm.
  split; [exact Hrows|split; [exact Hcols|split; [exact Htype|exact Hne]]].
Qed.

End ScoreAndMask.

(** ** Concrete runs of the further properties *)

Lemma psnr_ignores_fourth_channel_witness :
  let a := mkMat 1 2 24 [10; 20; 30; 255; 40; 50; 60; 255] in
  let b := mkMat 1 2 24 [10; 20; 30; 0; 40; 50; 60; 7] in
  data a <> data b /\ psnr a b = inr score_zero.
Proof.
  intros a b. split; [vm_compute; discriminate|].
  assert (Hu : forall l, forallb (fun x => (0 <=? x) && (x <=? 255)) l = true
                         -> Forall is_uchar l).
  { intros l H. apply Forall_forall. intros x Hx.
    apply (proj1 (forallb_forall _ l) H) in Hx.
    apply andb_prop in Hx. destruct Hx as (H0 & H1).
    apply Z.leb_le in H0, H1. split; assumption. }
  destruct (@psnr_ignores_fourth_channel a b eq_refl eq_refl eq_refl
              eq_refl eq_refl eq_refl (Hu (data a) eq_refl)
              (Hu (data b) eq_refl) eq_refl)
    as (_ & Hsame).
  apply Hsame; reflexivity.
Defined.

Lemma psnr_value_zero_iff_same_or_opposite_witness :
  let black := Sample.solid 2 2 0 0 0 in
  let white := Sample.solid 2 2 255 255 255 in
  psnr black white = inr (score_psnr 780300 12)
  /\ score_value (score_psnr 780300 12) = 0%R
  /\ score_value score_zero = 0%R.
Proof.
  intros black white.
  assert (Hu : forall l, forallb (fun x => (0 <=? x) && (x <=? 255)) l = true
                         -> Forall is_uchar l).
  { intros l H. apply Forall_forall. intros x Hx.
    apply (proj1 (forallb_forall _ l) H) in Hx.
    apply andb_prop in Hx. destruct Hx as (H0 & H1).
    apply Z.leb_le in H0, H1. split; assumption. }
  assert (Hp : psnr black white = inr (score_psnr 780300 12))
    by (vm_compute; reflexivity).
  assert (Hcn : 1 <= channels black <= 3) by (vm_compute; split; discriminate).
  destruct (@psnr_value_zero_iff_same_or_opposite black white
              (score_psnr 780300 12) Hcn (Hu (data black) eq_refl)
              (Hu (data white) eq_refl)
              eq_refl eq_refl Hp) as (Hzero & _).
  split; [exact Hp|]. split; [|reflexivity].
  apply Hzero. right. vm_compute. repeat constructor.
Defined.


Lemma psnr_uchar_score_nonnegative_witness :
  let black := Sample.solid 2 2 0 0 0 in
  let white := Sample.solid 2 2 255 255 255 in
  psnr black white = inr (score_psnr (255 * 255 * 12) 12)
  /\ (0 <= score_value (score_psnr (255 * 255 * 12) 12))%R.
Proof.
  intros black white.
  assert (Hp : psnr black white = inr (score_psnr (255 * 255 * 12) 12))
    by (vm_compute; reflexivity).
  split; [exact Hp|].
  apply (@psnr_uchar_score_nonnegative black white _).
  - cbn. lia.
  - repeat constructor; cbn; lia.
  - repeat constructor; cbn; lia.
  - reflexivity.
  - exact Hp.
Defined.

Lemma detect_true_iff_some_thumbnail_under_threshold_witness :
  let detect := detect (cv := Sample.sample_cv) in
  let black := Sample.solid 40 40 0 0 0 in
  let white := Sample.solid 40 40 255 255 255 in
  let h1 := fst (detect 1 0 black Handler_new) in
  let h2 := fst (detect 2 1 white h1) in
  exists thumbnail,
    resize (cv := Sample.sample_cv) white (thumbnail_size h2) INTER_AREA
    = inr thumbnail
    /\ true = existsb (under_threshold thumbnail (psnr_threshold h1))
                      (control h1).
Proof.
  intros detect' black white h1 h2.
  assert (E : detect' 2 1 white h1 = (h2, inr true))
    by (vm_compute; reflexivity).
  clearbody h2 h1. unfold detect' in E. clear detect'.
  exact (detect_true_iff_some_thumbnail_under_threshold _ _ _ _ E).
Defined.

Lemma movement_index_and_time_follow_true_results_witness :
  let detect := detect (cv := Sample.sample_cv) in
  let black := Sample.solid 40 40 0 0 0 in
  let white := Sample.solid 40 40 255 255 255 in
  let h1 := fst (detect 1 0 black Handler_new) in
  let h2 := fst (detect 7 1 white h1) in
  frame_index_with_movement h2 = 1 /\ movement_last_detected h2 = 7.
Proof.
  intros detect' black white h1 h2.
  assert (E : detect' 7 1 white h1 = (h2, inr true))
    by (vm_compute; reflexivity).
  clearbody h2 h1. unfold detect' in E. clear detect'.
  destruct (movement_index_and_time_follow_true_results _ _ _ _ E)
    as (Htrue & _).
  destruct (Htrue eq_refl) as (Hi & Hl & _). exact (conj Hi Hl).
Defined.

Lemma mask_and_output_kept_when_disabled_witness :
  let frame := Sample.solid 40 40 10 20 30 in
  let h' := fst (detect (cv := Sample.sample_cv) 1 0 frame Handler_new) in
  output h' = Mat_default /\ mask h' = Mat_default.
Proof.
  intros frame h'.
  destruct (@mask_and_output_kept_when_disabled Sample.sample_cv 1 0 frame
              Handler_new eq_refl eq_refl) as (Ho & Hm).
  exact (conj Ho (Hm eq_refl)).
Defined.

Lemma buffer_not_empty_after_returning_call_witness :
  let frame := Sample.solid 40 40 10 20 30 in
  let h' := fst (detect (cv := Sample.sample_cv) 1 0 frame Handler_new) in
  Handler_empty Handler_new = true
  /\ Handler_empty h' = false /\ 1 <= map_size (control h').
Proof.
  intros frame h'. split; [reflexivity|].
  assert (E : detect (cv := Sample.sample_cv) 1 0 frame Handler_new
              = (h', inr false)) by (vm_compute; reflexivity).
  clearbody h'.
  apply (@buffer_not_empty_after_returning_call Sample.sample_cv
           1 0 frame Handler_new h' false); [cbn; lia|exact E].
Defined.

Lemma newest_thumbnail_is_last_entry_witness :
  let detect := detect (cv := Sample.sample_cv) in
  let black := Sample.solid 40 40 0 0 0 in
  let white := Sample.solid 40 40 255 255 255 in
  let h1 := fst (detect 1 0 black Handler_new) in
  let h2 := fst (detect 2 1 white h1) in
  exists thumbnail,
    resize (cv := Sample.sample_cv) white (thumbnail_size h2) INTER_AREA
    = inr thumbnail
    /\ control h2
       = evict (number_of_control_frames h1 - 1) (control h1)
         ++ [(1, thumbnail)]
    /\ hd_error (rev (control h2)) = Some (1, thumbnail).
Proof.
  intros detect' black white h1 h2.
  assert (E : detect' 2 1 white h1 = (h2, inr true))
    by (vm_compute; reflexivity).
  assert (Hcap : 1 <= number_of_control_frames h1)
    by (vm_compute; discriminate).
  assert (Hkeys : forall k, In k (keys (control h1)) -> k < 1).
  { intros k Hk. vm_compute in Hk. destruct Hk as [<-|[]]. lia. }
  assert (Hadm : (next_key_frame h1 <=? 1)
                 || (map_size (control h1) <? number_of_control_frames h1)
                 = true) by (vm_compute; reflexivity).
  clearbody h2 h1. unfold detect' in E. clear detect'.
  exact (@newest_thumbnail_is_last_entry Sample.sample_cv 2 1 white h1 h2
           true Hcap Hkeys Hadm E).
Defined.

Lemma out_of_order_index_goes_first_or_is_evicted_witness :
  let detect := detect (cv := Sample.sample_cv) in
  let black := Sample.solid 40 40 0 0 0 in
  let white := Sample.solid 40 40 255 255 255 in
  let h1 := fst (detect 1 10 black Handler_new) in
  let h2 := fst (detect 2 3 white h1) in
  next_key_frame h1 = 20
  /\ next_key_frame h2 = 13
  /\ keys (control h2) = [3; 10].
Proof.
  intros detect' black white h1 h2.
  split; [vm_compute; reflexivity|].
  split; [|vm_compute; reflexivity].
  assert (E : detect' 2 3 white h1 = (h2, inr true))
    by (vm_compute; reflexivity).
  assert (Hctl : control h1
                 = (10, snd (hd (0, Mat_default) (control h1))) :: [])
    by (vm_compute; reflexivity).
  assert (Hadm : (next_key_frame h1 <=? 3)
                 || (map_size (control h1) <? number_of_control_frames h1)
                 = true) by (vm_compute; reflexivity).
  assert (HK : wrap64 (3 + key_frame_frequency h1) = 13)
    by (vm_compute; reflexivity).
  clearbody h2 h1. unfold detect' in E. clear detect'.
  destruct (@out_of_order_index_goes_first_or_is_evicted Sample.sample_cv
              2 3 white h1 h2 true 10 _ [] Hctl ltac:(lia) Hadm E)
    as (Hk & _).
  rewrite Hk. exact HK.
Defined.

Lemma repeated_index_replaces_thumbnail_witness :
  let detect := detect (cv := Sample.sample_cv) in
  let black := Sample.solid 40 40 0 0 0 in
  let white := Sample.solid 40 40 255 255 255 in
  let h1 := fst (detect 1 0 black Handler_new) in
  let h2 := fst (detect 2 0 white h1) in
  keys (control h1) = [0] /\ keys (control h2) = keys (control h1).
Proof.
  intros detect' black white h1 h2.
  split; [vm_compute; reflexivity|].
  assert (E : detect' 2 0 white h1 = (h2, inr true))
    by (vm_compute; reflexivity).
  assert (Hs : StronglySorted Z.lt (keys (control h1)))
    by (vm_compute; repeat constructor).
  assert (Hin : In 0 (keys (control h1))) by (vm_compute; now left).
  assert (Hle : map_size (control h1) <= number_of_control_frames h1)
    by (vm_compute; discriminate).
  assert (Hadm : (next_key_frame h1 <=? 0)
                 || (map_size (control h1) <? number_of_control_frames h1)
                 = true) by (vm_compute; reflexivity).
  clearbody h2 h1. unfold detect' in E. clear detect'.
  destruct (@repeated_index_replaces_thumbnail Sample.sample_cv 2 0 white
              h1 h2 true Hs Hin Hle Hadm E)
    as (thumbnail & _ & Hk & _).
  exact Hk.
Defined.

Lemma implicit_index_counts_returning_calls_witness :
  let frame := Sample.solid 40 40 10 20 30 in
  let outcomes :=
    detect_next_all (cv := Sample.sample_cv)
                    [(1, frame); (2, Mat_default); (3, frame)]
                    Handler_new in
  successes outcomes = 2
  /\ next_frame_index (final_handler Handler_new outcomes)
     = next_frame_index Handler_new + successes outcomes.
Proof.
  intros frame outcomes. split; [vm_compute; reflexivity|].
  apply (@implicit_index_counts_returning_calls Sample.sample_cv
           [(1, frame); (2, Mat_default); (3, frame)] Handler_new).
  - cbn. lia.
  - cbn. lia.
  - intros k [].
Defined.

Lemma detection_independent_of_mask_settings_witness :
  let frame := Sample.solid 40 40 10 20 30 in
  let h1 := Handler_new in
  let h2 := set_contours_enabled true (set_mask_enabled true Handler_new) in
  let r1 := detect (cv := Sample.sample_cv) 1 0 frame h1 in
  let r2 := detect (cv := Sample.sample_cv) 1 0 frame h2 in
  mask (fst r1) <> mask (fst r2)
  /\ detection_state (fst r1) = detection_state (fst r2).
Proof.
  intros frame h1 h2 r1 r2.
  split; [vm_compute; discriminate|].
  assert (E1 : detect (cv := Sample.sample_cv) 1 0 frame h1
               = (fst r1, inr false)) by (vm_compute; reflexivity).
  assert (E2 : detect (cv := Sample.sample_cv) 1 0 frame h2
               = (fst r2, inr false)) by (vm_compute; reflexivity).
  assert (Hst : detection_state h1 = detection_state h2) by reflexivity.
  generalize dependent (fst r1). generalize dependent (fst r2).
  intros g2 E2 g1 E1. clear r1 r2.
  exact (proj2 (@detection_independent_of_mask_settings Sample.sample_cv
                  1 0 frame h1 h2 g1 g2 false false Hst E1 E2)).
Defined.

Lemma legacy_key_frames_spaced_witness :
  let frame := Sample.solid 48 48 10 20 30 in
  Forall (fun r =>
            map_size (Legacy.control (fst r)) <= 2
            /\ key_frames_spaced 15 (Legacy.next_key_frame (fst r))
                                 (Legacy.control (fst r)))
         (legacy_detect_all (cv := Sample.sample_cv)
            [(1, 0, frame); (2, 7, frame); (3, 15, frame); (4, 40, frame)]
            Legacy.Handler_new).
Proof.
  intros frame.
  apply (@legacy_key_frames_spaced Sample.sample_cv
           [(1, 0, frame); (2, 7, frame); (3, 15, frame); (4, 40, frame)]
           Legacy.Handler_new).
  - reflexivity.
  - cbn. lia.
  - cbn. lia.
  - repeat constructor; cbn; lia.
Defined.

Lemma colour_balance_high_index_past_small_rows_witness :
  hi_index 200 = 200 /\ hi_index 201 < 201 /\ 0 <= lo_index 200 < 200.
Proof.
  destruct (@colour_balance_high_index_past_small_rows 200 ltac:(lia))
    as (Hlo & _ & _ & Hout).
  destruct (@colour_balance_high_index_past_small_rows 201 ltac:(lia))
    as (_ & _ & Hin & _).
  split; [apply Hout; lia|]. split; [apply Hin; lia|exact Hlo].
Defined.

Lemma colour_balance_plane_reads_witness :
  let p := [30; 10; 20; 40] in
  nth (Z.to_nat (hi_index 4)) (sort_ascending p) 77 = 77.
Proof.
  intros p.
  destruct (@colour_balance_plane_reads (fun l => l) (fun _ => 77)
              (fun _ => 0) 0 4 p eq_refl ltac:(lia)) as (_ & Hsmall).
  destruct (Hsmall ltac:(lia)) as (Hpast & _). exact Hpast.
Defined.

Lemma score_after_no_movement_is_against_oldest_witness :
  let detect := detect (cv := Sample.sample_cv) in
  let a := Sample.solid 40 40 255 255 255 in
  let b := Sample.solid 40 40 255 255 254 in
  let c := Sample.solid 40 40 255 255 253 in
  let h2 := fst (detect 2 1 b (fst (detect 1 0 a Handler_new))) in
  let h3 := fst (detect 3 2 c h2) in
  keys (control h2) = [0; 1]
  /\ snd (detect 3 2 c h2) = inr false
  /\ psnr (snd (nth 1 (control h2) (0, Mat_default)))
          (snd (nth 2 (control h3) (0, Mat_default)))
     = inr (score_psnr 4 12)
  /\ psnr (snd (nth 0 (control h2) (0, Mat_default)))
          (snd (nth 2 (control h3) (0, Mat_default)))
     = inr (score_psnr 16 12)
  /\ most_recent_psnr_score h3 = score_psnr 16 12.
Proof.
  intros detect' a b c h2 h3.
  split; [vm_compute; reflexivity|].
  split; [vm_compute; reflexivity|].
  split; [vm_compute; reflexivity|].
  split; [vm_compute; reflexivity|].
  assert (E : detect' 3 2 c h2 = (h3, inr false))
    by (vm_compute; reflexivity).
  assert (Hctl : control h2
                 = (0, snd (hd (0, Mat_default) (control h2)))
                   :: tl (control h2))
    by (vm_compute; reflexivity).
  assert (Hval : forall th,
             resize (cv := Sample.sample_cv) c (thumbnail_size h3) INTER_AREA
             = inr th ->
             psnr (snd (hd (0, Mat_default) (control h2))) th
             = inr (score_psnr 16 12)).
  { intros th H. vm_compute in H. injection H as <-.
    vm_compute. reflexivity. }
  clearbody h3 h2. unfold detect' in E. clear detect'.
  destruct (@score_after_no_movement_is_against_oldest Sample.sample_cv
              3 2 c h2 h3 E) as (_ & Hold).
  destruct (Hold _ _ _ Hctl) as (th & Hr & Hp).
  rewrite (Hval th Hr) in Hp. injection Hp as Hp. symmetry. exact Hp.
Defined.

Lemma mask_has_frame_size_after_movement_witness :
  let detect := detect (cv := Sample.sample_cv) in
  let black := Sample.solid 40 40 0 0 0 in
  let white := Sample.solid 40 40 255 255 255 in
  let h1 := fst (detect 1 0 black (set_mask_enabled true Handler_new)) in
  let h2 := fst (detect 2 1 white h1) in
  rows (mask h2) = 40 /\ cols (mask h2) = 40 /\ type (mask h2) = CV_8UC1
  /\ empty (mask h2) = false.
Proof.
  intros detect' black white h1 h2.
  assert (E : detect' 2 1 white h1 = (h2, inr true))
    by (vm_compute; reflexivity).
  assert (Hen : mask_enabled h1 || contours_enabled h1 || bbox_enabled h1
                = true) by (vm_compute; reflexivity).
  clearbody h2 h1. unfold detect' in E. clear detect'.
  exact (@mask_has_frame_size_after_movement Sample.sample_cv 2 1 white
           h1 h2 E Hen).
Defined.
